(** * go-promise: the promise core and its combinators

    A shallow embedding of package [pkg]: the promise core ([Promise],
    [NewPromise], [Then], [Catch], [Finally]), the combinators of
    [static.go] ([All], [Race], [AllSettled], [Any]) and the completion
    tracker of [sync.go] ([wg], [WaitForPromises]).

    Goroutines are the threads of a machine driven by a schedule.  Every
    region the source runs under a mutex is one atomic step; every
    statement that runs outside a mutex (a call of [resolve], a user
    callback, [wg.Done()]) is a step of its own, so that the machine has
    the interleavings the Go scheduler can produce.  Function values are
    represented by what they are: a caller's function by its identity,
    the closures the package builds by their captured variables.  The
    machine keeps a trace of the calls and invocations it performs; the
    trace is what the properties below talk about. *)

From Stdlib Require Import ZArith String List Lia.
From stdpp Require Import base list gmap.

Local Open Scope Z_scope.

(** ** Data model *)

(** Go's generic parameter [T any], together with its zero value (what
    [make([]T, n)] fills a slice with). *)
Class GoType (T : Type) := zero_value : T.

#[global] Instance int_GoType : GoType Z := 0.

(** A [*Promise[T]] is an address in the heap of promises. *)
Definition pid := nat.

(** The identity of a function value supplied by the caller. *)
Definition hid := nat.

Bind Scope nat_scope with pid.
Bind Scope nat_scope with hid.

(** Go's [error]; [None] is the nil error. *)
Definition error := option string.

(** [func()] values handed to [Finally]. *)
Inductive fin_handler :=
| HFinally (u : hid).

(** [func(T)] values that end up in the [then] field: a caller's
    function, one of the two closures built by [Finally] (the one that
    wraps [oldThen], the one built when [oldThen] is nil), or the closure
    a combinator passes to [p.Then]. *)
Inductive then_handler :=
| HThen (u : hid)
| HFinallyThen (oldThen : then_handler) (handler : fin_handler)
| HFinallyOnlyThen (handler : fin_handler)
| HAllThen (agg : pid) (idx : nat)
| HRaceThen (agg : pid)
| HAllSettledThen (agg : pid) (idx : nat)
| HAnyThen (agg : pid).

(** [func(error)] values that end up in the [catch] field. *)
Inductive catch_handler :=
| HCatch (u : hid)
| HFinallyCatch (oldCatch : catch_handler) (handler : fin_handler)
| HFinallyOnlyCatch (handler : fin_handler)
| HAllCatch (agg : pid)
| HRaceCatch (agg : pid)
| HAllSettledCatch (agg : pid) (idx : nat)
| HAnyCatch (agg : pid) (idx : nat).

Section Machine.

Context {T : Type} `{GoType T}.

(** What travels through [resolve]: an element, the literal empty slice
    ([[]T{}], [[]PromiseResult[T]{}]), or the slice [results] captured by
    the executor of aggregate [agg].  The last one is a reference: the
    combinators hand out the very slice their handlers keep writing to. *)
Inductive value :=
| VElem (t : T)
| VEmpty
| VResults (agg : pid).

(** [type Promise[T any] struct { mutex; then; catch; finally }].  The
    mutex is not a field of the model: the regions it guards are atomic
    steps. *)
Record Promise := {
  then_ : option then_handler;
  catch_ : option catch_handler;
  finally_ : option fin_handler
}.

(** [&Promise[T]{}] *)
Definition new_Promise : Promise :=
  {| then_ := None; catch_ := None; finally_ := None |}.

(** [type PromiseResult[T any] struct { Value T; Error error; Fulfilled bool }] *)
Record PromiseResult := {
  Value : value;
  Error : error;
  Fulfilled : bool
}.

(** The variables a combinator's executor declares and its handlers
    capture (guarded by the executor's own [mu]). *)
Inductive closure :=
| AllEnv (results : list value) (remaining : Z)
| RaceEnv (settled : bool)
| AllSettledEnv (results : list PromiseResult) (remaining : Z)
| AnyEnv (remaining : Z) (errors : list error).

(** A settlement signal: the argument of [resolve], of [reject], or the
    payload-free [finally]. *)
Inductive signal :=
| Resolved (v : value)
| Rejected (e : error)
| Finished.

(** One call of a user executor to the closures it is given. *)
Inductive action :=
| CallResolve (v : T)
| CallReject (e : error)
| CallFinally.

(** The public API, as statements of the caller.  A handler is named by
    its identity; the function values passed are not nil. *)
Inductive api :=
| CNewPromise (executor : list action)
| CThen (p : pid) (handler : hid)
| CCatch (p : pid) (handler : hid)
| CFinally (p : pid) (handler : hid)
| CAll (promises : list pid)
| CRace (promises : list pid)
| CAllSettled (promises : list pid)
| CAny (promises : list pid)
| CWaitForPromises.

(** Atomic steps of a goroutine. *)
Inductive instr :=
| ICall (op : api)                             (* a statement of the caller *)
| IResolve (p : pid) (v : value)               (* the closure [resolve] of [p] *)
| IReject (p : pid) (e : error)                (* the closure [reject] of [p] *)
| IRejectErrors (agg : pid)                    (* [reject(fmt.Errorf("...%v", errors))] in Any *)
| IFinally (p : pid)                           (* the closure [finally] of [p] *)
| IRegThen (p : pid) (h : then_handler)        (* [p.Then(h)] *)
| IRegCatch (p : pid) (h : catch_handler)      (* [p.Catch(h)] *)
| IMake (agg : pid) (env : closure)            (* local declarations of an executor *)
| IObserve (p : pid) (s : signal)              (* [p.then(value)], [p.catch(err)], [p.finally()] *)
| IDone                                        (* [wg.Done()] *)
| IUserThen (u : hid) (v : value)              (* body of a caller's func(T) *)
| IUserCatch (u : hid) (e : error)             (* body of a caller's func(error) *)
| IUserFinally (u : hid)                       (* body of a caller's func() *)
| ILockThen (h : then_handler) (v : value)     (* mu.Lock() ... mu.Unlock() of a combinator's Then closure *)
| ILockCatch (h : catch_handler) (e : error).  (* mu.Lock() ... mu.Unlock() of a combinator's Catch closure *)

(** What an outside observer can see of a run. *)
Inductive event :=
| EResolve (p : pid) (v : value)               (* resolve(v) was called on p *)
| EReject (p : pid) (e : error)                (* reject(e) was called on p *)
| EFinally (p : pid)                           (* finally() was called on p *)
| EThen (p : pid) (h : then_handler) (v : value)    (* the success-observer h of p was invoked *)
| ECatch (p : pid) (h : catch_handler) (e : error)  (* the failure-observer h of p was invoked *)
| EFin (p : pid) (h : fin_handler)             (* the completion-observer of p was invoked *)
| EUserThen (u : hid) (v : value)              (* the caller's func(T) u ran *)
| EUserCatch (u : hid) (e : error)             (* the caller's func(error) u ran *)
| EUserFinally (u : hid)                       (* the caller's func() u ran *)
| EReturned.                                   (* WaitForPromises returned *)

(** The whole program state.  [wg] is the package-level [sync.WaitGroup]
    of [sync.go]; [pool] holds the goroutines, each one the list of steps
    it still has to take (a finished goroutine keeps its slot, empty);
    [envs] holds, per aggregate, the variables of its executor;
    [panicked] records a Go runtime panic, which ends the process. *)
Record state := {
  heap : list Promise;
  wg : Z;
  pool : list (list instr);
  envs : gmap pid closure;
  trace : list event;
  panicked : bool
}.

(** ** State updates *)

Definition with_heap (h : list Promise) (s : state) : state :=
  {| heap := h; wg := wg s; pool := pool s; envs := envs s;
     trace := trace s; panicked := panicked s |}.

Definition with_wg (n : Z) (s : state) : state :=
  {| heap := heap s; wg := n; pool := pool s; envs := envs s;
     trace := trace s; panicked := panicked s |}.

Definition with_pool (g : list (list instr)) (s : state) : state :=
  {| heap := heap s; wg := wg s; pool := g; envs := envs s;
     trace := trace s; panicked := panicked s |}.

Definition with_envs (m : gmap pid closure) (s : state) : state :=
  {| heap := heap s; wg := wg s; pool := pool s; envs := m;
     trace := trace s; panicked := panicked s |}.

(** Append an event to the trace. *)
Definition emit (ev : event) (s : state) : state :=
  {| heap := heap s; wg := wg s; pool := pool s; envs := envs s;
     trace := trace s ++ [ev]; panicked := panicked s |}.

(** A runtime panic: nil dereference, call of a nil function, index out
    of range, negative WaitGroup counter. *)
Definition panic (s : state) : state :=
  {| heap := heap s; wg := wg s; pool := pool s; envs := envs s;
     trace := trace s; panicked := true |}.

(** [go f()] *)
Definition spawn (body : list instr) (s : state) : state :=
  with_pool (pool s ++ [body]) s.

(** Goroutine [i] enters a function: its body runs before the rest. *)
Definition push (i : nat) (body : list instr) (s : state) : state :=
  match pool s !! i with
  | Some k => with_pool (<[i := body ++ k]> (pool s)) s
  | None => s
  end.

(** ** sync.go *)

(** [wg.Add(1)] *)
Definition wg_Add1 (s : state) : state := with_wg (wg s + 1) s.

(** [wg.Done()]: the counter of a [sync.WaitGroup] must not go negative. *)
Definition wg_Done (s : state) : state :=
  if wg s - 1 <? 0 then panic s else with_wg (wg s - 1) s.

(** [func WaitForPromises() { wg.Wait() }]: returns once the counter is
    zero; [None] while the caller is blocked. *)
Definition WaitForPromises (s : state) : option state :=
  if wg s =? 0 then Some (emit EReturned s) else None.

(** ** The promise core *)

(** The body a goroutine runs when it calls a [func()]. *)
Definition call_fin (h : fin_handler) : list instr :=
  match h with
  | HFinally u => [IUserFinally u]
  end.

(** The body a goroutine runs when it calls a [func(T)] with [v].  The
    two closures of [Finally] are [oldThen(value); handler()] and
    [handler()]; a combinator's closure starts by taking its [mu]. *)
Fixpoint call_then (h : then_handler) (v : value) : list instr :=
  match h with
  | HThen u => [IUserThen u v]
  | HFinallyThen oldThen handler => call_then oldThen v ++ call_fin handler
  | HFinallyOnlyThen handler => call_fin handler
  | _ => [ILockThen h v]
  end.

(** The same for a [func(error)]. *)
Fixpoint call_catch (h : catch_handler) (e : error) : list instr :=
  match h with
  | HCatch u => [IUserCatch u e]
  | HFinallyCatch oldCatch handler => call_catch oldCatch e ++ call_fin handler
  | HFinallyOnlyCatch handler => call_fin handler
  | _ => [ILockCatch h e]
  end.

(** The closure [resolve] of [NewPromise]: under [p.mutex], if [p.then]
    is not nil, start the goroutine [{ p.then(value); wg.Done() }]. *)
Definition resolve (p : pid) (v : value) (s : state) : state :=
  let s := emit (EResolve p v) s in
  match heap s !! p with
  | Some pr =>
      match then_ pr with
      | Some _ => spawn [IObserve p (Resolved v); IDone] s
      | None => s
      end
  | None => panic s
  end.

(** The closure [reject]: the same against [p.catch]. *)
Definition reject (p : pid) (e : error) (s : state) : state :=
  let s := emit (EReject p e) s in
  match heap s !! p with
  | Some pr =>
      match catch_ pr with
      | Some _ => spawn [IObserve p (Rejected e); IDone] s
      | None => s
      end
  | None => panic s
  end.

(** The closure [finally]: the same against [p.finally]. *)
Definition finally (p : pid) (s : state) : state :=
  let s := emit (EFinally p) s in
  match heap s !! p with
  | Some pr =>
      match finally_ pr with
      | Some _ => spawn [IObserve p Finished; IDone] s
      | None => s
      end
  | None => panic s
  end.

(** The first statement of the goroutines started by the three closures:
    [p.then(value)], [p.catch(err)], [p.finally()].  The field is read
    when the goroutine runs, not when it was started; calling a nil
    function panics. *)
Definition observe (i : nat) (p : pid) (sg : signal) (s : state) : state :=
  match heap s !! p with
  | Some pr =>
      match sg with
      | Resolved v =>
          match then_ pr with
          | Some h => push i (call_then h v) (emit (EThen p h v) s)
          | None => panic s
          end
      | Rejected e =>
          match catch_ pr with
          | Some h => push i (call_catch h e) (emit (ECatch p h e) s)
          | None => panic s
          end
      | Finished =>
          match finally_ pr with
          | Some h => push i (call_fin h) (emit (EFin p h) s)
          | None => panic s
          end
      end
  | None => panic s
  end.

(** [func NewPromise[T any](executor contract.ExecutorFunc[T]) *Promise[T]]:
    allocate, [wg.Add(1)], [go executor(resolve, reject, finally)].  The
    executor is given as the steps it takes once it knows its promise;
    the returned pointer is the old length of the heap. *)
Definition NewPromise (executor : pid -> list instr) (s : state) : state :=
  let p := length (heap s) in
  spawn (executor p) (wg_Add1 (with_heap (heap s ++ [new_Promise]) s)).

(** The steps of a user executor. *)
Definition call_of (p : pid) (a : action) : instr :=
  match a with
  | CallResolve v => IResolve p (VElem v)
  | CallReject e => IReject p e
  | CallFinally => IFinally p
  end.

Definition user_executor (acts : list action) (p : pid) : list instr :=
  map (call_of p) acts.

(** [func (p *Promise[T]) Then(handler func(T)) *Promise[T]]; the result
    is [p] itself, so the model returns only the state. *)
Definition Then (p : pid) (handler : then_handler) (s : state) : state :=
  match heap s !! p with
  | Some pr =>
      with_heap (<[p := {| then_ := Some handler; catch_ := catch_ pr;
                           finally_ := finally_ pr |}]> (heap s)) s
  | None => panic s
  end.

(** [func (p *Promise[T]) Catch(handler func(error)) *Promise[T]] *)
Definition Catch (p : pid) (handler : catch_handler) (s : state) : state :=
  match heap s !! p with
  | Some pr =>
      with_heap (<[p := {| then_ := then_ pr; catch_ := Some handler;
                           finally_ := finally_ pr |}]> (heap s)) s
  | None => panic s
  end.

(** [func (p *Promise[T]) Finally(handler func())] *)
Definition Finally (p : pid) (handler : fin_handler) (s : state) : state :=
  match heap s !! p with
  | Some pr =>
      let oldThen := then_ pr in
      let oldCatch := catch_ pr in
      let newThen :=
        match oldThen with
        | Some oldThen => HFinallyThen oldThen handler
        | None => HFinallyOnlyThen handler
        end in
      let newCatch :=
        match oldCatch with
        | Some oldCatch => HFinallyCatch oldCatch handler
        | None => HFinallyOnlyCatch handler
        end in
      with_heap (<[p := {| then_ := Some newThen; catch_ := Some newCatch;
                           finally_ := finally_ pr |}]> (heap s)) s
  | None => panic s
  end.

(** ** static.go *)

(** [for i, p := range promises { p.Then(...).Catch(...) }] *)
Definition attach (onThen : nat -> then_handler) (onCatch : nat -> catch_handler)
    (promises : list pid) : list instr :=
  concat (imap (fun idx p => [IRegThen p (onThen idx); IRegCatch p (onCatch idx)])
               promises).

(** How [fmt] prints an error with [%v], and a [[]error]. *)
Definition error_string (e : error) : string :=
  match e with
  | Some msg => msg
  | None => "<nil>"%string
  end.

Definition fmt_errors (errors : list error) : string :=
  String.append "[" (String.append (String.concat " " (map error_string errors)) "]").

(** The region under [mu] of each closure a combinator registers.  The
    result is the new value of the captured variables and the call the
    closure makes after [mu.Unlock()], if any; [None] is a runtime panic
    (index out of range). *)

Definition All_Then (agg : pid) (idx : nat) (val : value) (env : closure)
    : option (closure * list instr) :=
  match env with
  | AllEnv results remaining =>
      if (idx <? length results)%nat then
        let results := <[idx := val]> results in
        let remaining := remaining - 1 in
        if remaining =? 0
        then Some (AllEnv results remaining, [IResolve agg (VResults agg)])
        else Some (AllEnv results remaining, [])
      else None
  | _ => None
  end.

Definition All_Catch (agg : pid) (err : error) (env : closure)
    : option (closure * list instr) :=
  match env with
  | AllEnv results remaining =>
      if remaining >? 0
      then Some (AllEnv results 0, [IReject agg err])
      else Some (AllEnv results remaining, [])
  | _ => None
  end.

Definition Race_Then (agg : pid) (val : value) (env : closure)
    : option (closure * list instr) :=
  match env with
  | RaceEnv settled =>
      if negb settled
      then Some (RaceEnv true, [IResolve agg val])
      else Some (RaceEnv settled, [])
  | _ => None
  end.

Definition Race_Catch (agg : pid) (err : error) (env : closure)
    : option (closure * list instr) :=
  match env with
  | RaceEnv settled =>
      if negb settled
      then Some (RaceEnv true, [IReject agg err])
      else Some (RaceEnv settled, [])
  | _ => None
  end.

Definition AllSettled_Then (agg : pid) (idx : nat) (val : value) (env : closure)
    : option (closure * list instr) :=
  match env with
  | AllSettledEnv results remaining =>
      if (idx <? length results)%nat then
        let results :=
          <[idx := {| Value := val; Error := None; Fulfilled := true |}]> results in
        let remaining := remaining - 1 in
        if remaining =? 0
        then Some (AllSettledEnv results remaining, [IResolve agg (VResults agg)])
        else Some (AllSettledEnv results remaining, [])
      else None
  | _ => None
  end.

Definition AllSettled_Catch (agg : pid) (idx : nat) (err : error) (env : closure)
    : option (closure * list instr) :=
  match env with
  | AllSettledEnv results remaining =>
      if (idx <? length results)%nat then
        let results :=
          <[idx := {| Value := VElem zero_value; Error := err; Fulfilled := false |}]>
            results in
        let remaining := remaining - 1 in
        if remaining =? 0
        then Some (AllSettledEnv results remaining, [IResolve agg (VResults agg)])
        else Some (AllSettledEnv results remaining, [])
      else None
  | _ => None
  end.

Definition Any_Then (agg : pid) (val : value) (env : closure)
    : option (closure * list instr) :=
  match env with
  | AnyEnv remaining errors =>
      if remaining >? 0
      then Some (AnyEnv 0 errors, [IResolve agg val])
      else Some (AnyEnv remaining errors, [])
  | _ => None
  end.

Definition Any_Catch (agg : pid) (idx : nat) (err : error) (env : closure)
    : option (closure * list instr) :=
  match env with
  | AnyEnv remaining errors =>
      if (idx <? length errors)%nat then
        let errors := <[idx := err]> errors in
        let remaining := remaining - 1 in
        if remaining =? 0
        then Some (AnyEnv remaining errors, [IRejectErrors agg])
        else Some (AnyEnv remaining errors, [])
      else None
  | _ => None
  end.

(** The aggregate a combinator's closure belongs to, and its region. *)
Definition locked_then (h : then_handler) (val : value)
    : option (pid * (closure -> option (closure * list instr))) :=
  match h with
  | HAllThen agg idx => Some (agg, All_Then agg idx val)
  | HRaceThen agg => Some (agg, Race_Then agg val)
  | HAllSettledThen agg idx => Some (agg, AllSettled_Then agg idx val)
  | HAnyThen agg => Some (agg, Any_Then agg val)
  | _ => None
  end.

Definition locked_catch (h : catch_handler) (err : error)
    : option (pid * (closure -> option (closure * list instr))) :=
  match h with
  | HAllCatch agg => Some (agg, All_Catch agg err)
  | HRaceCatch agg => Some (agg, Race_Catch agg err)
  | HAllSettledCatch agg idx => Some (agg, AllSettled_Catch agg idx err)
  | HAnyCatch agg idx => Some (agg, Any_Catch agg idx err)
  | _ => None
  end.

(** Goroutine [i] runs the region of a combinator's closure, then goes
    on with the call the region decided on. *)
Definition enter (i : nat)
    (region : option (pid * (closure -> option (closure * list instr))))
    (s : state) : state :=
  match region with
  | Some (agg, body) =>
      match envs s !! agg with
      | Some env =>
          match body env with
          | Some (env, calls) => push i calls (with_envs (<[agg := env]> (envs s)) s)
          | None => panic s
          end
      | None => panic s
      end
  | None => panic s
  end.

(** [reject(fmt.Errorf("all promises rejected: %v", errors))]: the slice
    is read when the call is made, after [mu.Unlock()]. *)
Definition reject_errors (agg : pid) (s : state) : state :=
  match envs s !! agg with
  | Some (AnyEnv _ errors) =>
      reject agg (Some (String.append "all promises rejected: " (fmt_errors errors))) s
  | _ => panic s
  end.

(** What the executors declare before they attach:
    [results := make([]T, n); remaining := n] in [All] and, with
    [PromiseResult[T]], in [AllSettled]; [var settled bool] in [Race];
    [remaining := n; errors := make([]error, n)] in [Any]. *)

Definition All_env (n : nat) : closure :=
  AllEnv (replicate n (VElem zero_value)) (Z.of_nat n).

Definition Race_env : closure := RaceEnv false.

Definition AllSettled_env (n : nat) : closure :=
  AllSettledEnv
    (replicate n {| Value := VElem zero_value; Error := None; Fulfilled := false |})
    (Z.of_nat n).

Definition Any_env (n : nat) : closure :=
  AnyEnv (Z.of_nat n) (replicate n None).

(** The executors the four combinators hand to [NewPromise]. *)

Definition All (promises : list pid) (agg : pid) : list instr :=
  if (length promises =? 0)%nat then [IResolve agg VEmpty]
  else
    IMake agg (All_env (length promises))
    :: attach (HAllThen agg) (fun _ => HAllCatch agg) promises.

Definition Race (promises : list pid) (agg : pid) : list instr :=
  if (length promises =? 0)%nat
  then [IReject agg (Some "no promises to race"%string)]
  else
    IMake agg Race_env
    :: attach (fun _ => HRaceThen agg) (fun _ => HRaceCatch agg) promises.

Definition AllSettled (promises : list pid) (agg : pid) : list instr :=
  if (length promises =? 0)%nat then [IResolve agg VEmpty]
  else
    IMake agg (AllSettled_env (length promises))
    :: attach (HAllSettledThen agg) (HAllSettledCatch agg) promises.

Definition Any (promises : list pid) (agg : pid) : list instr :=
  if (length promises =? 0)%nat
  then [IReject agg (Some "all promises rejected"%string)]
  else
    IMake agg (Any_env (length promises))
    :: attach (fun _ => HAnyThen agg) (HAnyCatch agg) promises.

(** ** The scheduler *)

(** One instruction of goroutine [i]; [None] when the goroutine is
    blocked. *)
Definition exec (i : nat) (ins : instr) (s : state) : option state :=
  match ins with
  | ICall (CNewPromise executor) => Some (NewPromise (user_executor executor) s)
  | ICall (CThen p u) => Some (Then p (HThen u) s)
  | ICall (CCatch p u) => Some (Catch p (HCatch u) s)
  | ICall (CFinally p u) => Some (Finally p (HFinally u) s)
  | ICall (CAll promises) => Some (NewPromise (All promises) s)
  | ICall (CRace promises) => Some (NewPromise (Race promises) s)
  | ICall (CAllSettled promises) => Some (NewPromise (AllSettled promises) s)
  | ICall (CAny promises) => Some (NewPromise (Any promises) s)
  | ICall CWaitForPromises => WaitForPromises s
  | IResolve p v => Some (resolve p v s)
  | IReject p e => Some (reject p e s)
  | IRejectErrors agg => Some (reject_errors agg s)
  | IFinally p => Some (finally p s)
  | IRegThen p h => Some (Then p h s)
  | IRegCatch p h => Some (Catch p h s)
  | IMake agg env => Some (with_envs (<[agg := env]> (envs s)) s)
  | IObserve p sg => Some (observe i p sg s)
  | IDone => Some (wg_Done s)
  | IUserThen u v => Some (emit (EUserThen u v) s)
  | IUserCatch u e => Some (emit (EUserCatch u e) s)
  | IUserFinally u => Some (emit (EUserFinally u) s)
  | ILockThen h v => Some (enter i (locked_then h v) s)
  | ILockCatch h e => Some (enter i (locked_catch h e) s)
  end.

(** The scheduler lets goroutine [i] take its next step.  [None]: there
    is no such goroutine, it has finished, it is blocked, or the process
    has died. *)
Definition step (i : nat) (s : state) : option state :=
  if panicked s then None
  else
    match pool s !! i with
    | Some (ins :: k) => exec i ins (with_pool (<[i := k]> (pool s)) s)
    | _ => None
    end.

(** A schedule is the list of goroutines the scheduler picks; a pick that
    cannot step leaves the state as it is. *)
Fixpoint run (sched : list nat) (s : state) : state :=
  match sched with
  | [] => s
  | i :: sched => run sched (default s (step i s))
  end.

(** The caller's program [main] is goroutine 0 of an empty process. *)
Definition start (main : list api) : state :=
  {| heap := []; wg := 0; pool := [map ICall main]; envs := ∅;
     trace := []; panicked := false |}.

(** ** Vocabulary of the properties *)

(** *** Counting events and pending steps *)

(** How many elements of a list satisfy a test. *)
Fixpoint tally {A : Type} (f : A -> bool) (l : list A) : nat :=
  match l with
  | [] => 0
  | x :: l => ((if f x then 1 else 0) + tally f l)%nat
  end.

(** The steps of a kind that the goroutines still have to take. *)
Definition pending (f : instr -> bool) (s : state) : nat :=
  tally f (concat (pool s)).

(** Events that concern promise [p]. *)
Definition is_EResolve (p : pid) (ev : event) : bool :=
  match ev with
  | EResolve q _ => Nat.eqb q p
  | _ => false
  end.

Definition is_EReject (p : pid) (ev : event) : bool :=
  match ev with
  | EReject q _ => Nat.eqb q p
  | _ => false
  end.

Definition is_EThen (p : pid) (ev : event) : bool :=
  match ev with
  | EThen q _ _ => Nat.eqb q p
  | _ => false
  end.

Definition is_ECatch (p : pid) (ev : event) : bool :=
  match ev with
  | ECatch q _ _ => Nat.eqb q p
  | _ => false
  end.

(** The completion-observer of some promise was invoked. *)
Definition is_EFin (ev : event) : bool :=
  match ev with
  | EFin _ _ => true
  | _ => false
  end.

(** [WaitForPromises] has returned. *)
Definition is_EReturned (ev : event) : bool :=
  match ev with
  | EReturned => true
  | _ => false
  end.

(** The caller's [func()] [u] ran. *)
Definition is_EUserFinally (u : hid) (ev : event) : bool :=
  match ev with
  | EUserFinally u' => Nat.eqb u' u
  | _ => false
  end.

(** The first statement of a goroutine started by a settlement call. *)
Definition is_IObserve (ins : instr) : bool :=
  match ins with
  | IObserve _ _ => true
  | _ => false
  end.

(** A started goroutine that has yet to call [p.then] (resp. [p.catch]). *)
Definition owes_then (p : pid) (ins : instr) : bool :=
  match ins with
  | IObserve q (Resolved _) => Nat.eqb q p
  | _ => false
  end.

Definition owes_catch (p : pid) (ins : instr) : bool :=
  match ins with
  | IObserve q (Rejected _) => Nat.eqb q p
  | _ => false
  end.

(** *** What goroutines are made of *)

(** The statements function bodies are made of: calls of the closures of
    [NewPromise], user code, regions of combinator closures. *)
Definition in_body (ins : instr) : bool :=
  match ins with
  | IResolve _ _ | IReject _ _ | IRejectErrors _ | IFinally _
  | IUserThen _ _ | IUserCatch _ _ | IUserFinally _
  | ILockThen _ _ | ILockCatch _ _ => true
  | _ => false
  end.

(** The statements executors are made of: those of function bodies,
    local declarations, and registrations on the inputs. *)
Definition in_executor (promises : list pid) (ins : instr) : Prop :=
  match ins with
  | IRegThen q _ | IRegCatch q _ => q ∈ promises
  | IMake _ _ => True
  | _ => in_body ins = true
  end.

(** A statement that assigns an observer of [p], or makes a goroutine
    that will. *)
Definition touches (p : pid) (ins : instr) : bool :=
  match ins with
  | IRegThen q _ | IRegCatch q _ => Nat.eqb q p
  | ICall (CThen q _) | ICall (CCatch q _) | ICall (CFinally q _) => Nat.eqb q p
  | ICall (CAll promises) | ICall (CRace promises)
  | ICall (CAllSettled promises) | ICall (CAny promises) =>
      bool_decide (p ∈ promises)
  | _ => false
  end.

(** *** Invariants *)

(** No promise has a completion-observer, and none was ever invoked. *)
Definition finally_nil (s : state) : Prop :=
  Forall (fun pr => finally_ pr = None) (heap s)
  /\ Forall (fun ev => is_EFin ev = false) (trace s).

(** Observer invocations of [p] never outnumber the calls that asked for
    them, counting the goroutines already started. *)
Definition then_owed (p : pid) (s : state) : Prop :=
  (tally (is_EThen p) (trace s) + pending (owes_then p) s
   <= tally (is_EResolve p) (trace s))%nat.

Definition catch_owed (p : pid) (s : state) : Prop :=
  (tally (is_ECatch p) (trace s) + pending (owes_catch p) s
   <= tally (is_EReject p) (trace s))%nat.

(** The observers invoked on [p] are those the promise [pr] holds. *)
Definition from_slots (p : pid) (pr : Promise) (ev : event) : Prop :=
  match ev with
  | EThen q h _ => q = p -> then_ pr = Some h
  | ECatch q h _ => q = p -> catch_ pr = Some h
  | _ => True
  end.

(** From the trace [tr] on, nobody has assigned an observer of [p], nobody
    is going to, and the observers invoked on [p] are those of [pr]. *)
Definition slots_frozen (p : pid) (pr : Promise) (tr : list event) (s : state) : Prop :=
  heap s !! p = Some pr
  /\ pending (touches p) s = 0%nat
  /\ exists evs, trace s = tr ++ evs /\ Forall (from_slots p pr) evs.

(** *** Two programs of a caller *)

(** The caller creates a promise whose executor rejects, attaches
    success-observers only (any number of them), and waits. *)
Definition reject_uncaught (e : error) (hs : list hid) (rest : list api) : list api :=
  CNewPromise [CallReject e] :: map (CThen 0) hs ++ CWaitForPromises :: rest.

(** The states that program can be in once the promise exists: the
    counter is 1, the promise has no failure-observer, the caller is
    still attaching or is at [WaitForPromises], the executor has
    rejected or not. *)
Definition stuck_waiting (e : error) (rest : list api) (s : state) : Prop :=
  wg s = 1 /\ panicked s = false
  /\ (exists pr, heap s = [pr] /\ catch_ pr = None)
  /\ (exists hs executor,
        pool s = [map ICall (map (CThen 0) hs ++ CWaitForPromises :: rest); executor]
        /\ (executor = [IReject 0 e] \/ executor = [])).

(** The caller creates a promise, calls [Finally(f)] and only then
    [Then(h)]. *)
Definition Finally_before_Then (v : T) (f h : hid) : list api :=
  [CNewPromise [CallResolve v]; CFinally 0 f; CThen 0 h].

(** *** Settlements reaching a combinator *)

(** The settlement of input [idx] reaches the closure the combinator
    attached to it: the goroutine started by the input's [resolve] or
    [reject] calls the closure, which runs its region under [mu]. *)
Inductive delivery :=
| Fulfil (idx : nat) (val : value)
| Fail (idx : nat) (err : error).

Definition delivery_idx (d : delivery) : nat :=
  match d with
  | Fulfil idx _ => idx
  | Fail idx _ => idx
  end.

Definition is_Fulfil (d : delivery) : bool :=
  match d with
  | Fulfil _ _ => true
  | Fail _ _ => false
  end.

(** The region a delivery runs, given the closures that were attached. *)
Definition region_of (onThen : nat -> then_handler) (onCatch : nat -> catch_handler)
    (d : delivery) (env : closure) : option (closure * list instr) :=
  match d with
  | Fulfil idx val =>
      match locked_then (onThen idx) val with
      | Some (_, body) => body env
      | None => None
      end
  | Fail idx err =>
      match locked_catch (onCatch idx) err with
      | Some (_, body) => body env
      | None => None
      end
  end.

(** The step a goroutine takes when it calls the closure attached for a
    delivery. *)
Definition closure_call (onThen : nat -> then_handler) (onCatch : nat -> catch_handler)
    (d : delivery) : instr :=
  match d with
  | Fulfil idx val => ILockThen (onThen idx) val
  | Fail idx err => ILockCatch (onCatch idx) err
  end.

(** The regions of a sequence of deliveries, in the order in which they
    take [mu]: the captured variables at the end, and the calls the
    closures make on the aggregate, in order. *)
Fixpoint feed (region : delivery -> closure -> option (closure * list instr))
    (ds : list delivery) (env : closure) : option (closure * list instr) :=
  match ds with
  | [] => Some (env, [])
  | d :: ds =>
      match region d env with
      | Some (env, calls) =>
          match feed region ds env with
          | Some (env', calls') => Some (env', calls ++ calls')
          | None => None
          end
      | None => None
      end
  end.

Definition All_region (agg : pid) : delivery -> closure -> option (closure * list instr) :=
  region_of (HAllThen agg) (fun _ => HAllCatch agg).

Definition AllSettled_region (agg : pid)
    : delivery -> closure -> option (closure * list instr) :=
  region_of (HAllSettledThen agg) (HAllSettledCatch agg).

Definition Any_region (agg : pid) : delivery -> closure -> option (closure * list instr) :=
  region_of (fun _ => HAnyThen agg) (HAnyCatch agg).

(** Each of the [n] inputs delivers at most one settlement. *)
Definition delivered_once (n : nat) (ds : list delivery) : Prop :=
  Forall (fun d => (delivery_idx d < n)%nat) ds /\ NoDup (delivery_idx <$> ds).


Definition every_input_fails (n : nat) (ds : list delivery) : Prop :=
  forall i, (i < n)%nat -> exists e, Fail i e ∈ ds.



Definition settled_entry (d : delivery) : PromiseResult :=
  match d with
  | Fulfil _ val => {| Value := val; Error := None; Fulfilled := true |}
  | Fail _ err => {| Value := VElem zero_value; Error := err; Fulfilled := false |}
  end.

Definition AllSettled_writes (ds : list delivery) (results : list PromiseResult)
    : list PromiseResult :=
  foldl (fun results d => <[delivery_idx d := settled_entry d]> results) results ds.

Definition Any_writes (ds : list delivery) (errors : list error) : list error :=
  foldl (fun errors d =>
           match d with
           | Fulfil _ _ => errors
           | Fail idx err => <[idx := err]> errors
           end) errors ds.

(** ** Further vocabulary *)

(** *** Race *)

Definition Race_region (agg : pid) : delivery -> closure -> option (closure * list instr) :=
  region_of (fun _ => HRaceThen agg) (fun _ => HRaceCatch agg).

(** The call on the aggregate that passes a delivery on as it is. *)
Definition pass_on (agg : pid) (d : delivery) : instr :=
  match d with
  | Fulfil _ val => IResolve agg val
  | Fail _ err => IReject agg err
  end.

(** *** The completion tracker *)

Definition is_IDone (ins : instr) : bool :=
  match ins with
  | IDone => true
  | _ => false
  end.

(** An observer of some promise was invoked. *)
Definition is_invocation (ev : event) : bool :=
  match ev with
  | EThen _ _ _ | ECatch _ _ _ | EFin _ _ => true
  | _ => false
  end.

(** The goroutines started by [resolve], [reject] and [finally] so far:
    those that have invoked their observer and those that have yet to. *)
Definition started (s : state) : nat :=
  (tally is_invocation (trace s) + pending is_IObserve s)%nat.

(** Those of them that have called [wg.Done()]. *)
Definition finished (s : state) : Z :=
  Z.of_nat (started s) - Z.of_nat (pending is_IDone s).

(** The counter is between zero and the number of promises, and, unless
    the process has panicked, it is the number of promises minus the
    number of finished observer goroutines. *)
Definition wg_accounted (s : state) : Prop :=
  0 <= wg s <= Z.of_nat (length (heap s))
  /\ (panicked s = false -> wg s = Z.of_nat (length (heap s)) - finished s).

(** *** Programs of a caller *)

(** The caller creates a promise whose executor makes one call, attaches
    both observers, and then calls [Finally]. *)
Definition observers_then_Finally (a : action) (h c f : hid) : list api :=
  [CNewPromise [a]; CThen 0 h; CCatch 0 c; CFinally 0 f].

(** What happens in that program once the caller is through, in order. *)
Definition Finally_outcome (a : action) (h c f : hid) : list event :=
  match a with
  | CallResolve v =>
      [EResolve 0 (VElem v);
       EThen 0 (HFinallyThen (HThen h) (HFinally f)) (VElem v);
       EUserThen h (VElem v); EUserFinally f]
  | CallReject e =>
      [EReject 0 e;
       ECatch 0 (HFinallyCatch (HCatch c) (HFinally f)) e;
       EUserCatch c e; EUserFinally f]
  | CallFinally => [EFinally 0]
  end.

(** The states of that program after the caller's four statements, in
    the order the remaining goroutines go through them. *)
Definition observers_then_Finally_stage (a : action) (h c f : hid) (k : nat) : state :=
  let pr := {| then_ := Some (HFinallyThen (HThen h) (HFinally f));
               catch_ := Some (HFinallyCatch (HCatch c) (HFinally f));
               finally_ := None |} in
  let st w g :=
    {| heap := [pr]; wg := w; pool := g; envs := ∅;
       trace := take k (Finally_outcome a h c f); panicked := false |} in
  match a, k with
  | _, 0%nat => st 1 [[]; user_executor [a] 0]
  | CallResolve v, 1%nat => st 1 [[]; []; [IObserve 0 (Resolved (VElem v)); IDone]]
  | CallResolve v, 2%nat =>
      st 1 [[]; []; [IUserThen h (VElem v); IUserFinally f; IDone]]
  | CallReject e, 1%nat => st 1 [[]; []; [IObserve 0 (Rejected e); IDone]]
  | CallReject e, 2%nat => st 1 [[]; []; [IUserCatch c e; IUserFinally f; IDone]]
  | CallFinally, _ => st 1 [[]; []]
  | _, 3%nat => st 1 [[]; []; [IUserFinally f; IDone]]
  | _, 4%nat => st 1 [[]; []; [IDone]]
  | _, _ => st 0 [[]; []; []]
  end.

(** The caller creates a promise whose executor resolves, attaches a
    success-observer, and waits. *)
Definition Then_and_wait (v : T) (h : hid) : list api :=
  [CNewPromise [CallResolve v]; CThen 0 h; CWaitForPromises].

(** What has happened in that program when [WaitForPromises] returns. *)
Definition Then_and_wait_outcome (v : T) (h : hid) : list event :=
  [EResolve 0 (VElem v); EThen 0 (HThen h) (VElem v); EUserThen h (VElem v); EReturned].

(** The states that program can be in.  The executor may call [resolve]
    before the caller has attached (stages 2 and 4: the settlement is
    lost) or after (stages 5 to 9). *)
Definition Then_and_wait_stage (v : T) (h : hid) (k : nat) : state :=
  let pr := {| then_ := Some (HThen h); catch_ := None; finally_ := None |} in
  let st hp w g tr :=
    {| heap := hp; wg := w; pool := g; envs := ∅; trace := tr; panicked := false |} in
  let attach_wait := [ICall (CThen 0 h); ICall CWaitForPromises] in
  let wait := [ICall CWaitForPromises] in
  match k with
  | 0%nat => start (Then_and_wait v h)
  | 1%nat => st [new_Promise] 1 [attach_wait; [IResolve 0 (VElem v)]] []
  | 2%nat => st [new_Promise] 1 [attach_wait; []] [EResolve 0 (VElem v)]
  | 3%nat => st [pr] 1 [wait; [IResolve 0 (VElem v)]] []
  | 4%nat => st [pr] 1 [wait; []] [EResolve 0 (VElem v)]
  | 5%nat => st [pr] 1 [wait; []; [IObserve 0 (Resolved (VElem v)); IDone]]
               (take 1 (Then_and_wait_outcome v h))
  | 6%nat => st [pr] 1 [wait; []; [IUserThen h (VElem v); IDone]]
               (take 2 (Then_and_wait_outcome v h))
  | 7%nat => st [pr] 1 [wait; []; [IDone]] (take 3 (Then_and_wait_outcome v h))
  | 8%nat => st [pr] 0 [wait; []; []] (take 3 (Then_and_wait_outcome v h))
  | _ => st [pr] 0 [[]; []; []] (Then_and_wait_outcome v h)
  end.


(** *** Programs that keep the executor contract *)

(** The contract of [ExecutorFunc]: an executor calls at most one of the
    closures it is given, at most once. *)
Definition abides (op : api) : bool :=
  match op with
  | CNewPromise executor => (length executor <=? 1)%nat
  | _ => true
  end.

(** The promises a statement of the caller dereferences. *)
Definition uses (op : api) : list pid :=
  match op with
  | CNewPromise _ | CWaitForPromises => []
  | CThen p _ | CCatch p _ | CFinally p _ => [p]
  | CAll promises | CRace promises | CAllSettled promises | CAny promises => promises
  end.

(** The statements that go through [NewPromise]. *)
Definition allocates (ins : instr) : bool :=
  match ins with
  | ICall (CNewPromise _) | ICall (CAll _) | ICall (CRace _)
  | ICall (CAllSettled _) | ICall (CAny _) => true
  | _ => false
  end.

(** With [n] promises created so far, the caller's program only uses
    promises it has created. *)
Fixpoint allocated (n : nat) (main : list api) : bool :=
  match main with
  | [] => true
  | op :: main =>
      forallb (fun p => p <? n)%nat (uses op)
      && allocated (if allocates (ICall op) then S n else n) main
  end.

Definition well_behaved (main : list api) : bool :=
  forallb abides main && allocated 0 main.

(** A closure of a combinator and the variables it captured belong
    together: the variables are those of its combinator, and its index
    is within the slice. *)
Definition fits_then (h : then_handler) (env : closure) : bool :=
  match h, env with
  | HAllThen _ idx, AllEnv results _ => (idx <? length results)%nat
  | HRaceThen _, RaceEnv _ => true
  | HAllSettledThen _ idx, AllSettledEnv results _ => (idx <? length results)%nat
  | HAnyThen _, AnyEnv _ _ => true
  | _, _ => false
  end.

Definition fits_catch (h : catch_handler) (env : closure) : bool :=
  match h, env with
  | HAllCatch _, AllEnv _ _ => true
  | HRaceCatch _, RaceEnv _ => true
  | HAllSettledCatch _ idx, AllSettledEnv results _ => (idx <? length results)%nat
  | HAnyCatch _ idx, AnyEnv _ errors => (idx <? length errors)%nat
  | _, _ => false
  end.

(** A function value that can be called with [n] promises created and
    the captured variables [m] declared: a caller's function, a closure
    of [Finally] around one, or a closure of a combinator whose variables
    are there. *)
Fixpoint then_ok (n : nat) (m : gmap pid closure) (h : then_handler) : Prop :=
  match h with
  | HThen _ | HFinallyOnlyThen _ => True
  | HFinallyThen oldThen _ => then_ok n m oldThen
  | HAllThen agg _ | HRaceThen agg | HAllSettledThen agg _ | HAnyThen agg =>
      (agg < n)%nat
      /\ match m !! agg with
         | Some env => fits_then h env = true
         | None => False
         end
  end.

Fixpoint catch_ok (n : nat) (m : gmap pid closure) (h : catch_handler) : Prop :=
  match h with
  | HCatch _ | HFinallyOnlyCatch _ => True
  | HFinallyCatch oldCatch _ => catch_ok n m oldCatch
  | HAllCatch agg | HRaceCatch agg | HAllSettledCatch agg _ | HAnyCatch agg _ =>
      (agg < n)%nat
      /\ match m !! agg with
         | Some env => fits_catch h env = true
         | None => False
         end
  end.

(** The field a settlement signal is delivered to is not nil. *)
Definition slot_set (hp : list Promise) (p : pid) (sg : signal) : Prop :=
  match hp !! p with
  | Some pr =>
      match sg with
      | Resolved _ => is_Some (then_ pr)
      | Rejected _ => is_Some (catch_ pr)
      | Finished => is_Some (finally_ pr)
      end
  | None => False
  end.

(** A step that cannot panic in a process with the promises [hp], of
    which the goroutine knows the first [n], and the captured variables
    [m]. *)
Definition instr_ok (hp : list Promise) (n : nat) (m : gmap pid closure)
    (ins : instr) : Prop :=
  match ins with
  | ICall op => abides op = true /\ Forall (fun p => (p < n)%nat) (uses op)
  | IResolve p _ | IReject p _ | IFinally p => (p < n)%nat
  | IRejectErrors agg =>
      (agg < n)%nat
      /\ match m !! agg with
         | Some (AnyEnv _ _) => True
         | _ => False
         end
  | IRegThen p h => (p < n)%nat /\ then_ok n m h
  | IRegCatch p h => (p < n)%nat /\ catch_ok n m h
  | IMake agg _ => (agg < n)%nat
  | IObserve p sg => slot_set hp p sg
  | IDone | IUserThen _ _ | IUserCatch _ _ | IUserFinally _ => True
  | ILockThen h v => then_ok n m h /\ is_Some (locked_then h v)
  | ILockCatch h e => catch_ok n m h /\ is_Some (locked_catch h e)
  end.

(** What a step of the goroutine itself adds to what it knows: the
    promise it creates, the variables it declares. *)
Definition declares (ins : instr) (m : gmap pid closure) : gmap pid closure :=
  match ins with
  | IMake agg env => <[agg := env]> m
  | _ => m
  end.

(** A goroutine all of whose steps are fine when it gets to them. *)
Fixpoint safe_thread (hp : list Promise) (n : nat) (m : gmap pid closure)
    (t : list instr) : Prop :=
  match t with
  | [] => True
  | ins :: t =>
      instr_ok hp n m ins
      /\ safe_thread hp (if allocates ins then S n else n) (declares ins m) t
  end.

(** The captured variables of a combinator can still make it call
    [resolve] or [reject] on its aggregate. *)
Definition unspent (env : closure) : bool :=
  match env with
  | AllEnv _ remaining | AllSettledEnv _ remaining | AnyEnv remaining _ => 0 <? remaining
  | RaceEnv settled => negb settled
  end.

(** Whether promise [p] is such an aggregate, and how many of the first
    [n] promises are. *)
Definition live_at (m : gmap pid closure) (p : pid) : nat :=
  if from_option unspent false (m !! p) then 1 else 0.

Fixpoint live_below (m : gmap pid closure) (n : nat) : nat :=
  match n with
  | O => 0
  | S n => (live_below m n + live_at m n)%nat
  end.

(** A call of one of the three closures of [NewPromise]. *)
Definition is_call (ins : instr) : bool :=
  match ins with
  | IResolve _ _ | IReject _ _ | IRejectErrors _ | IFinally _ => true
  | _ => false
  end.

Definition is_call_event (ev : event) : bool :=
  match ev with
  | EResolve _ _ | EReject _ _ | EFinally _ => true
  | _ => false
  end.

Definition is_IMake (ins : instr) : bool :=
  match ins with
  | IMake _ _ => true
  | _ => false
  end.

(** The declaration of the variables of aggregate [agg]. *)
Definition makes (agg : pid) (ins : instr) : bool :=
  match ins with
  | IMake a _ => Nat.eqb a agg
  | _ => false
  end.

(** *** The invariants of a program that keeps the contract *)

Definition threads_safe (s : state) : Prop :=
  Forall (safe_thread (heap s) (length (heap s)) (envs s)) (pool s).

(** The observers of a promise can be called. *)
Definition observers_ok (n : nat) (m : gmap pid closure) (pr : Promise) : Prop :=
  from_option (then_ok n m) True (then_ pr)
  /\ from_option (catch_ok n m) True (catch_ pr).

Definition slots_safe (s : state) : Prop :=
  Forall (observers_ok (length (heap s)) (envs s)) (heap s).

(** The variables of an aggregate are declared once, and only for
    promises that exist. *)
Definition made_once (s : state) : Prop :=
  forall agg,
    (pending (makes agg) s + match envs s !! agg with Some _ => 1 | None => 0 end
     <= 1)%nat
    /\ ((length (heap s) <= agg)%nat ->
        pending (makes agg) s = 0%nat /\ envs s !! agg = None).

(** There is at most one settlement call per promise, counting the calls
    made, those about to be made, and the aggregates that can still make
    one; and no observer goroutine without a call. *)
Definition within_budget (s : state) : Prop :=
  (tally is_call_event (trace s) + pending is_call s
   + live_below (envs s) (length (heap s)) + pending is_IMake s
   <= length (heap s))%nat
  /\ (started s <= tally is_call_event (trace s))%nat.

Definition contract_kept (s : state) : Prop :=
  panicked s = false /\ threads_safe s /\ slots_safe s /\ made_once s
  /\ within_budget s /\ wg_accounted s.

(** Promises only come into being, and their observers are only
    replaced. *)
Definition heap_grows (hp hp' : list Promise) : Prop :=
  (length hp <= length hp')%nat
  /\ forall p sg, slot_set hp p sg -> slot_set hp' p sg.

(** Captured variables keep their combinator and the length of their
    slice. *)
Definition same_shape (env env' : closure) : bool :=
  match env, env' with
  | AllEnv results _, AllEnv results' _ => (length results =? length results')%nat
  | RaceEnv _, RaceEnv _ => true
  | AllSettledEnv results _, AllSettledEnv results' _ =>
      (length results =? length results')%nat
  | AnyEnv _ errors, AnyEnv _ errors' => (length errors =? length errors')%nat
  | _, _ => false
  end.

Definition envs_grow (m m' : gmap pid closure) : Prop :=
  forall agg env,
    m !! agg = Some env ->
    match m' !! agg with
    | Some env' => same_shape env env' = true
    | None => False
    end.

(** *** Settling once *)

(** A call of [resolve], [reject] or [finally] on promise [p]: made, and
    about to be made. *)
Definition settles (p : pid) (ev : event) : bool :=
  match ev with
  | EResolve q _ | EReject q _ | EFinally q => Nat.eqb q p
  | _ => false
  end.

Definition calls_on (p : pid) (ins : instr) : bool :=
  match ins with
  | IResolve q _ | IReject q _ | IRejectErrors q | IFinally q => Nat.eqb q p
  | _ => false
  end.

(** Promise [p] is settled at most once, counting the calls made, the
    calls about to be made, and, for an aggregate, the call its closures
    can still make. *)
Definition settled_once (p : pid) (s : state) : Prop :=
  (tally (settles p) (trace s) + pending (calls_on p) s + live_at (envs s) p
   + pending (makes p) s <= 1)%nat
  /\ ((length (heap s) <= p)%nat ->
      tally (settles p) (trace s) = 0%nat /\ pending (calls_on p) s = 0%nat).

(** ** Vocabulary of settlements nobody hears, of the error of Any, and of Then *)

(** *** Settlement calls nobody hears *)

(** A call of [resolve], [reject] or [finally] on a promise whose field
    the call reads is nil. *)
Definition unheard (hp : list Promise) (ins : instr) : Prop :=
  match ins with
  | IResolve p _ => then_ <$> hp !! p = Some None
  | IReject p _ | IRejectErrors p => catch_ <$> hp !! p = Some None
  | IFinally p => finally_ <$> hp !! p = Some None
  | _ => False
  end.

(** Some settlement call has started no observer goroutine. *)
Definition call_unanswered (s : state) : Prop :=
  (started s < tally is_call_event (trace s))%nat.

(** *** The error of Any *)

(** The text [needle] occurs in the text [hay]. *)
Definition occurs_in (needle hay : string) : Prop :=
  exists pre post, hay = String.append pre (String.append needle post).

(** *** Then, and Finally before Then *)

(** [Then] with its result: the method ends with [return p]. *)
Definition Then_returning (p : pid) (handler : then_handler) (s : state) : pid * state :=
  (p, Then p handler s).

(** How far the goroutine started by [resolve] has got: it has yet to
    read the [then] field; it has read it and is to run the body of what
    it found (the closure of [Finally] if [wrapped], the handler given to
    [Then] otherwise); it is to call [wg.Done()]; it has finished. *)
Inductive hearing :=
| Unread
| Entered (wrapped : bool)
| Leaving (wrapped : bool)
| Left (wrapped : bool).

(** How far the one settlement of the promise has got: [resolve] has
    not been called; it was called while the [then] field was nil; it
    was called and has started a goroutine. *)
Inductive settlement :=
| Uncalled
| Dropped
| Answered (g : hearing).

(** The state of the program [Finally_before_Then] when the caller has
    executed [c] of its statements and the settlement has got to [x]. *)
Definition Finally_before_Then_state (v : T) (f h : hid) (c : nat) (x : settlement)
    : state :=
  let wrapper := HFinallyOnlyThen (HFinally f) in
  let observer (w : bool) := if w then wrapper else HThen h in
  let body (w : bool) := if w then IUserFinally f else IUserThen h (VElem v) in
  let ran (w : bool) := if w then EUserFinally f else EUserThen h (VElem v) in
  let hp :=
    match c with
    | 0%nat => []
    | 1%nat => [new_Promise]
    | 2%nat => [{| then_ := Some wrapper;
                   catch_ := Some (HFinallyOnlyCatch (HFinally f));
                   finally_ := None |}]
    | _ => [{| then_ := Some (HThen h);
               catch_ := Some (HFinallyOnlyCatch (HFinally f));
               finally_ := None |}]
    end in
  let main := map ICall (drop c (Finally_before_Then v f h)) in
  let st w g tr :=
    {| heap := hp; wg := w; pool := g; envs := ∅; trace := tr; panicked := false |} in
  match c with
  | 0%nat => start (Finally_before_Then v f h)
  | _ =>
      match x with
      | Uncalled => st 1 [main; [IResolve 0 (VElem v)]] []
      | Dropped => st 1 [main; []] [EResolve 0 (VElem v)]
      | Answered Unread =>
          st 1 [main; []; [IObserve 0 (Resolved (VElem v)); IDone]]
            [EResolve 0 (VElem v)]
      | Answered (Entered w) =>
          st 1 [main; []; [body w; IDone]]
            [EResolve 0 (VElem v); EThen 0 (observer w) (VElem v)]
      | Answered (Leaving w) =>
          st 1 [main; []; [IDone]]
            [EResolve 0 (VElem v); EThen 0 (observer w) (VElem v); ran w]
      | Answered (Left w) =>
          st 0 [main; []; []]
            [EResolve 0 (VElem v); EThen 0 (observer w) (VElem v); ran w]
      end
  end.

(** The goroutine found the closure of [Finally] in the field. *)
Definition wrapped_hearing (x : settlement) : bool :=
  match x with
  | Answered (Entered w) | Answered (Leaving w) | Answered (Left w) => w
  | _ => false
  end.

(** The combinations that occur: a goroutine is started only once
    [Finally] has run, and finds [h] only once [Then] has. *)
Definition Finally_before_Then_occurs (c : nat) (x : settlement) : bool :=
  (c <=? 3)%nat
  && match x with
     | Uncalled => true
     | Dropped => (1 <=? c)%nat
     | Answered Unread => (2 <=? c)%nat
     | Answered (Entered w) | Answered (Leaving w) | Answered (Left w) =>
         if w then (2 <=? c)%nat else (3 <=? c)%nat
     end.

(** What can have happened in that program: the success-observer invoked
    is the handler of [Then], or the closure of [Finally]. *)
Definition Then_outcome (v : T) (h : hid) : list event :=
  [EResolve 0 (VElem v); EThen 0 (HThen h) (VElem v); EUserThen h (VElem v)].

Definition Finally_only_outcome (v : T) (f : hid) : list event :=
  [EResolve 0 (VElem v); EThen 0 (HFinallyOnlyThen (HFinally f)) (VElem v);
   EUserFinally f].
(** ** Runs and invariants *)

Lemma run_app (sched1 sched2 : list nat) (s : state) :
  run (sched1 ++ sched2) s = run sched2 (run sched1 s).
Proof.
  revert s. induction sched1 as [|i sched1 IH]; intros s; simpl; [done|].
  apply IH.
Qed.

(** A property kept by every step holds along every schedule. *)
Lemma run_invariant (P : state -> Prop) :
  (forall i s s', P s -> step i s = Some s' -> P s') ->
  forall sched s, P s -> P (run sched s).
Proof.
  intros Hstep sched.
  induction sched as [|i sched IH]; intros s Hs; simpl; [done|].
  apply IH. destruct (step i s) as [s'|] eqn:E; simpl; eauto.
Qed.

(** A step is the execution of the head instruction of a live goroutine. *)
Lemma step_inv (i : nat) (s s' : state) :
  step i s = Some s' ->
  exists ins k,
    panicked s = false /\ pool s !! i = Some (ins :: k)
    /\ exec i ins (with_pool (<[i := k]> (pool s)) s) = Some s'.
Proof.
  unfold step. destruct (panicked s); [done|].
  destruct (pool s !! i) as [[|ins k]|]; try done.
  intros He. by exists ins, k.
Qed.

Ltac unfold_ops :=
  unfold exec, NewPromise, Then, Catch, Finally, reject_errors, resolve, reject,
    finally, observe, enter, wg_Done, WaitForPromises, spawn, push, emit, panic,
    with_heap, with_wg, with_pool, with_envs, wg_Add1 in *.

(** ** The completion-observer field *)

Lemma step_finally_nil (i : nat) (s s' : state) :
  finally_nil s -> step i s = Some s' -> finally_nil s'.
Proof.
  intros [Hh Ht] (ins & k & _ & _ & He)%step_inv.
  assert (Hl : forall p pr, heap s !! p = Some pr -> finally_ pr = None).
  { intros p pr Hp. apply (Forall_lookup_1 _ _ _ _ Hh Hp). }
  destruct ins as [[]| | | | | | | |? []| | | | | |]; unfold_ops; simpl in *;
    repeat case_match; simplify_eq/=; split; simpl;
    repeat first [ done | apply Forall_app_2 | apply Forall_insert
                 | apply Forall_cons_2 | apply Forall_nil_2 | eauto ].
  all: try (simpl; eapply Hl; eassumption).
  all: exfalso;
    match goal with
    | Hx : heap _ !! _ = Some ?pr, Hy : finally_ ?pr = Some _ |- _ =>
        rewrite (Hl _ _ Hx) in Hy; done
    end.
Qed.

(** C9.  In every state a caller's program can reach under any schedule,
    the [finally] field of every promise is nil and no completion-observer
    has ever been invoked; hence a call of the executor's [finally]
    closure starts no goroutine and leaves the WaitGroup counter and the
    promises as they are. *)
Theorem finally_field_always_nil (main : list api) (sched : list nat) :
  let s := run sched (start main) in
  Forall (fun pr => finally_ pr = None) (heap s)
  /\ Forall (fun ev => is_EFin ev = false) (trace s)
  /\ forall p, pool (finally p s) = pool s
               /\ wg (finally p s) = wg s
               /\ heap (finally p s) = heap s.
Proof.
  intros s.
  assert (Hs : finally_nil s).
  { apply run_invariant; [apply step_finally_nil|].
    split; simpl; constructor. }
  destruct Hs as [Hh Ht]. split; [done|]. split; [done|].
  intros p. unfold finally. simpl.
  destruct (heap s !! p) as [pr|] eqn:Hp; [|done].
  by rewrite (Forall_lookup_1 _ _ _ _ Hh Hp).
Qed.

(** ** Counting *)

Lemma tally_app {A : Type} (f : A -> bool) (l1 l2 : list A) :
  tally f (l1 ++ l2) = (tally f l1 + tally f l2)%nat.
Proof. induction l1 as [|x l1 IH]; simpl; [done|]. rewrite IH. lia. Qed.

Lemma tally_le {A : Type} (f g : A -> bool) (l : list A) :
  (forall x, f x = true -> g x = true) -> (tally f l <= tally g l)%nat.
Proof.
  intros Hfg. induction l as [|x l IH]; simpl; [done|].
  specialize (Hfg x). destruct (f x), (g x); lia.
Qed.

Lemma tally_concat_insert {A : Type} (f : A -> bool) (g : list (list A))
    (i : nat) (t t' : list A) :
  g !! i = Some t ->
  (tally f (concat (<[i := t']> g)) + tally f t
   = tally f (concat g) + tally f t')%nat.
Proof.
  revert i. induction g as [|x g IH]; intros [|i] Hi; simplify_eq/=.
  - rewrite !tally_app. lia.
  - rewrite !tally_app. specialize (IH _ Hi). lia.
Qed.

Lemma tally_zero {A : Type} (f : A -> bool) (P : A -> Prop) (l : list A) :
  (forall x, P x -> f x = false) -> Forall P l -> tally f l = 0%nat.
Proof.
  intros Hf. induction 1 as [|x l Hx _ IH]; simpl; [done|].
  by rewrite (Hf x Hx), IH.
Qed.

(** What function bodies and executors are made of. *)

Lemma call_fin_body h : Forall (fun ins => in_body ins = true) (call_fin h).
Proof. destruct h. by repeat constructor. Qed.

Lemma call_then_body h v : Forall (fun ins => in_body ins = true) (call_then h v).
Proof.
  induction h as [| ? IH ?| ?| | | |]; simpl; try by repeat constructor.
  - apply Forall_app. split; [done|apply call_fin_body].
  - apply call_fin_body.
Qed.

Lemma call_catch_body h e : Forall (fun ins => in_body ins = true) (call_catch h e).
Proof.
  induction h as [| ? IH ?| ?| | | |]; simpl; try by repeat constructor.
  - apply Forall_app. split; [done|apply call_fin_body].
  - apply call_fin_body.
Qed.

Lemma locked_then_body h v agg body env env' calls :
  locked_then h v = Some (agg, body) -> body env = Some (env', calls) ->
  Forall (fun ins => in_body ins = true) calls.
Proof.
  destruct h; intros; simplify_eq/=;
    unfold All_Then, Race_Then, AllSettled_Then, Any_Then in *;
    repeat case_match; simplify_eq/=; by repeat constructor.
Qed.

Lemma locked_catch_body h e agg body env env' calls :
  locked_catch h e = Some (agg, body) -> body env = Some (env', calls) ->
  Forall (fun ins => in_body ins = true) calls.
Proof.
  destruct h; intros; simplify_eq/=;
    unfold All_Catch, Race_Catch, AllSettled_Catch, Any_Catch in *;
    repeat case_match; simplify_eq/=; by repeat constructor.
Qed.

Lemma user_executor_body acts p :
  Forall (fun ins => in_body ins = true) (user_executor acts p).
Proof.
  unfold user_executor. induction acts as [|[] acts IH]; simpl; by repeat constructor.
Qed.

Lemma main_calls (main : list api) :
  Forall (fun ins => exists op, ins = ICall op) (concat (pool (start main))).
Proof.
  simpl. rewrite app_nil_r. induction main as [|op main IH]; simpl; constructor; eauto.
Qed.

Lemma attach_in_executor onThen onCatch promises :
  Forall (in_executor promises) (attach onThen onCatch promises).
Proof.
  unfold attach. revert onThen onCatch.
  induction promises as [|p promises IH]; intros onThen onCatch; simpl; [done|].
  repeat constructor; simpl; try apply list_elem_of_here.
  eapply Forall_impl; [apply (IH (onThen ∘ S) (onCatch ∘ S))|].
  intros [] Hx; simpl in *; try done; by apply list_elem_of_further.
Qed.

Lemma in_body_in_executor promises body :
  Forall (fun ins => in_body ins = true) body -> Forall (in_executor promises) body.
Proof. intros Hb. eapply Forall_impl; [exact Hb|]. by intros []. Qed.

Lemma All_in_executor promises agg : Forall (in_executor promises) (All promises agg).
Proof.
  unfold All. case_match; [by repeat constructor|].
  constructor; [done|apply attach_in_executor].
Qed.

Lemma Race_in_executor promises agg : Forall (in_executor promises) (Race promises agg).
Proof.
  unfold Race. case_match; [by repeat constructor|].
  constructor; [done|apply attach_in_executor].
Qed.

Lemma AllSettled_in_executor promises agg :
  Forall (in_executor promises) (AllSettled promises agg).
Proof.
  unfold AllSettled. case_match; [by repeat constructor|].
  constructor; [done|apply attach_in_executor].
Qed.

Lemma Any_in_executor promises agg : Forall (in_executor promises) (Any promises agg).
Proof.
  unfold Any. case_match; [by repeat constructor|].
  constructor; [done|apply attach_in_executor].
Qed.

(** None of them is the first statement of the goroutines that
    [resolve], [reject] and [finally] start. *)

Lemma in_body_no_observe (body : list instr) :
  Forall (fun ins => in_body ins = true) body -> tally is_IObserve body = 0%nat.
Proof. apply tally_zero. by intros []. Qed.

Lemma in_executor_no_observe (promises : list pid) (body : list instr) :
  Forall (in_executor promises) body -> tally is_IObserve body = 0%nat.
Proof. apply tally_zero. by intros []. Qed.

Lemma main_no_observe (main : list api) :
  tally is_IObserve (concat (pool (start main))) = 0%nat.
Proof. eapply tally_zero; [|apply main_calls]. by intros ? [op ->]. Qed.

Lemma owes_then_observe p ins : owes_then p ins = true -> is_IObserve ins = true.
Proof. by destruct ins. Qed.

Lemma owes_catch_observe p ins : owes_catch p ins = true -> is_IObserve ins = true.
Proof. by destruct ins. Qed.

Lemma no_observe_then (p : pid) (body : list instr) :
  tally is_IObserve body = 0%nat -> tally (owes_then p) body = 0%nat.
Proof.
  intros Hb. pose proof (tally_le (owes_then p) is_IObserve body (owes_then_observe p)). lia.
Qed.

Lemma no_observe_catch (p : pid) (body : list instr) :
  tally is_IObserve body = 0%nat -> tally (owes_catch p) body = 0%nat.
Proof.
  intros Hb. pose proof (tally_le (owes_catch p) is_IObserve body (owes_catch_observe p)). lia.
Qed.

Ltac name_pools :=
  repeat match goal with
  | Hl : ?g !! ?i = Some ?t |- context [tally ?f (concat (<[?i := ?t']> ?g))] =>
      let x := fresh "n" in
      generalize (tally_concat_insert f g i t t' Hl);
      set (x := tally f (concat (<[i := t']> g))) in *; clearbody x
  end.

Ltac quiet_bodies lem :=
  repeat match goal with
  | |- context [tally ?f (call_then ?h ?v)] =>
      rewrite (lem _ (in_body_no_observe _ (call_then_body h v)))
  | |- context [tally ?f (call_catch ?h ?v)] =>
      rewrite (lem _ (in_body_no_observe _ (call_catch_body h v)))
  | |- context [tally ?f (call_fin ?h)] =>
      rewrite (lem _ (in_body_no_observe _ (call_fin_body h)))
  | |- context [tally ?f (user_executor ?a ?p)] =>
      rewrite (lem _ (in_body_no_observe _ (user_executor_body a p)))
  | |- context [tally ?f (All ?a ?p)] =>
      rewrite (lem _ (in_executor_no_observe _ _ (All_in_executor a p)))
  | |- context [tally ?f (Race ?a ?p)] =>
      rewrite (lem _ (in_executor_no_observe _ _ (Race_in_executor a p)))
  | |- context [tally ?f (AllSettled ?a ?p)] =>
      rewrite (lem _ (in_executor_no_observe _ _ (AllSettled_in_executor a p)))
  | |- context [tally ?f (Any ?a ?p)] =>
      rewrite (lem _ (in_executor_no_observe _ _ (Any_in_executor a p)))
  | Hh : locked_then _ _ = Some (_, ?body), Hb : ?body _ = Some (_, ?calls)
    |- context [tally ?f ?calls] =>
      rewrite (lem _ (in_body_no_observe _ (locked_then_body _ _ _ _ _ _ _ Hh Hb)))
  | Hh : locked_catch _ _ = Some (_, ?body), Hb : ?body _ = Some (_, ?calls)
    |- context [tally ?f ?calls] =>
      rewrite (lem _ (in_body_no_observe _ (locked_catch_body _ _ _ _ _ _ _ Hh Hb)))
  end.

Lemma step_then_owed (p : pid) (i : nat) (s s' : state) :
  then_owed p s -> step i s = Some s' -> then_owed p s'.
Proof.
  unfold then_owed, pending.
  intros Hs (ins & k & _ & Hi & He)%step_inv.
  pose proof (tally_concat_insert (owes_then p) _ _ _ k Hi) as Hk. simpl in Hk.
  destruct ins as [[]| | | | | | | |? []| | | | | |]; unfold_ops; simpl in *;
    repeat case_match; simplify_eq/=.
  all: rewrite ?tally_app, ?concat_app, ?tally_app; simpl; rewrite ?app_nil_r, ?tally_app.
  all: name_pools; rewrite ?tally_app; quiet_bodies (no_observe_then p).
  all: simpl; intros; repeat case_match; lia.
Qed.

Lemma step_catch_owed (p : pid) (i : nat) (s s' : state) :
  catch_owed p s -> step i s = Some s' -> catch_owed p s'.
Proof.
  unfold catch_owed, pending.
  intros Hs (ins & k & _ & Hi & He)%step_inv.
  pose proof (tally_concat_insert (owes_catch p) _ _ _ k Hi) as Hk. simpl in Hk.
  destruct ins as [[]| | | | | | | |? []| | | | | |]; unfold_ops; simpl in *;
    repeat case_match; simplify_eq/=.
  all: rewrite ?tally_app, ?concat_app, ?tally_app; simpl; rewrite ?app_nil_r, ?tally_app.
  all: name_pools; rewrite ?tally_app; quiet_bodies (no_observe_catch p).
  all: simpl; intros; repeat case_match; lia.
Qed.


(** C1 (amended).  In every state a caller's program can reach, whatever
    was called before, a call of [resolve] (resp. [reject]) that finds
    the success-observer (resp. failure-observer) registered starts the
    goroutine that invokes it: the promise keeps no record of being
    settled.  What does hold along every schedule is that the
    invocations of the success-observer of a promise never outnumber the
    calls of its [resolve], and those of its failure-observer never
    outnumber the calls of its [reject]: one call is delivered at most
    once. *)
Theorem observer_invoked_once_per_call (main : list api) (sched : list nat) (p : pid) :
  let s := run sched (start main) in
  (tally (is_EThen p) (trace s) <= tally (is_EResolve p) (trace s))%nat
  /\ (tally (is_ECatch p) (trace s) <= tally (is_EReject p) (trace s))%nat
  /\ (forall pr, heap s !! p = Some pr ->
        (forall h v, then_ pr = Some h ->
           resolve p v s
           = spawn [IObserve p (Resolved v); IDone] (emit (EResolve p v) s))
        /\ (forall h e, catch_ pr = Some h ->
              reject p e s
              = spawn [IObserve p (Rejected e); IDone] (emit (EReject p e) s))).
Proof.
  intros s.
  assert (Ht : then_owed p s).
  { apply run_invariant; [apply step_then_owed|]. unfold then_owed, pending.
    by rewrite (no_observe_then p _ (main_no_observe main)). }
  assert (Hc : catch_owed p s).
  { apply run_invariant; [apply step_catch_owed|]. unfold catch_owed, pending.
    by rewrite (no_observe_catch p _ (main_no_observe main)). }
  unfold then_owed, catch_owed in *.
  split; [lia|]. split; [lia|].
  intros pr Hp. split.
  - intros h v Hh. unfold resolve. simpl. by rewrite Hp, Hh.
  - intros h e Hh. unfold reject. simpl. by rewrite Hp, Hh.
Qed.

(** ** Settling before anybody listens *)

Lemma step_finished (i : nat) (s : state) :
  Forall (fun t => t = []) (pool s) -> step i s = None.
Proof.
  intros Hp. unfold step. destruct (panicked s); [done|].
  destruct (pool s !! i) as [t|] eqn:Hi; [|done].
  by rewrite (Forall_lookup_1 _ _ _ _ Hp Hi).
Qed.

Lemma run_finished (sched : list nat) (s : state) :
  Forall (fun t => t = []) (pool s) -> run sched s = s.
Proof.
  intros Hp. induction sched as [|i sched IH]; simpl; [done|].
  by rewrite (step_finished i s Hp).
Qed.

(** C2.  The caller creates a promise, its executor calls [resolve(v)],
    and only then the caller calls [Then(h)].  Whatever is scheduled
    afterwards, the only thing that ever happened is that call of
    [resolve]: [h] is never invoked (and the WaitGroup counter stays
    at 1).  The outcome does not depend on the schedule. *)
Theorem resolve_before_Then_is_lost (v : T) (h : hid) (sched : list nat) :
  let s := run ([0; 1; 0]%nat ++ sched) (start [CNewPromise [CallResolve v]; CThen 0 h]) in
  trace s = [EResolve 0 (VElem v)] /\ wg s = 1.
Proof.
  intros s. subst s. rewrite run_app.
  rewrite run_finished; [done|].
  simpl. repeat constructor.
Qed.
(** ** Settlements nobody observes *)

Lemma step_stuck_waiting (e : error) (rest : list api) (i : nat) (s s' : state) :
  tally is_EReturned (trace s) = 0%nat /\ stuck_waiting e rest s ->
  step i s = Some s' ->
  tally is_EReturned (trace s') = 0%nat /\ stuck_waiting e rest s'.
Proof.
  intros (Ht & Hw & Hp & (pr & Hh & Hc) & (hs & executor & Hg & Hexec)).
  unfold step. rewrite Hp, Hg.
  destruct i as [|[|i]]; simpl; [| |done].
  - destruct hs as [|h hs]; simpl.
    + unfold WaitForPromises; simpl. by rewrite Hw.
    + unfold Then, with_heap; simpl. rewrite Hh. simpl. intros [= <-].
      split; [done|]. unfold stuck_waiting; simpl.
      repeat split; eauto 10.
  - destruct Hexec as [-> | ->]; simpl; [|done].
    unfold reject; simpl. rewrite Hh. simpl. rewrite Hc. intros [= <-]. simpl.
    split.
    + by rewrite tally_app, Ht.
    + unfold stuck_waiting; simpl. repeat split; eauto 10.
Qed.

(** ** Combinators without inputs *)

(** C7.  With no input promise the executor of [All] and of [AllSettled]
    consists of the call [resolve] with the empty slice, that of [Race]
    of the call [reject] with "no promises to race", that of [Any] of the
    call [reject] with "all promises rejected"; the call is made by the
    first step of the executor's goroutine, whatever is scheduled after. *)
Theorem empty_input_settles_at_once (agg : pid) (sched : list nat) :
  (All [] agg = [IResolve agg VEmpty]
   /\ trace (run ([0; 1]%nat ++ sched) (start [CAll []])) = [EResolve 0 VEmpty])
  /\ (AllSettled [] agg = [IResolve agg VEmpty]
      /\ trace (run ([0; 1]%nat ++ sched) (start [CAllSettled []])) = [EResolve 0 VEmpty])
  /\ (Race [] agg = [IReject agg (Some "no promises to race"%string)]
      /\ trace (run ([0; 1]%nat ++ sched) (start [CRace []]))
         = [EReject 0 (Some "no promises to race"%string)])
  /\ (Any [] agg = [IReject agg (Some "all promises rejected"%string)]
      /\ trace (run ([0; 1]%nat ++ sched) (start [CAny []]))
         = [EReject 0 (Some "all promises rejected"%string)]).
Proof.
  repeat split; try reflexivity.
  all: rewrite run_app; rewrite run_finished; [reflexivity|].
  all: simpl; repeat constructor.
Qed.

(** ** Observers nobody replaces *)

Lemma in_body_no_touch (p : pid) (body : list instr) :
  Forall (fun ins => in_body ins = true) body -> tally (touches p) body = 0%nat.
Proof. apply tally_zero. by intros []. Qed.

Lemma in_executor_no_touch (p : pid) (promises : list pid) (body : list instr) :
  p ∉ promises -> Forall (in_executor promises) body -> tally (touches p) body = 0%nat.
Proof.
  intros Hp. apply tally_zero. intros [] Hx; simpl in *; try done.
  all: apply Nat.eqb_neq; by intros ->.
Qed.

Lemma pending_head (f : instr -> bool) (s : state) (i : nat) (ins : instr)
    (k : list instr) :
  pending f s = 0%nat -> pool s !! i = Some (ins :: k) ->
  f ins = false /\ tally f (concat (<[i := k]> (pool s))) = 0%nat.
Proof.
  unfold pending. intros Hz Hi.
  pose proof (tally_concat_insert f _ _ _ k Hi) as Hk. simpl in Hk.
  destruct (f ins); [lia|]. split; [done|lia].
Qed.

Lemma step_slots_frozen (p : pid) (pr : Promise) (tr : list event) (i : nat)
    (s s' : state) :
  slots_frozen p pr tr s -> step i s = Some s' -> slots_frozen p pr tr s'.
Proof.
  intros (Hp & Hq & evs & Htr & Hev) (ins & k & _ & Hi & He)%step_inv.
  destruct (pending_head _ _ _ _ _ Hq Hi) as [Hins Hk].
  assert (Hlt : (p < length (heap s))%nat) by (by eapply lookup_lt_Some).
  unfold slots_frozen, pending.
  destruct ins as [[]| | | | | | | |? []| | | | | |]; unfold_ops; simpl in *;
    repeat case_match; simplify_eq/=.
  all: repeat split.
  all: try (rewrite list_lookup_insert_ne; [done|by apply Nat.eqb_neq]).
  all: try (by rewrite lookup_app_l).
  all: try done.
  all: try (by exists evs).
  all: try (match goal with
            | |- exists _, _ ++ [?ev] = _ /\ _ => exists (evs ++ [ev])
            end;
            split; [by rewrite Htr, app_assoc|];
            apply Forall_app; split; [done|]; repeat constructor; simpl;
            try done; intros ->; congruence).
  all: rewrite ?concat_app, ?tally_app; simpl; rewrite ?app_nil_r.
  all: name_pools; rewrite ?tally_app.
  all: repeat match goal with
       | |- context [tally ?f (call_then ?h ?v)] =>
           rewrite (in_body_no_touch _ _ (call_then_body h v))
       | |- context [tally ?f (call_catch ?h ?v)] =>
           rewrite (in_body_no_touch _ _ (call_catch_body h v))
       | |- context [tally ?f (call_fin ?h)] =>
           rewrite (in_body_no_touch _ _ (call_fin_body h))
       | |- context [tally ?f (user_executor ?a ?q)] =>
           rewrite (in_body_no_touch _ _ (user_executor_body a q))
       | Hh : locked_then _ _ = Some (_, ?body), Hb : ?body _ = Some (_, ?calls)
         |- context [tally ?f ?calls] =>
           rewrite (in_body_no_touch _ _ (locked_then_body _ _ _ _ _ _ _ Hh Hb))
       | Hh : locked_catch _ _ = Some (_, ?body), Hb : ?body _ = Some (_, ?calls)
         |- context [tally ?f ?calls] =>
           rewrite (in_body_no_touch _ _ (locked_catch_body _ _ _ _ _ _ _ Hh Hb))
       | Hn : bool_decide (?q ∈ ?ps) = false
         |- context [tally (touches ?q) (All ?ps ?a)] =>
           rewrite (in_executor_no_touch q ps _ (bool_decide_eq_false_1 _ Hn)
                      (All_in_executor ps a))
       | Hn : bool_decide (?q ∈ ?ps) = false
         |- context [tally (touches ?q) (Race ?ps ?a)] =>
           rewrite (in_executor_no_touch q ps _ (bool_decide_eq_false_1 _ Hn)
                      (Race_in_executor ps a))
       | Hn : bool_decide (?q ∈ ?ps) = false
         |- context [tally (touches ?q) (AllSettled ?ps ?a)] =>
           rewrite (in_executor_no_touch q ps _ (bool_decide_eq_false_1 _ Hn)
                      (AllSettled_in_executor ps a))
       | Hn : bool_decide (?q ∈ ?ps) = false
         |- context [tally (touches ?q) (Any ?ps ?a)] =>
           rewrite (in_executor_no_touch q ps _ (bool_decide_eq_false_1 _ Hn)
                      (Any_in_executor ps a))
       end.
  all: simpl; intros; lia.
Qed.

Lemma run_slots_frozen (p : pid) (pr : Promise) (s : state) (sched : list nat) :
  heap s !! p = Some pr -> pending (touches p) s = 0%nat ->
  slots_frozen p pr (trace s) (run sched s).
Proof.
  intros Hp Hq. apply run_invariant.
  - apply step_slots_frozen.
  - split; [done|]. split; [done|]. exists []. by rewrite app_nil_r.
Qed.

(** ** Registration *)

Lemma step_Finally_before_Then (v : T) (f h : hid) (c : nat) (x : settlement)
    (i : nat) (s' : state) :
  Finally_before_Then_occurs c x = true ->
  step i (Finally_before_Then_state v f h c x) = Some s' ->
  exists c' x',
    Finally_before_Then_occurs c' x' = true
    /\ s' = Finally_before_Then_state v f h c' x'
    /\ (c <= c')%nat
    /\ (wrapped_hearing x' = true ->
        wrapped_hearing x = true \/ (c = 2%nat /\ x = Answered Unread)).
Proof.
  intros Hocc Hstep.
  assert (Hfind : forall P : nat -> settlement -> Prop,
            (exists c', (c' <= 3)%nat
               /\ exists x', P c' x') ->
            exists c' x', P c' x') by (intros P (c' & _ & x' & Hx); eauto).
  destruct c as [|[|[|[|c]]]]; [| | | |by destruct x as [| |[|[]|[]|[]]]].
  all: destruct x as [| |[|[]|[]|[]]]; try done.
  all: destruct i as [|[|[|i]]]; simpl in Hstep; try done.
  all: injection Hstep as <-.
  all: first
    [ by exists 1%nat, Uncalled; repeat split; auto
    | by exists 2%nat, Uncalled; repeat split; auto
    | by exists 3%nat, Uncalled; repeat split; auto
    | by exists 1%nat, Dropped; repeat split; auto
    | by exists 2%nat, Dropped; repeat split; auto
    | by exists 3%nat, Dropped; repeat split; auto
    | by exists 2%nat, (Answered Unread); repeat split; auto
    | by exists 3%nat, (Answered Unread); repeat split; auto
    | by exists 2%nat, (Answered (Entered true)); repeat split; auto
    | by exists 3%nat, (Answered (Entered true)); repeat split; auto
    | by exists 3%nat, (Answered (Entered false)); repeat split; auto
    | by exists 2%nat, (Answered (Leaving true)); repeat split; auto
    | by exists 3%nat, (Answered (Leaving true)); repeat split; auto
    | by exists 3%nat, (Answered (Leaving false)); repeat split; auto
    | by exists 2%nat, (Answered (Left true)); repeat split; auto
    | by exists 3%nat, (Answered (Left true)); repeat split; auto
    | by exists 3%nat, (Answered (Left false)); repeat split; auto ].
Qed.

Lemma run_Finally_before_Then (v : T) (f h : hid) (sched : list nat) :
  exists c x,
    Finally_before_Then_occurs c x = true
    /\ run sched (start (Finally_before_Then v f h)) = Finally_before_Then_state v f h c x.
Proof.
  apply (run_invariant (fun s => exists c x,
           Finally_before_Then_occurs c x = true
           /\ s = Finally_before_Then_state v f h c x)).
  - intros i s s' (c & x & Hocc & ->) Hstep.
    destruct (step_Finally_before_Then v f h c x i s' Hocc Hstep)
      as (c' & x' & Hocc' & -> & _). eauto.
  - by exists 0%nat, Uncalled.
Qed.

(** Once [Then(h)] has returned, a goroutine that has not read the field
    yet will find [h] there. *)
Lemma run_Then_returned (v : T) (f h : hid) (sched : list nat) (x : settlement) :
  Finally_before_Then_occurs 3 x = true -> wrapped_hearing x = false ->
  exists x',
    wrapped_hearing x' = false
    /\ run sched (Finally_before_Then_state v f h 3 x)
       = Finally_before_Then_state v f h 3 x'.
Proof.
  intros Hocc Hw.
  assert (Hinv : exists x',
            (Finally_before_Then_occurs 3 x' = true /\ wrapped_hearing x' = false)
            /\ run sched (Finally_before_Then_state v f h 3 x)
               = Finally_before_Then_state v f h 3 x').
  { apply (run_invariant (fun s => exists x',
             (Finally_before_Then_occurs 3 x' = true /\ wrapped_hearing x' = false)
             /\ s = Finally_before_Then_state v f h 3 x')); [|by exists x].
    intros i s s' (x0 & [Hocc0 Hw0] & ->) Hstep.
    destruct (step_Finally_before_Then v f h 3 x0 i s' Hocc0 Hstep)
      as (c' & x' & Hocc' & -> & Hle & Hwrapped).
    assert (c' = 3%nat) as ->.
    { apply andb_true_iff in Hocc' as [Hc%Nat.leb_le _]. lia. }
    exists x'. split; [|done]. split; [done|].
    destruct (wrapped_hearing x') eqn:Hx; [|done].
    destruct Hwrapped as [Hx0 | [[=] _]]; [done|congruence]. }
  destruct Hinv as (x' & [_ Hw'] & Hrun). by exists x'.
Qed.

(** C8 (amended).  [Then] stores its handler in the [then] field of its
    receiver, whatever was there, allocates nothing and returns its
    receiver, so [Then(h1)] followed by [Then(h2)] is [Then(h2)].  After
    [Finally(f)] and then [Then(h)] the field holds [h] itself, not a
    closure that also calls [f]; as long as nobody registers on the
    promise again, every success-observer invoked on it from then on is
    [h], whose body does not call [f].  In the program that does just
    that on a resolving promise, whatever the schedule, what happens is
    the beginning of one of two courses: [resolve] is called, [h] is
    invoked and runs; or [resolve] is called, the closure of [Finally] is
    invoked (the goroutine read the field before [Then(h)] replaced it)
    and [f] runs.  If no observer has been invoked when [Then(h)] has
    returned, [f] never runs. *)
Theorem Then_replaces_success_observer (s : state) (p : pid) (pr : Promise) :
  heap s !! p = Some pr ->
  (forall h,
      fst (Then_returning p h s) = p
      /\ snd (Then_returning p h s) = Then p h s
      /\ heap (Then p h s) !! p
         = Some {| then_ := Some h; catch_ := catch_ pr; finally_ := finally_ pr |}
      /\ length (heap (Then p h s)) = length (heap s))
  /\ (forall h1 h2, Then p h2 (Then p h1 s) = Then p h2 s)
  /\ (forall f h,
        let s1 := Then p (HThen h) (Finally p (HFinally f) s) in
        exists pr1,
          heap s1 !! p = Some pr1 /\ then_ pr1 = Some (HThen h)
          /\ (forall v, call_then (HThen h) v = [IUserThen h v])
          /\ (pending (touches p) s = 0%nat ->
              forall sched, slots_frozen p pr1 (trace s1) (run sched s1)))
  /\ (forall v f h,
        (forall sched,
            let s' := run sched (start (Finally_before_Then v f h)) in
            trace s' `prefix_of` Then_outcome v h
            \/ trace s' `prefix_of` Finally_only_outcome v f)
        /\ (forall pre sched,
              let s0 := run pre (start (Finally_before_Then v f h)) in
              pool s0 !! 0%nat = Some [] ->
              tally is_invocation (trace s0) = 0%nat ->
              tally (is_EUserFinally f) (trace (run sched s0)) = 0%nat)
        /\ trace (run [0; 0; 0; 1; 2; 2]%nat (start (Finally_before_Then v f h)))
           = Then_outcome v h).
Proof.
  intros Hp.
  assert (Hlt : (p < length (heap s))%nat) by (by eapply lookup_lt_Some).
  split; [|split; [|split]].
  - intros h. split; [done|]. split; [done|]. unfold Then. rewrite Hp. simpl.
    by rewrite list_lookup_insert_eq, length_insert.
  - intros h1 h2. unfold Then at 2. rewrite Hp. unfold Then. simpl.
    rewrite list_lookup_insert_eq by done. unfold with_heap. simpl.
    rewrite Hp. by rewrite list_insert_insert_eq.
  - intros f h s1.
    assert (Hs1 : exists c, heap s1 !! p
              = Some {| then_ := Some (HThen h); catch_ := Some c;
                        finally_ := finally_ pr |}).
    { subst s1. unfold Finally. rewrite Hp. unfold Then. simpl.
      rewrite list_lookup_insert_eq by done. simpl.
      rewrite list_lookup_insert_eq by (by rewrite length_insert). eauto. }
    destruct Hs1 as (c & Hs1). eexists. split; [exact Hs1|].
    split; [done|]. split; [done|].
    intros Hq sched. apply run_slots_frozen; [done|].
    subst s1. unfold Finally. rewrite Hp. unfold Then. simpl.
    by rewrite list_lookup_insert_eq by done.
  - intros v f h. split; [|split; [|reflexivity]].
    + intros sched s'. subst s'.
      destruct (run_Finally_before_Then v f h sched) as (c & x & Hocc & ->).
      destruct c as [|[|[|[|c]]]]; [| | | |by destruct x as [| |[|[]|[]|[]]]].
      all: destruct x as [| |[|[]|[]|[]]]; try done.
      all: first [left; by eexists|right; by eexists].
    + intros pre sched s0 Hmain Hnone. subst s0.
      destruct (run_Finally_before_Then v f h pre) as (c & x & Hocc & Hrun).
      rewrite Hrun in *.
      assert (c = 3%nat /\ wrapped_hearing x = false) as [-> Hw].
      { destruct c as [|[|[|[|c]]]]; [| | | |by destruct x as [| |[|[]|[]|[]]]].
        all: by destruct x as [| |[|[]|[]|[]]]. }
      destruct (run_Then_returned v f h sched x Hocc Hw) as (x' & Hw' & ->).
      by destruct x' as [| |[|[]|[]|[]]].
Qed.

(** ** Deliveries *)

Lemma feed_app region (ds1 ds2 : list delivery) (env : closure) :
  feed region (ds1 ++ ds2) env
  = match feed region ds1 env with
    | Some (env1, calls1) =>
        match feed region ds2 env1 with
        | Some (env2, calls2) => Some (env2, calls1 ++ calls2)
        | None => None
        end
    | None => None
    end.
Proof.
  revert env. induction ds1 as [|d ds1 IH]; intros env; simpl.
  - by destruct (feed region ds2 env) as [[]|].
  - destruct (region d env) as [[env0 calls0]|]; [|done].
    rewrite IH. destruct (feed region ds1 env0) as [[env1 calls1]|]; [|done].
    destruct (feed region ds2 env1) as [[env2 calls2]|]; [|done].
    by rewrite app_assoc.
Qed.

(** In the machine, the goroutine that calls the closure of a delivery
    replaces the captured variables by what the region computes and goes
    on with the call the region decided on. *)
Lemma closure_call_runs_region (i : nat) (agg : pid) (onThen : nat -> then_handler)
    (onCatch : nat -> catch_handler) (d : delivery) (s : state) (env env' : closure)
    (calls : list instr) :
  (forall idx val, fst <$> locked_then (onThen idx) val = Some agg) ->
  (forall idx err, fst <$> locked_catch (onCatch idx) err = Some agg) ->
  envs s !! agg = Some env ->
  region_of onThen onCatch d env = Some (env', calls) ->
  exec i (closure_call onThen onCatch d) s
  = Some (push i calls (with_envs (<[agg := env']> (envs s)) s)).
Proof.
  intros HT HC Henv Hregion. destruct d as [idx val|idx err]; simpl in *.
  - specialize (HT idx val).
    destruct (locked_then (onThen idx) val) as [[agg' body]|]; simplify_eq/=.
    by rewrite Henv, Hregion.
  - specialize (HC idx err).
    destruct (locked_catch (onCatch idx) err) as [[agg' body]|]; simplify_eq/=.
    by rewrite Henv, Hregion.
Qed.

(** At most [n] deliveries, and exactly [n] only when every input has
    delivered. *)
Lemma delivered_once_length (n : nat) (ds : list delivery) :
  delivered_once n ds -> (length ds <= n)%nat.
Proof.
  intros [Hr Hd].
  assert (Hs : delivery_idx <$> ds ⊆+ seq 0 n).
  { apply NoDup_submseteq; [done|]. intros i (d & -> & Hin)%list_elem_of_fmap.
    apply elem_of_seq. rewrite Forall_forall in Hr. specialize (Hr d Hin). lia. }
  apply submseteq_length in Hs. by rewrite length_fmap, length_seq in Hs.
Qed.

Lemma delivered_once_full (n : nat) (ds : list delivery) (i : nat) :
  delivered_once n ds -> length ds = n -> (i < n)%nat ->
  exists d, d ∈ ds /\ delivery_idx d = i.
Proof.
  intros [Hr Hd] Hlen Hi.
  assert (Hs : delivery_idx <$> ds ⊆+ seq 0 n).
  { apply NoDup_submseteq; [done|]. intros j (d & -> & Hin)%list_elem_of_fmap.
    apply elem_of_seq. rewrite Forall_forall in Hr. specialize (Hr d Hin). lia. }
  apply submseteq_length_Permutation in Hs;
    [|by rewrite length_fmap, length_seq, Hlen].
  assert (Hin : i ∈ delivery_idx <$> ds).
  { rewrite Hs. apply elem_of_seq. lia. }
  apply list_elem_of_fmap in Hin as (d & -> & Hin). eauto.
Qed.

Lemma delivered_once_covering (n : nat) (ds : list delivery) :
  delivered_once n ds ->
  (forall i, (i < n)%nat -> exists d, d ∈ ds /\ delivery_idx d = i) ->
  length ds = n.
Proof.
  intros Hwf Hall. pose proof (delivered_once_length n ds Hwf) as Hle.
  destruct Hwf as [Hr Hd].
  assert (Hs : seq 0 n ⊆+ delivery_idx <$> ds).
  { apply NoDup_submseteq; [apply NoDup_seq|]. intros i Hi%elem_of_seq.
    destruct (Hall i) as (d & Hin & <-); [lia|]. by apply list_elem_of_fmap_2. }
  apply submseteq_length in Hs. rewrite length_fmap, length_seq in Hs. lia.
Qed.

Lemma delivered_once_unique (n : nat) (ds : list delivery) (d1 d2 : delivery) :
  delivered_once n ds -> d1 ∈ ds -> d2 ∈ ds -> delivery_idx d1 = delivery_idx d2 ->
  d1 = d2.
Proof.
  intros [_ Hd] H1 H2 Heq.
  induction ds as [|d ds IH]; [by apply elem_of_nil in H1|].
  rewrite fmap_cons in Hd. apply NoDup_cons in Hd as [Hn Hd].
  apply elem_of_cons in H1 as [-> | H1]; apply elem_of_cons in H2 as [-> | H2].
  - done.
  - exfalso. apply Hn. rewrite Heq. by apply list_elem_of_fmap_2.
  - exfalso. apply Hn. rewrite <- Heq. by apply list_elem_of_fmap_2.
  - by apply IH.
Qed.

Lemma delivered_once_app (n : nat) (ds1 ds2 : list delivery) :
  delivered_once n (ds1 ++ ds2) -> delivered_once n ds1 /\ delivered_once n ds2.
Proof.
  intros [Hr Hd]. apply Forall_app in Hr as [Hr1 Hr2].
  rewrite fmap_app in Hd. apply NoDup_app in Hd as (Hd1 & _ & Hd2).
  by repeat split.
Qed.
(** ** All *)








(** ** AllSettled *)

Lemma AllSettled_writes_length (ds : list delivery) (results : list PromiseResult) :
  length (AllSettled_writes ds results) = length results.
Proof.
  revert results. induction ds as [|d ds IH]; intros results; simpl; [done|].
  fold (AllSettled_writes ds (<[delivery_idx d := settled_entry d]> results)).
  by rewrite IH, length_insert.
Qed.



(** Every delivery, of either kind, writes its slot and counts down; the
    call is made by the delivery that brings the counter to zero. *)
Lemma AllSettled_feed (agg : pid) (ds : list delivery) (results : list PromiseResult)
    (remaining : Z) :
  Forall (fun d => (delivery_idx d < length results)%nat) ds ->
  feed (AllSettled_region agg) ds (AllSettledEnv results remaining)
  = Some (AllSettledEnv (AllSettled_writes ds results)
                        (remaining - Z.of_nat (length ds)),
          if (1 <=? remaining) && (remaining <=? Z.of_nat (length ds))
          then [IResolve agg (VResults agg)] else []).
Proof.
  revert results remaining.
  induction ds as [|d ds IH]; intros results remaining Hr.
  - cbn [feed AllSettled_writes foldl length]. change (Z.of_nat 0) with 0.
    rewrite Z.sub_0_r.
    destruct (Z.leb_spec 1 remaining), (Z.leb_spec remaining 0); simpl; try done; lia.
  - apply Forall_cons in Hr as [Hi Hr].
    assert (Hr' : Forall (fun d0 => (delivery_idx d0
                    < length (<[delivery_idx d := settled_entry d]> results))%nat) ds)
      by (by rewrite length_insert).
    apply Nat.ltb_lt in Hi as Hi'.
    destruct d as [i v|i e]; simpl in Hi';
      cbn [feed AllSettled_region region_of locked_then locked_catch
           AllSettled_Then AllSettled_Catch];
      rewrite Hi'; fold (AllSettled_region agg);
      (destruct (Z.eqb_spec (remaining - 1) 0) as [E|E]; rewrite (IH _ _ Hr');
       cbn [length]; rewrite Nat2Z.inj_succ;
       replace (remaining - 1 - Z.of_nat (length ds))
         with (remaining - Z.succ (Z.of_nat (length ds))) by lia).
    all: repeat match goal with
         | |- context [?a <=? ?b] => destruct (Z.leb_spec a b)
         end; simpl; try done; lia.
Qed.

(** ** Any *)

Lemma Any_writes_length (ds : list delivery) (errors : list error) :
  length (Any_writes ds errors) = length errors.
Proof.
  revert errors. induction ds as [|[i v|i e] ds IH]; intros errors; simpl; [done| |].
  - apply IH.
  - fold (Any_writes ds (<[i:=e]> errors)). by rewrite IH, length_insert.
Qed.

Lemma Any_writes_other (ds : list delivery) (errors : list error) (i : nat) :
  i ∉ delivery_idx <$> ds -> Any_writes ds errors !! i = errors !! i.
Proof.
  revert errors. induction ds as [|d ds IH]; intros errors Hi; simpl; [done|].
  rewrite fmap_cons in Hi. apply not_elem_of_cons in Hi as [Hne Hi].
  destruct d as [j v|j e]; simpl in *.
  - by apply IH.
  - fold (Any_writes ds (<[j:=e]> errors)). rewrite IH by done.
    by apply list_lookup_insert_ne.
Qed.

Lemma Any_writes_lookup (ds : list delivery) (errors : list error) (i : nat) (e : error) :
  NoDup (delivery_idx <$> ds) -> Fail i e ∈ ds -> (i < length errors)%nat ->
  Any_writes ds errors !! i = Some e.
Proof.
  revert errors. induction ds as [|d ds IH]; intros errors Hd Hin Hi.
  { by apply elem_of_nil in Hin. }
  rewrite fmap_cons in Hd. apply NoDup_cons in Hd as [Hn Hd].
  apply elem_of_cons in Hin as [<- | Hin]; simpl.
  - fold (Any_writes ds (<[i:=e]> errors)). rewrite Any_writes_other by done.
    by apply list_lookup_insert_eq.
  - destruct d as [j w|j e']; simpl.
    + by apply IH.
    + fold (Any_writes ds (<[j:=e']> errors)). apply IH; [done..|].
      by rewrite length_insert.
Qed.

Lemma Any_writes_app (ds1 ds2 : list delivery) (errors : list error) :
  Any_writes (ds1 ++ ds2) errors = Any_writes ds2 (Any_writes ds1 errors).
Proof. apply foldl_app. Qed.

(** Failures only: each records its error and counts down, and the call
    is made by the delivery that brings the counter to zero. *)
Lemma Any_feed_fails (agg : pid) (ds : list delivery) (errors : list error)
    (remaining : Z) :
  Forall (fun d => is_Fulfil d = false) ds ->
  Forall (fun d => (delivery_idx d < length errors)%nat) ds ->
  feed (Any_region agg) ds (AnyEnv remaining errors)
  = Some (AnyEnv (remaining - Z.of_nat (length ds)) (Any_writes ds errors),
          if (1 <=? remaining) && (remaining <=? Z.of_nat (length ds))
          then [IRejectErrors agg] else []).
Proof.
  revert errors remaining.
  induction ds as [|d ds IH]; intros errors remaining Hf Hr.
  - cbn [feed Any_writes foldl length]. change (Z.of_nat 0) with 0. rewrite Z.sub_0_r.
    destruct (Z.leb_spec 1 remaining), (Z.leb_spec remaining 0); simpl; try done; lia.
  - apply Forall_cons in Hf as [Hd Hf]. apply Forall_cons in Hr as [Hi Hr].
    destruct d as [|i e]; [done|]. simpl in Hi.
    cbn [feed Any_region region_of locked_catch Any_Catch].
    apply Nat.ltb_lt in Hi as Hi'. rewrite Hi'. fold (Any_region agg).
    assert (Hr' : Forall (fun d => (delivery_idx d < length (<[i:=e]> errors))%nat) ds)
      by (by rewrite length_insert).
    destruct (Z.eqb_spec (remaining - 1) 0) as [E|E]; rewrite (IH _ _ Hf Hr');
      cbn [length]; rewrite Nat2Z.inj_succ;
      replace (remaining - 1 - Z.of_nat (length ds))
        with (remaining - Z.succ (Z.of_nat (length ds))) by lia.
    all: repeat match goal with
         | |- context [?a <=? ?b] => destruct (Z.leb_spec a b)
         end; simpl; try done; lia.
Qed.

(** Once the counter is zero or less, no region makes a call. *)
Lemma Any_feed_settled (agg : pid) (ds : list delivery) (errors : list error)
    (remaining : Z) :
  remaining <= 0 ->
  Forall (fun d => (delivery_idx d < length errors)%nat) ds ->
  exists remaining',
    remaining' <= 0
    /\ feed (Any_region agg) ds (AnyEnv remaining errors)
       = Some (AnyEnv remaining' (Any_writes ds errors), []).
Proof.
  revert errors remaining.
  induction ds as [|d ds IH]; intros errors remaining Hle Hr.
  - by exists remaining.
  - apply Forall_cons in Hr as [Hi Hr]. destruct d as [i v|i e]; simpl in Hi.
    + cbn [feed Any_region region_of locked_then Any_Then].
      destruct (Z.gtb_spec remaining 0) as [E|E]; [lia|]. fold (Any_region agg).
      destruct (IH errors remaining) as (r' & Hr' & ->); [done..|]. by exists r'.
    + cbn [feed Any_region region_of locked_catch Any_Catch].
      apply Nat.ltb_lt in Hi as Hi'. rewrite Hi'. fold (Any_region agg).
      destruct (Z.eqb_spec (remaining - 1) 0) as [E|E]; [lia|].
      destruct (IH (<[i:=e]> errors) (remaining - 1)) as (r' & Hr' & ->);
        [lia|by rewrite length_insert|]. by exists r'.
Qed.

Lemma first_Fulfil_split (ds : list delivery) :
  Forall (fun d => is_Fulfil d = false) ds
  \/ exists pre i v post,
       ds = pre ++ Fulfil i v :: post /\ Forall (fun d => is_Fulfil d = false) pre.
Proof.
  induction ds as [|d ds IH]; [by left|].
  destruct d as [i v|i e].
  - right. by exists [], i, v, ds.
  - destruct IH as [IH | (pre & j & v & post & -> & Hpre)].
    + left. by constructor.
    + right. exists (Fail i e :: pre), j, v, post. split; [done|]. by constructor.
Qed.

(** The first fulfilment delivered makes the only call. *)
Lemma Any_feed_first_fulfilment (agg : pid) (n : nat) (pre post : list delivery)
    (i : nat) (v : value) :
  delivered_once n (pre ++ Fulfil i v :: post) ->
  Forall (fun d => is_Fulfil d = false) pre ->
  exists remaining,
    feed (Any_region agg) (pre ++ Fulfil i v :: post) (Any_env n)
    = Some (AnyEnv remaining (Any_writes (pre ++ Fulfil i v :: post) (replicate n None)),
            [IResolve agg v]).
Proof.
  intros Hwf Hpre.
  pose proof (delivered_once_length _ _ Hwf) as Hlen.
  rewrite length_app in Hlen. simpl in Hlen.
  destruct Hwf as [Hr _]. apply Forall_app in Hr as [Hr1 Hr2].
  apply Forall_cons in Hr2 as [_ Hr2].
  rewrite feed_app. unfold Any_env.
  rewrite Any_feed_fails; [|done|by rewrite length_replicate].
  destruct (Z.leb_spec 1 (Z.of_nat n)), (Z.leb_spec (Z.of_nat n) (Z.of_nat (length pre)));
    try lia; cbn [andb].
  cbn [feed Any_region region_of locked_then Any_Then].
  destruct (Z.gtb_spec (Z.of_nat n - Z.of_nat (length pre)) 0); [|lia].
  destruct (Any_feed_settled agg post (Any_writes pre (replicate n None)) 0)
    as (r' & _ & Hpost); [done|by rewrite Any_writes_length, length_replicate|].
  fold (Any_region agg). rewrite Hpost. exists r'.
  by rewrite Any_writes_app.
Qed.

(** What [%v] prints of a slice of errors mentions every one of them. *)
Lemma string_append_assoc (a b c : string) :
  String.append (String.append a b) c = String.append a (String.append b c).
Proof.
  induction a as [|x a IH]; [done|].
  change (String x (String.append (String.append a b) c)
          = String x (String.append a (String.append b c))).
  by rewrite IH.
Qed.

Lemma string_append_nil_r (a : string) : String.append a "" = a.
Proof.
  induction a as [|x a IH]; [done|].
  change (String x (String.append a "") = String x a). by rewrite IH.
Qed.

Lemma occurs_in_append_l (x a b : string) :
  occurs_in x b -> occurs_in x (String.append a b).
Proof.
  intros (pre & post & ->). exists (String.append a pre), post.
  by rewrite string_append_assoc.
Qed.

Lemma occurs_in_append_r (x a b : string) :
  occurs_in x a -> occurs_in x (String.append a b).
Proof.
  intros (pre & post & ->). exists pre, (String.append post b).
  by rewrite !string_append_assoc.
Qed.

Lemma occurs_in_here (x b : string) : occurs_in x (String.append x b).
Proof. by exists ""%string, b. Qed.

Lemma concat_mentions (sep x : string) (l : list string) :
  x ∈ l -> occurs_in x (String.concat sep l).
Proof.
  induction l as [|y l IH]; [by intros ?%elem_of_nil|].
  intros Hin. destruct l as [|z l].
  - apply list_elem_of_singleton in Hin as ->. simpl.
    exists ""%string, ""%string. simpl. by rewrite string_append_nil_r.
  - cbn [String.concat].
    apply elem_of_cons in Hin as [-> | Hin]; [apply occurs_in_here|].
    by apply occurs_in_append_l, occurs_in_append_l, IH.
Qed.

Lemma fmt_errors_mentions (errors : list error) (i : nat) (e : error) :
  errors !! i = Some e -> occurs_in (error_string e) (fmt_errors errors).
Proof.
  intros Hi. unfold fmt_errors.
  apply occurs_in_append_l, occurs_in_append_r, concat_mentions.
  apply list_elem_of_fmap. exists e. split; [done|]. by eapply list_elem_of_lookup_2.
Qed.

(** C5 (amended).  [Any] of a non-empty list declares its counter and
    error slice and attaches its two closures to every input.  Whatever
    settlements those closures then receive, in whatever order, each
    input delivering at most one: the first fulfilment delivered makes
    them call [resolve] with its value, and nothing delivered later
    makes another call; they call [reject] only when every input has
    delivered a failure; the error slice, as long as the list of inputs,
    then holds at each index the error of that input, and the one error
    [Any] rejects with is "all promises rejected: " followed by the
    slice as [%v] prints it, a text in which the text of every input's
    error occurs. *)
Theorem Any_settles_as_delivered (agg : pid) (promises : list pid) (ds : list delivery) :
  promises <> [] ->
  delivered_once (length promises) ds ->
  Any promises agg
  = IMake agg (Any_env (length promises))
    :: attach (fun _ => HAnyThen agg) (HAnyCatch agg) promises
  /\ exists remaining errors calls,
       feed (Any_region agg) ds (Any_env (length promises))
       = Some (AnyEnv remaining errors, calls)
       /\ (forall pre i v post,
              ds = pre ++ Fulfil i v :: post ->
              Forall (fun d => is_Fulfil d = false) pre ->
              calls = [IResolve agg v])
       /\ (length calls <= 1)%nat
       /\ (IRejectErrors agg ∈ calls <-> every_input_fails (length promises) ds)
       /\ length errors = length promises
       /\ (forall i e, Fail i e ∈ ds -> errors !! i = Some e)
       /\ (forall s,
              envs s !! agg = Some (AnyEnv remaining errors) ->
              exists msg,
                reject_errors agg s = reject agg (Some msg) s
                /\ msg = String.append "all promises rejected: " (fmt_errors errors)
                /\ forall i e, Fail i e ∈ ds -> occurs_in (error_string e) msg).
Proof.
  intros Hne Hwf. split.
  { unfold Any. by destruct promises. }
  set (n := length promises) in *.
  assert (Hn : (0 < n)%nat) by (subst n; destruct promises; simpl; [done|lia]).
  assert (Hlookup : forall i e, Fail i e ∈ ds ->
            Any_writes ds (replicate n None) !! i = Some e).
  { intros i e Hin. destruct Hwf as [Hr Hd]. apply Any_writes_lookup; [done..|].
    rewrite length_replicate. rewrite Forall_forall in Hr. apply (Hr _ Hin). }
  assert (Hfirst : forall calls env pre i v post,
            feed (Any_region agg) ds (Any_env n) = Some (env, calls) ->
            ds = pre ++ Fulfil i v :: post ->
            Forall (fun d => is_Fulfil d = false) pre -> calls = [IResolve agg v]).
  { intros calls env pre i v post Hfeed -> Hpre.
    destruct (Any_feed_first_fulfilment agg n pre post i v Hwf Hpre) as (r' & Hf).
    rewrite Hf in Hfeed. by injection Hfeed as _ <-. }
  assert (Hmsg : forall remaining s,
            envs s !! agg
            = Some (AnyEnv remaining (Any_writes ds (replicate n None))) ->
            exists msg,
              reject_errors agg s = reject agg (Some msg) s
              /\ msg = String.append "all promises rejected: "
                         (fmt_errors (Any_writes ds (replicate n None)))
              /\ forall i e, Fail i e ∈ ds -> occurs_in (error_string e) msg).
  { intros remaining s Hs. eexists. split; [|split; [reflexivity|]].
    - unfold reject_errors. by rewrite Hs.
    - intros i e Hin. apply occurs_in_append_l.
      apply (fmt_errors_mentions _ i). by apply Hlookup. }
  assert (Hlen' : length (Any_writes ds (replicate n None)) = n)
    by (by rewrite Any_writes_length, length_replicate).
  pose proof (delivered_once_length _ _ Hwf) as Hlen.
  destruct (first_Fulfil_split ds) as [Hall | (pre & i & v & post & Hds & Hpre)].
  - eexists _, _, _. split.
    { unfold Any_env. apply Any_feed_fails; [done|].
      rewrite length_replicate. apply Hwf. }
    split; [|split; [|split; [|split; [done|split; [done|apply Hmsg]]]]].
    + intros pre i v post -> _. exfalso.
      rewrite Forall_forall in Hall.
      specialize (Hall (Fulfil i v)). rewrite elem_of_app, elem_of_cons in Hall.
      by discriminate Hall; auto.
    + destruct (_ && _); simpl; lia.
    + destruct (Z.leb_spec 1 (Z.of_nat n)); [|lia].
      destruct (Z.leb_spec (Z.of_nat n) (Z.of_nat (length ds))); cbn [andb]; split.
      * intros _ j Hj.
        destruct (delivered_once_full n ds j Hwf) as ([k v|k e] & Hin & Hk);
          [lia|done| |].
        -- rewrite Forall_forall in Hall. by specialize (Hall _ Hin).
        -- simpl in Hk. subst k. eauto.
      * intros _. apply list_elem_of_singleton. done.
      * by intros ?%elem_of_nil.
      * intros Hev. exfalso.
        assert (length ds = n); [|lia].
        apply delivered_once_covering; [done|].
        intros j Hj. destruct (Hev j Hj) as (e & Hin). by exists (Fail j e).
  - destruct (Any_feed_first_fulfilment agg n pre post i v) as (r' & Hf);
      [by rewrite <- Hds|done|].
    rewrite <- Hds in Hf.
    eexists _, _, _. split; [exact Hf|].
    split; [|split; [|split; [|split; [done|split; [done|apply Hmsg]]]]].
    + intros pre' i' v' post' Hds' Hpre'. by eapply Hfirst.
    + simpl. lia.
    + split.
      * intros Hin. apply list_elem_of_singleton in Hin. done.
      * intros Hev. exfalso.
        assert (Hi : (i < n)%nat).
        { destruct Hwf as [Hr _]. rewrite Forall_forall in Hr.
          apply (Hr (Fulfil i v)). rewrite Hds, elem_of_app, elem_of_cons. auto. }
        destruct (Hev i Hi) as (e & Hin).
        assert (Hin' : Fulfil i v ∈ ds).
        { rewrite Hds, elem_of_app, elem_of_cons. auto. }
        by pose proof (delivered_once_unique n ds _ _ Hwf Hin Hin' eq_refl).
Qed.
(** ** Combinators register on their inputs *)

Lemma attach_registers onThen onCatch (promises : list pid) (idx : nat) (p : pid) :
  promises !! idx = Some p ->
  IRegThen p (onThen idx) ∈ attach onThen onCatch promises
  /\ IRegCatch p (onCatch idx) ∈ attach onThen onCatch promises.
Proof.
  unfold attach. revert onThen onCatch idx.
  induction promises as [|q promises IH]; intros onThen onCatch [|idx] Hp;
    simplify_eq/=.
  - split; [apply list_elem_of_here|apply list_elem_of_further, list_elem_of_here].
  - destruct (IH (onThen ∘ S) (onCatch ∘ S) idx Hp) as [H1 H2].
    split; by do 2 apply list_elem_of_further.
Qed.

(** C10.  Each combinator, given a list that has [p] at index [idx],
    calls [p.Then] and [p.Catch] with closures of its own; [Then] and
    [Catch] store what they are given whatever the field held; and from
    a state in which no goroutine is going to register on [p] again, the
    fields of [p] stay as they are and every observer invoked on [p] is
    the one its field holds: with the combinator's closures in place, no
    observer the caller had attached is invoked any more. *)
Theorem combinator_replaces_observers (s : state) (promises : list pid) (agg : pid)
    (idx : nat) (p : pid) (pr : Promise) :
  promises !! idx = Some p ->
  heap s !! p = Some pr ->
  (IRegThen p (HAllThen agg idx) ∈ All promises agg
   /\ IRegCatch p (HAllCatch agg) ∈ All promises agg)
  /\ (IRegThen p (HRaceThen agg) ∈ Race promises agg
      /\ IRegCatch p (HRaceCatch agg) ∈ Race promises agg)
  /\ (IRegThen p (HAllSettledThen agg idx) ∈ AllSettled promises agg
      /\ IRegCatch p (HAllSettledCatch agg idx) ∈ AllSettled promises agg)
  /\ (IRegThen p (HAnyThen agg) ∈ Any promises agg
      /\ IRegCatch p (HAnyCatch agg idx) ∈ Any promises agg)
  /\ (forall h, then_ <$> heap (Then p h s) !! p = Some (Some h))
  /\ (forall h, catch_ <$> heap (Catch p h s) !! p = Some (Some h))
  /\ (pending (touches p) s = 0%nat ->
      forall sched, slots_frozen p pr (trace s) (run sched s)).
Proof.
  intros Hidx Hp.
  assert (Hlt : (p < length (heap s))%nat) by (by eapply lookup_lt_Some).
  assert (Hne : (length promises =? 0)%nat = false).
  { apply Nat.eqb_neq. apply lookup_lt_Some in Hidx. lia. }
  split.
  { unfold All. rewrite Hne.
    split; apply list_elem_of_further;
      apply (attach_registers (HAllThen agg) (fun _ => HAllCatch agg) _ _ _ Hidx). }
  split.
  { unfold Race. rewrite Hne.
    split; apply list_elem_of_further;
      apply (attach_registers (fun _ => HRaceThen agg) (fun _ => HRaceCatch agg)
               _ _ _ Hidx). }
  split.
  { unfold AllSettled. rewrite Hne.
    split; apply list_elem_of_further;
      apply (attach_registers (HAllSettledThen agg) (HAllSettledCatch agg) _ _ _ Hidx). }
  split.
  { unfold Any. rewrite Hne.
    split; apply list_elem_of_further;
      apply (attach_registers (fun _ => HAnyThen agg) (HAnyCatch agg) _ _ _ Hidx). }
  split.
  { intros h. unfold Then. rewrite Hp. simpl. by rewrite list_lookup_insert_eq. }
  split.
  { intros h. unfold Catch. rewrite Hp. simpl. by rewrite list_lookup_insert_eq. }
  intros Hq sched. by apply run_slots_frozen.
Qed.

(** ** Race *)

Lemma Race_feed_settled (agg : pid) (ds : list delivery) :
  feed (Race_region agg) ds (RaceEnv true) = Some (RaceEnv true, []).
Proof.
  induction ds as [|[i v|i e] ds IH]; [done| |];
    cbn [feed Race_region region_of locked_then locked_catch Race_Then Race_Catch negb];
    fold (Race_region agg); by rewrite IH.
Qed.

(** X1.  [Race] of a non-empty list declares its flag and attaches its
    two closures to every input.  Whatever settlements those closures
    then receive, from whichever inputs, in whatever order and however
    often: the first one is passed on to the aggregate as it is, a
    fulfilment by [resolve] with its value, a failure by [reject] with
    its error, and none of the later ones makes a call. *)
Theorem Race_first_delivery_wins (agg : pid) (promises : list pid) (d : delivery)
    (ds : list delivery) :
  promises <> [] ->
  Race promises agg
  = IMake agg Race_env :: attach (fun _ => HRaceThen agg) (fun _ => HRaceCatch agg) promises
  /\ feed (Race_region agg) (d :: ds) Race_env = Some (RaceEnv true, [pass_on agg d]).
Proof.
  intros Hne. split.
  { unfold Race. by destruct promises. }
  destruct d as [i v|i e];
    cbn [feed Race_region region_of locked_then locked_catch Race_Then Race_Catch
         Race_env negb];
    fold (Race_region agg); by rewrite Race_feed_settled.
Qed.

(** ** Settling at most once *)

Lemma All_feed_once (agg : pid) (ds : list delivery) (results : list value)
    (remaining : Z) :
  Forall (fun d => (delivery_idx d < length results)%nat) ds ->
  exists env calls,
    feed (All_region agg) ds (AllEnv results remaining) = Some (env, calls)
    /\ (length calls <= if remaining >? 0 then 1 else 0)%nat.
Proof.
  revert results remaining.
  induction ds as [|d ds IH]; intros results remaining Hr.
  - eexists _, _. split; [done|]. simpl. case_match; lia.
  - apply Forall_cons in Hr as [Hi Hr]. destruct d as [i v|i e]; simpl in Hi.
    + cbn [feed All_region region_of locked_then All_Then].
      apply Nat.ltb_lt in Hi as Hi'. rewrite Hi'. fold (All_region agg).
      destruct (IH (<[i:=v]> results) (remaining - 1)) as (env & calls & Hf & Hlen);
        [by rewrite length_insert|].
      destruct (Z.eqb_spec (remaining - 1) 0) as [E|E]; rewrite Hf;
        eexists _, _; (split; [done|]).
      all: destruct (Z.gtb_spec (remaining - 1) 0), (Z.gtb_spec remaining 0);
        simpl in *; lia.
    + cbn [feed All_region region_of locked_catch All_Catch]. fold (All_region agg).
      destruct (Z.gtb_spec remaining 0) as [E|E].
      * destruct (IH results 0) as (env & calls & -> & Hlen); [done|].
        eexists _, _. split; [done|]. simpl in *. lia.
      * destruct (IH results remaining) as (env & calls & -> & Hlen); [done|].
        eexists _, _. split; [done|]. destruct (Z.gtb_spec remaining 0); simpl in *; lia.
Qed.

Lemma AllSettled_feed_once (agg : pid) (ds : list delivery) (results : list PromiseResult)
    (remaining : Z) :
  Forall (fun d => (delivery_idx d < length results)%nat) ds ->
  exists env calls,
    feed (AllSettled_region agg) ds (AllSettledEnv results remaining) = Some (env, calls)
    /\ (length calls <= if remaining >? 0 then 1 else 0)%nat
    /\ Forall (fun c => c = IResolve agg (VResults agg)) calls.
Proof.
  intros Hr. rewrite (AllSettled_feed agg ds results remaining Hr).
  eexists _, _. split; [done|].
  destruct (Z.leb_spec 1 remaining), (Z.leb_spec remaining (Z.of_nat (length ds))),
    (Z.gtb_spec remaining 0); simpl; repeat split; try lia; by repeat constructor.
Qed.

Lemma Any_feed_once (agg : pid) (ds : list delivery) (errors : list error)
    (remaining : Z) :
  Forall (fun d => (delivery_idx d < length errors)%nat) ds ->
  exists env calls,
    feed (Any_region agg) ds (AnyEnv remaining errors) = Some (env, calls)
    /\ (length calls <= if remaining >? 0 then 1 else 0)%nat.
Proof.
  revert errors remaining.
  induction ds as [|d ds IH]; intros errors remaining Hr.
  - eexists _, _. split; [done|]. simpl. case_match; lia.
  - apply Forall_cons in Hr as [Hi Hr]. destruct d as [i v|i e]; simpl in Hi.
    + cbn [feed Any_region region_of locked_then Any_Then]. fold (Any_region agg).
      destruct (Z.gtb_spec remaining 0) as [E|E].
      * destruct (IH errors 0) as (env & calls & -> & Hlen); [done|].
        eexists _, _. split; [done|]. simpl in *. lia.
      * destruct (IH errors remaining) as (env & calls & -> & Hlen); [done|].
        eexists _, _. split; [done|]. destruct (Z.gtb_spec remaining 0); simpl in *; lia.
    + cbn [feed Any_region region_of locked_catch Any_Catch].
      apply Nat.ltb_lt in Hi as Hi'. rewrite Hi'. fold (Any_region agg).
      destruct (IH (<[i:=e]> errors) (remaining - 1)) as (env & calls & Hf & Hlen);
        [by rewrite length_insert|].
      destruct (Z.eqb_spec (remaining - 1) 0) as [E|E]; rewrite Hf;
        eexists _, _; (split; [done|]).
      all: destruct (Z.gtb_spec (remaining - 1) 0), (Z.gtb_spec remaining 0);
        simpl in *; lia.
Qed.

(** X2.  Whatever settlements the closures of [All], [AllSettled] and
    [Any] over [n] inputs receive, in whatever order and however often
    from the same input: no region panics, the closures make at most one
    call on the aggregate, and those of [AllSettled] never call
    [reject]. *)
Theorem aggregate_settles_at_most_once (agg : pid) (n : nat) (ds : list delivery) :
  Forall (fun d => (delivery_idx d < n)%nat) ds ->
  (exists env calls,
      feed (All_region agg) ds (All_env n) = Some (env, calls)
      /\ (length calls <= 1)%nat)
  /\ (exists env calls,
        feed (AllSettled_region agg) ds (AllSettled_env n) = Some (env, calls)
        /\ (length calls <= 1)%nat
        /\ Forall (fun c => c = IResolve agg (VResults agg)) calls)
  /\ (exists env calls,
        feed (Any_region agg) ds (Any_env n) = Some (env, calls)
        /\ (length calls <= 1)%nat).
Proof.
  intros Hr. split; [|split].
  - destruct (All_feed_once agg ds (replicate n (VElem zero_value)) (Z.of_nat n))
      as (env & calls & Hf & Hlen); [by rewrite length_replicate|].
    exists env, calls. split; [done|]. case_match; lia.
  - destruct (AllSettled_feed_once agg ds
                (replicate n {| Value := VElem zero_value; Error := None;
                                Fulfilled := false |}) (Z.of_nat n))
      as (env & calls & Hf & Hlen & Hres); [by rewrite length_replicate|].
    exists env, calls. split; [done|]. split; [case_match; lia|done].
  - destruct (Any_feed_once agg ds (replicate n None) (Z.of_nat n))
      as (env & calls & Hf & Hlen); [by rewrite length_replicate|].
    exists env, calls. split; [done|]. case_match; lia.
Qed.

(** ** Registering and settling *)

Lemma Then_allocated (s : state) (p : pid) (pr : Promise) (h : then_handler) :
  heap s !! p = Some pr ->
  Then p h s
  = with_heap (<[p := {| then_ := Some h; catch_ := catch_ pr;
                         finally_ := finally_ pr |}]> (heap s)) s.
Proof. intros Hp. unfold Then. by rewrite Hp. Qed.

Lemma Catch_allocated (s : state) (p : pid) (pr : Promise) (c : catch_handler) :
  heap s !! p = Some pr ->
  Catch p c s
  = with_heap (<[p := {| then_ := then_ pr; catch_ := Some c;
                         finally_ := finally_ pr |}]> (heap s)) s.
Proof. intros Hp. unfold Catch. by rewrite Hp. Qed.

(** X3.  [Catch] stores its handler in the [catch] field of its receiver,
    whatever was there, so [Catch(c1)] followed by [Catch(c2)] is
    [Catch(c2)]; [Then] and [Catch] on one promise can be called in
    either order; none of [Then], [Catch], [Finally] on another promise
    changes this one; and registering starts no goroutine, leaves the
    WaitGroup counter alone and invokes nothing. *)
Theorem registrations_compose (s : state) (p : pid) (pr : Promise) :
  heap s !! p = Some pr ->
  (forall c,
      heap (Catch p c s) !! p
      = Some {| then_ := then_ pr; catch_ := Some c; finally_ := finally_ pr |})
  /\ (forall c1 c2, Catch p c2 (Catch p c1 s) = Catch p c2 s)
  /\ (forall h c, Then p h (Catch p c s) = Catch p c (Then p h s))
  /\ (forall q h c f,
        q <> p ->
        heap (Then q h s) !! p = Some pr
        /\ heap (Catch q c s) !! p = Some pr
        /\ heap (Finally q f s) !! p = Some pr)
  /\ (forall h c f s',
        s' = Then p h s \/ s' = Catch p c s \/ s' = Finally p f s ->
        pool s' = pool s /\ wg s' = wg s /\ trace s' = trace s
        /\ panicked s' = panicked s).
Proof.
  intros Hp.
  assert (Hlt : (p < length (heap s))%nat) by (by eapply lookup_lt_Some).
  split; [|split; [|split; [|split]]].
  - intros c. unfold Catch. rewrite Hp. simpl. by rewrite list_lookup_insert_eq.
  - intros c1 c2. unfold Catch at 2. rewrite Hp. unfold Catch. simpl.
    rewrite list_lookup_insert_eq by done. unfold with_heap. simpl.
    rewrite Hp. by rewrite list_insert_insert_eq.
  - intros h c.
    rewrite (Catch_allocated s p pr c Hp), (Then_allocated s p pr h Hp).
    erewrite Then_allocated by (simpl; by apply list_lookup_insert_eq).
    erewrite Catch_allocated by (simpl; by apply list_lookup_insert_eq).
    unfold with_heap. simpl. by rewrite !list_insert_insert_eq.
  - intros q h c f Hne. unfold Then, Catch, Finally.
    destruct (heap s !! q) as [qr|]; simpl; [|done].
    by rewrite !list_lookup_insert_ne.
  - intros h c f s' [-> | [-> | ->]]; unfold Then, Catch, Finally; by rewrite Hp.
Qed.

(** X4.  The goroutine that [resolve] starts reads [p.then] when it
    runs.  If the caller replaces the success-observer after [resolve]
    has been called and before that goroutine runs, it is the new
    observer that is invoked with the value, and the goroutine goes on
    with its body and then [wg.Done()]; the same holds for [reject],
    [Catch] and the failure-observer. *)
Theorem observer_is_read_when_it_runs (s : state) (p : pid) (pr : Promise) :
  panicked s = false ->
  heap s !! p = Some pr ->
  let g := length (pool s) in
  (forall h1 h2 v,
      then_ pr = Some h1 ->
      exists s3,
        step g (Then p h2 (resolve p v s)) = Some s3
        /\ trace s3 = trace s ++ [EResolve p v; EThen p h2 v]
        /\ pool s3 !! g = Some (call_then h2 v ++ [IDone]))
  /\ (forall c1 c2 e,
        catch_ pr = Some c1 ->
        exists s3,
          step g (Catch p c2 (reject p e s)) = Some s3
          /\ trace s3 = trace s ++ [EReject p e; ECatch p c2 e]
          /\ pool s3 !! g = Some (call_catch c2 e ++ [IDone])).
Proof.
  intros Hlive Hp g.
  assert (Hlt : (p < length (heap s))%nat) by (by eapply lookup_lt_Some).
  split.
  - intros h1 h2 v Hh. eexists. split.
    + unfold resolve. simpl. rewrite Hp, Hh. unfold Then. simpl. rewrite Hp.
      unfold step. simpl. rewrite Hlive.
      rewrite list_lookup_middle by done. reflexivity.
    + unfold observe. simpl. rewrite list_lookup_insert_eq by done. simpl.
      unfold push. simpl.
      rewrite list_lookup_insert_eq by (rewrite length_app; simpl; lia).
      simpl. split; [by rewrite <- app_assoc|].
      rewrite list_insert_insert_eq.
      by rewrite list_lookup_insert_eq by (rewrite length_app; simpl; lia).
  - intros c1 c2 e Hc. eexists. split.
    + unfold reject. simpl. rewrite Hp, Hc. unfold Catch. simpl. rewrite Hp.
      unfold step. simpl. rewrite Hlive.
      rewrite list_lookup_middle by done. reflexivity.
    + unfold observe. simpl. rewrite list_lookup_insert_eq by done. simpl.
      unfold push. simpl.
      rewrite list_lookup_insert_eq by (rewrite length_app; simpl; lia).
      simpl. split; [by rewrite <- app_assoc|].
      rewrite list_insert_insert_eq.
      by rewrite list_lookup_insert_eq by (rewrite length_app; simpl; lia).
Qed.

(** ** The completion tracker *)

Ltac zero_bodies f Hb He :=
  repeat match goal with
  | |- context [tally f (call_then ?h ?v)] =>
      rewrite (tally_zero f _ _ Hb (call_then_body h v))
  | |- context [tally f (call_catch ?h ?v)] =>
      rewrite (tally_zero f _ _ Hb (call_catch_body h v))
  | |- context [tally f (call_fin ?h)] =>
      rewrite (tally_zero f _ _ Hb (call_fin_body h))
  | |- context [tally f (user_executor ?a ?p)] =>
      rewrite (tally_zero f _ _ Hb (user_executor_body a p))
  | |- context [tally f (All ?a ?p)] =>
      rewrite (tally_zero f _ _ (He a) (All_in_executor a p))
  | |- context [tally f (Race ?a ?p)] =>
      rewrite (tally_zero f _ _ (He a) (Race_in_executor a p))
  | |- context [tally f (AllSettled ?a ?p)] =>
      rewrite (tally_zero f _ _ (He a) (AllSettled_in_executor a p))
  | |- context [tally f (Any ?a ?p)] =>
      rewrite (tally_zero f _ _ (He a) (Any_in_executor a p))
  | Hh : locked_then _ _ = Some (_, ?body), Hx : ?body _ = Some (_, ?calls)
    |- context [tally f ?calls] =>
      rewrite (tally_zero f _ _ Hb (locked_then_body _ _ _ _ _ _ _ Hh Hx))
  | Hh : locked_catch _ _ = Some (_, ?body), Hx : ?body _ = Some (_, ?calls)
    |- context [tally f ?calls] =>
      rewrite (tally_zero f _ _ Hb (locked_catch_body _ _ _ _ _ _ _ Hh Hx))
  end.

Lemma in_body_not_IDone (ins : instr) : in_body ins = true -> is_IDone ins = false.
Proof. by destruct ins. Qed.

Lemma in_executor_not_IDone (promises : list pid) (ins : instr) :
  in_executor promises ins -> is_IDone ins = false.
Proof. by destruct ins. Qed.

Lemma in_body_not_IObserve (ins : instr) : in_body ins = true -> is_IObserve ins = false.
Proof. by destruct ins. Qed.

Lemma in_executor_not_IObserve (promises : list pid) (ins : instr) :
  in_executor promises ins -> is_IObserve ins = false.
Proof. by destruct ins. Qed.

Lemma step_wg_accounted (i : nat) (s s' : state) :
  wg_accounted s -> step i s = Some s' -> wg_accounted s'.
Proof.
  unfold wg_accounted, finished, started, pending.
  intros [Hb Ha] (ins & k & Hlive & Hi & He)%step_inv.
  specialize (Ha Hlive).
  pose proof (tally_concat_insert is_IDone _ _ _ k Hi) as Hk1.
  pose proof (tally_concat_insert is_IObserve _ _ _ k Hi) as Hk2.
  simpl in Hk1, Hk2.
  destruct ins as [[]| | | | | | | |? []| | | | | |]; unfold_ops; simpl in *;
    repeat case_match; simplify_eq/=.
  all: rewrite ?length_app, ?length_insert, ?tally_app, ?concat_app, ?tally_app;
    simpl; rewrite ?app_nil_r, ?tally_app.
  all: name_pools; rewrite ?tally_app.
  all: zero_bodies is_IDone in_body_not_IDone in_executor_not_IDone.
  all: zero_bodies is_IObserve in_body_not_IObserve in_executor_not_IObserve.
  all: simpl; intros; (split; [lia|intros ?; try done; lia]).
Qed.

(** X5.  In every state a caller's program can reach, the WaitGroup
    counter is between zero and the number of promises created; unless
    the process has panicked it is exactly the number of promises
    created minus the number of observer goroutines that have called
    [wg.Done()], so [WaitForPromises] can return exactly when as many
    observer goroutines have finished as promises were created. *)
Theorem WaitGroup_counts_unfinished (main : list api) (sched : list nat) :
  let s := run sched (start main) in
  0 <= wg s <= Z.of_nat (length (heap s))
  /\ (panicked s = false ->
      wg s = Z.of_nat (length (heap s)) - finished s
      /\ (is_Some (WaitForPromises s) <-> finished s = Z.of_nat (length (heap s)))).
Proof.
  intros s.
  assert (Hs : wg_accounted s).
  { apply run_invariant; [apply step_wg_accounted|].
    unfold wg_accounted, finished, started, pending. simpl.
    rewrite app_nil_r.
    rewrite (tally_zero is_IObserve (fun ins => exists op, ins = ICall op));
      [|by intros ? [op ->]|].
    2: { pose proof (main_calls main) as Hm. simpl in Hm. by rewrite app_nil_r in Hm. }
    rewrite (tally_zero is_IDone (fun ins => exists op, ins = ICall op));
      [|by intros ? [op ->]|].
    2: { pose proof (main_calls main) as Hm. simpl in Hm. by rewrite app_nil_r in Hm. }
    split; [lia|]. intros _. lia. }
  destruct Hs as [Hb Ha]. split; [done|].
  intros Hlive. specialize (Ha Hlive). split; [done|].
  unfold WaitForPromises. destruct (Z.eqb_spec (wg s) 0) as [E|E]; split.
  - intros _. lia.
  - intros _. by eexists.
  - by intros [? [=]].
  - intros Hf. lia.
Qed.

(** ** Finally after Then and Catch *)

Lemma step_observers_then_Finally (a : action) (h c f : hid) (k i : nat) (s' : state) :
  step i (observers_then_Finally_stage a h c f k) = Some s' ->
  s' = observers_then_Finally_stage a h c f (S k).
Proof.
  destruct a; destruct k as [|[|[|[|[|k]]]]]; destruct i as [|[|[|i]]]; simpl; try done.
  all: by intros [= <-].
Qed.

Lemma run_observers_then_Finally (a : action) (h c f : hid) (sched : list nat) (k : nat) :
  exists k', run sched (observers_then_Finally_stage a h c f k)
             = observers_then_Finally_stage a h c f k'.
Proof.
  revert k. induction sched as [|i sched IH]; intros k; simpl; [by exists k|].
  destruct (step i (observers_then_Finally_stage a h c f k)) as [s'|] eqn:Hs; simpl.
  - rewrite (step_observers_then_Finally _ _ _ _ _ _ _ Hs). apply IH.
  - apply IH.
Qed.

(** X6.  [Finally] leaves both observer fields of its receiver non-nil,
    whatever they were: each new observer runs the body of the old one,
    if there was one, and then the handler given to [Finally].  In the
    program that attaches [Then(h)], [Catch(c)] and then [Finally(f)] to
    a promise whose executor makes one call, whatever is scheduled after
    the caller's statements: on [resolve] the success-observer is
    invoked, [h] runs, then [f]; on [reject] the failure-observer is
    invoked, [c] runs, then [f]; on [finally] nothing is invoked, the
    completion-observer being nil; nothing else ever happens.  When all
    goroutines have run, the counter is back to zero after [resolve] or
    [reject], and still at 1 after [finally]. *)
Theorem Finally_runs_after_the_observer (s : state) (p : pid) (pr : Promise) (f : hid) :
  heap s !! p = Some pr ->
  (exists t c,
      heap (Finally p (HFinally f) s) !! p
      = Some {| then_ := Some t; catch_ := Some c; finally_ := finally_ pr |}
      /\ (forall v, call_then t v
                    = from_option (fun h => call_then h v) [] (then_ pr)
                      ++ [IUserFinally f])
      /\ (forall e, call_catch c e
                    = from_option (fun h => call_catch h e) [] (catch_ pr)
                      ++ [IUserFinally f]))
  /\ (forall a h c sched,
        trace (run ([0; 0; 0; 0]%nat ++ sched) (start (observers_then_Finally a h c f)))
          `prefix_of` Finally_outcome a h c f)
  /\ (forall a h c,
        let s' := run [0; 0; 0; 0; 1; 2; 2; 2; 2]%nat
                    (start (observers_then_Finally a h c f)) in
        trace s' = Finally_outcome a h c f
        /\ wg s' = match a with CallFinally => 1 | _ => 0 end).
Proof.
  intros Hp.
  assert (Hlt : (p < length (heap s))%nat) by (by eapply lookup_lt_Some).
  split; [|split].
  - unfold Finally. rewrite Hp. simpl. rewrite list_lookup_insert_eq by done.
    eexists _, _. split; [done|].
    split; intros; by destruct (then_ pr), (catch_ pr).
  - intros a h c sched. rewrite run_app.
    assert (Hs : run [0; 0; 0; 0]%nat (start (observers_then_Finally a h c f))
                 = observers_then_Finally_stage a h c f 0) by (by destruct a).
    rewrite Hs.
    destruct (run_observers_then_Finally a h c f sched 0) as (k & ->).
    assert (Ht : trace (observers_then_Finally_stage a h c f k)
                 = take k (Finally_outcome a h c f)).
    { by destruct a; destruct k as [|[|[|[|[|k]]]]]. }
    rewrite Ht. apply prefix_take.
  - intros a h c. by destruct a.
Qed.

(** ** Waiting for an observed promise *)

Lemma step_Then_and_wait (v : T) (h : hid) (k i : nat) (s' : state) :
  step i (Then_and_wait_stage v h k) = Some s' ->
  exists k', s' = Then_and_wait_stage v h k'.
Proof.
  destruct k as [|[|[|[|[|[|[|[|[|k]]]]]]]]]; destruct i as [|[|[|i]]];
    simpl; try done; intros [= <-].
  - by exists 1%nat.
  - by exists 3%nat.
  - by exists 2%nat.
  - by exists 4%nat.
  - by exists 5%nat.
  - by exists 6%nat.
  - by exists 7%nat.
  - by exists 8%nat.
  - by exists 9%nat.
Qed.

Lemma run_Then_and_wait (v : T) (h : hid) (sched : list nat) (k : nat) :
  exists k', run sched (Then_and_wait_stage v h k) = Then_and_wait_stage v h k'.
Proof.
  revert k. induction sched as [|i sched IH]; intros k; simpl; [by exists k|].
  destruct (step i (Then_and_wait_stage v h k)) as [s'|] eqn:Hs; simpl; [|apply IH].
  destruct (step_Then_and_wait _ _ _ _ _ Hs) as (k' & ->). apply IH.
Qed.

(** X7.  In the program that creates a resolving promise, attaches
    [Then(h)] and calls [WaitForPromises], on every schedule:
    [WaitForPromises] has not returned, or everything that has happened
    is the call of [resolve], the invocation of the success-observer,
    the run of [h] with the value, and then the return, in this order.
    So the wait returns only after [h] has run, exactly once; and if the
    executor resolves before the caller has attached, it never returns. *)
Theorem WaitForPromises_returns_after_the_handler (v : T) (h : hid) (sched : list nat) :
  let s := run sched (start (Then_and_wait v h)) in
  (tally is_EReturned (trace s) = 0%nat \/ trace s = Then_and_wait_outcome v h)
  /\ (forall sched',
        tally is_EReturned
          (trace (run ([0; 1]%nat ++ sched') (start (Then_and_wait v h)))) = 0%nat)
  /\ trace (run [0; 0; 1; 2; 2; 2; 0]%nat (start (Then_and_wait v h)))
     = Then_and_wait_outcome v h.
Proof.
  intros s. split; [|split].
  - destruct (run_Then_and_wait v h sched 0) as (k & Hk).
    subst s. change (start (Then_and_wait v h)) with (Then_and_wait_stage v h 0).
    rewrite Hk.
    destruct k as [|[|[|[|[|[|[|[|[|k]]]]]]]]]; simpl; auto.
  - intros sched'. rewrite run_app.
    change (run [0; 1]%nat (start (Then_and_wait v h)))
      with (Then_and_wait_stage v h 2).
    assert (Hlost : forall sched k, (k = 2 \/ k = 4)%nat ->
              exists k', (k' = 2 \/ k' = 4)%nat
                /\ run sched (Then_and_wait_stage v h k) = Then_and_wait_stage v h k').
    { clear. intros sched. induction sched as [|i sched IH]; intros k Hk; simpl.
      { by exists k. }
      destruct Hk as [-> | ->]; destruct i as [|[|[|i]]]; simpl;
        first [apply (IH 2%nat); auto; fail | apply (IH 4%nat); auto]. }
    destruct (Hlost sched' 2%nat) as (k' & [-> | ->] & ->); auto.
  - reflexivity.
Qed.

(** ** The loop of an executor *)

Lemma run_cons (i : nat) (sched : list nat) (s : state) :
  run (i :: sched) s = run sched (default s (step i s)).
Proof. done. Qed.

Lemma step_IRegThen (s : state) (i : nat) (p : pid) (h : then_handler) (k : list instr) :
  panicked s = false -> pool s !! i = Some (IRegThen p h :: k) ->
  step i s = Some (Then p h (with_pool (<[i := k]> (pool s)) s)).
Proof. intros Hlive Hi. unfold step. by rewrite Hlive, Hi. Qed.

Lemma step_IRegCatch (s : state) (i : nat) (p : pid) (c : catch_handler) (k : list instr) :
  panicked s = false -> pool s !! i = Some (IRegCatch p c :: k) ->
  step i s = Some (Catch p c (with_pool (<[i := k]> (pool s)) s)).
Proof. intros Hlive Hi. unfold step. by rewrite Hlive, Hi. Qed.

(** One turn of the loop: [p.Then(h).Catch(c)]. *)
Lemma run_attach_turn (s : state) (i : nat) (p : pid) (pr : Promise)
    (h : then_handler) (c : catch_handler) (k : list instr) :
  panicked s = false ->
  pool s !! i = Some (IRegThen p h :: IRegCatch p c :: k) ->
  heap s !! p = Some pr ->
  run [i; i] s
  = with_heap (<[p := {| then_ := Some h; catch_ := Some c; finally_ := finally_ pr |}]>
                 (heap s))
      (with_pool (<[i := k]> (pool s)) s).
Proof.
  intros Hlive Hi Hp.
  assert (Hlt : (p < length (heap s))%nat) by (by eapply lookup_lt_Some).
  assert (Hil : (i < length (pool s))%nat) by (by eapply lookup_lt_Some).
  rewrite run_cons, (step_IRegThen s i p h _ Hlive Hi). cbn [default].
  rewrite (Then_allocated _ p pr h) by done.
  rewrite run_cons. erewrite step_IRegCatch; [|done|].
  2: { cbn. by apply list_lookup_insert_eq. }
  cbn [default run]. erewrite Catch_allocated.
  2: { cbn. by apply list_lookup_insert_eq. }
  unfold with_heap, with_pool. cbn.
  by rewrite !list_insert_insert_eq.
Qed.

Lemma attach_cons onThen onCatch (p : pid) (promises : list pid) :
  attach onThen onCatch (p :: promises)
  = IRegThen p (onThen 0%nat) :: IRegCatch p (onCatch 0%nat)
    :: attach (onThen ∘ S) (onCatch ∘ S) promises.
Proof. done. Qed.

(** X8.  When the loop of a combinator's executor runs undisturbed over
    inputs that exist, it only registers: it starts nothing, and leaves
    the counter, the trace and every promise outside the list alone.
    Afterwards each input holds the closures made for the last index at
    which it occurs in the list; an input passed twice has lost the
    closures of its first occurrence. *)
Theorem attach_last_registration_wins (s : state) (i : nat)
    (onThen : nat -> then_handler) (onCatch : nat -> catch_handler)
    (promises : list pid) (rest : list instr) :
  panicked s = false ->
  pool s !! i = Some (attach onThen onCatch promises ++ rest) ->
  Forall (fun p => (p < length (heap s))%nat) promises ->
  let s' := run (replicate (2 * length promises) i) s in
  pool s' = <[i := rest]> (pool s)
  /\ panicked s' = false /\ wg s' = wg s /\ trace s' = trace s
  /\ (forall idx p,
        promises !! idx = Some p ->
        (forall j, (idx < j)%nat -> promises !! j <> Some p) ->
        exists pr, heap s' !! p = Some pr
                   /\ then_ pr = Some (onThen idx) /\ catch_ pr = Some (onCatch idx))
  /\ (forall q, q ∉ promises -> heap s' !! q = heap s !! q).
Proof.
  revert s onThen onCatch.
  induction promises as [|p promises IH]; intros s onThen onCatch Hlive Hi Hr s'.
  - subst s'. simpl in *. split; [by rewrite list_insert_id|].
    repeat split; try done. all: intros idx p Hp; by rewrite lookup_nil in Hp.
  - apply Forall_cons in Hr as [Hp Hr].
    destruct (lookup_lt_is_Some_2 (heap s) p Hp) as (pr & Hpr).
    assert (Hil : (i < length (pool s))%nat) by (by eapply lookup_lt_Some).
    rewrite attach_cons in Hi. simpl in Hi.
    assert (Hs' : s' = run (replicate (2 * length promises) i) (run [i; i] s)).
    { subst s'. rewrite <- run_app. f_equal. simpl.
      replace (length promises + S (length promises + 0))%nat
        with (S (2 * length promises)) by lia. done. }
    rewrite (run_attach_turn s i p pr _ _ _ Hlive Hi Hpr) in Hs'.
    set (s1 := with_heap _ _) in Hs'.
    destruct (IH s1 (onThen ∘ S) (onCatch ∘ S)) as (Hpool & Hlive' & Hwg & Htr & Hlast & Hframe).
    { done. }
    { subst s1. cbn. by apply list_lookup_insert_eq. }
    { subst s1. cbn. by rewrite length_insert. }
    rewrite <- Hs' in *. clear Hs'.
    split. { rewrite Hpool. subst s1. cbn. by rewrite list_insert_insert_eq. }
    split; [done|]. split; [done|]. split; [done|]. split.
    + intros [|idx] q Hq Hlater; simplify_eq/=.
      * assert (Hnot : q ∉ promises).
        { intros (j & Hj)%list_elem_of_lookup. by apply (Hlater (S j)); [lia|]. }
        rewrite (Hframe q Hnot). subst s1. cbn.
        rewrite list_lookup_insert_eq by done. by eexists.
      * apply (Hlast idx q Hq). intros j Hj. apply (Hlater (S j)). lia.
    + intros q [Hne Hnot]%not_elem_of_cons.
      rewrite (Hframe q Hnot). subst s1. cbn. by apply list_lookup_insert_ne.
Qed.


(** ** Programs that keep the executor contract never panic *)

Lemma same_shape_refl (env : closure) : same_shape env env = true.
Proof. destruct env; simpl; try done; apply Nat.eqb_refl. Qed.

Lemma heap_grows_refl (hp : list Promise) : heap_grows hp hp.
Proof. by split. Qed.

Lemma envs_grow_refl (m : gmap pid closure) : envs_grow m m.
Proof. intros agg env ->. apply same_shape_refl. Qed.

Lemma envs_grow_declare (m : gmap pid closure) (agg : pid) (env : closure) :
  m !! agg = None -> envs_grow m (<[agg := env]> m).
Proof.
  intros Hn a e He. destruct (decide (a = agg)) as [->|Hne]; [congruence|].
  rewrite lookup_insert_ne by done. rewrite He. apply same_shape_refl.
Qed.

Lemma envs_grow_update (m : gmap pid closure) (agg : pid) (env env' : closure) :
  m !! agg = Some env -> same_shape env env' = true -> envs_grow m (<[agg := env']> m).
Proof.
  intros Hs Hsh a e He. destruct (decide (a = agg)) as [->|Hne].
  - rewrite lookup_insert_eq. congruence.
  - rewrite lookup_insert_ne by done. rewrite He. apply same_shape_refl.
Qed.

Lemma envs_grow_insert (m m' : gmap pid closure) (agg : pid) (env : closure) :
  envs_grow m m' -> envs_grow (<[agg := env]> m) (<[agg := env]> m').
Proof.
  intros Hg a e. destruct (decide (a = agg)) as [->|Hne].
  - rewrite !lookup_insert_eq. intros [= ->]. apply same_shape_refl.
  - rewrite !lookup_insert_ne by done. apply Hg.
Qed.

Lemma fits_then_shape (h : then_handler) (env env' : closure) :
  fits_then h env = true -> same_shape env env' = true -> fits_then h env' = true.
Proof.
  destruct h, env, env'; simpl; try done;
    intros ?%Nat.ltb_lt ?%Nat.eqb_eq; apply Nat.ltb_lt; lia.
Qed.

Lemma fits_catch_shape (h : catch_handler) (env env' : closure) :
  fits_catch h env = true -> same_shape env env' = true -> fits_catch h env' = true.
Proof.
  destruct h, env, env'; simpl; try done;
    intros ?%Nat.ltb_lt ?%Nat.eqb_eq; apply Nat.ltb_lt; lia.
Qed.

Lemma then_ok_mono (n n' : nat) (m m' : gmap pid closure) (h : then_handler) :
  (n <= n')%nat -> envs_grow m m' -> then_ok n m h -> then_ok n' m' h.
Proof.
  intros Hn Hm. induction h; cbn [then_ok catch_ok]; try done.
  all: intros [Hlt Hf]; split; [lia|].
  all: destruct (m !! agg) as [env|] eqn:He; [|done].
  all: specialize (Hm _ _ He); destruct (m' !! agg) as [env'|]; [|done].
  all: by eapply fits_then_shape.
Qed.

Lemma catch_ok_mono (n n' : nat) (m m' : gmap pid closure) (h : catch_handler) :
  (n <= n')%nat -> envs_grow m m' -> catch_ok n m h -> catch_ok n' m' h.
Proof.
  intros Hn Hm. induction h; cbn [then_ok catch_ok]; try done.
  all: intros [Hlt Hf]; split; [lia|].
  all: destruct (m !! agg) as [env|] eqn:He; [|done].
  all: specialize (Hm _ _ He); destruct (m' !! agg) as [env'|]; [|done].
  all: by eapply fits_catch_shape.
Qed.

Lemma instr_ok_mono (hp hp' : list Promise) (n n' : nat) (m m' : gmap pid closure)
    (ins : instr) :
  heap_grows hp hp' -> (n <= n')%nat -> envs_grow m m' ->
  instr_ok hp n m ins -> instr_ok hp' n' m' ins.
Proof.
  intros [_ Hh] Hn Hm.
  destruct ins; simpl; try done; try lia.
  - intros [? Hu]. split; [done|]. eapply Forall_impl; [exact Hu|]. simpl. lia.
  - intros [? He]. split; [lia|].
    destruct (m !! agg) as [env|] eqn:E; [|done].
    specialize (Hm _ _ E). destruct (m' !! agg) as [env'|]; [|done].
    by destruct env, env'.
  - intros [? ?]. split; [lia|]. by eapply then_ok_mono.
  - intros [? ?]. split; [lia|]. by eapply catch_ok_mono.
  - apply Hh.
  - intros [? ?]. split; [|done]. by eapply then_ok_mono.
  - intros [? ?]. split; [|done]. by eapply catch_ok_mono.
Qed.

Lemma safe_thread_mono (hp hp' : list Promise) (t : list instr) :
  heap_grows hp hp' ->
  forall n n' m m',
    (n <= n')%nat -> envs_grow m m' ->
    safe_thread hp n m t -> safe_thread hp' n' m' t.
Proof.
  intros Hh. induction t as [|ins t IH]; intros n n' m m' Hn Hm; simpl; [done|].
  intros [Hi Ht]. split; [by eapply instr_ok_mono|].
  eapply IH; [| |exact Ht].
  - destruct (allocates ins); lia.
  - destruct ins; simpl; try done. by apply envs_grow_insert.
Qed.

(** The body of a function runs before the rest of the goroutine. *)
Lemma safe_thread_app (hp : list Promise) (n : nat) (m : gmap pid closure)
    (body k : list instr) :
  Forall (fun ins => in_body ins = true /\ instr_ok hp n m ins) body ->
  safe_thread hp n m k -> safe_thread hp n m (body ++ k).
Proof.
  intros Hb Hk. induction Hb as [|ins body [Hin Hok] _ IH]; simpl; [done|].
  split; [done|]. by destruct ins as [[]| | | | | | | | | | | | | |].
Qed.

Lemma call_fin_ok hp n m (h : fin_handler) :
  Forall (fun ins => in_body ins = true /\ instr_ok hp n m ins) (call_fin h).
Proof. destruct h. by repeat constructor. Qed.

Lemma call_then_ok hp n m (h : then_handler) (v : value) :
  then_ok n m h ->
  Forall (fun ins => in_body ins = true /\ instr_ok hp n m ins) (call_then h v).
Proof.
  induction h; simpl; intros Hok.
  1: by repeat constructor.
  1: apply Forall_app; split; [by apply IHh|apply call_fin_ok].
  1: apply call_fin_ok.
  all: repeat constructor; simpl; try tauto; by eexists.
Qed.

Lemma call_catch_ok hp n m (h : catch_handler) (e : error) :
  catch_ok n m h ->
  Forall (fun ins => in_body ins = true /\ instr_ok hp n m ins) (call_catch h e).
Proof.
  induction h; simpl; intros Hok.
  1: by repeat constructor.
  1: apply Forall_app; split; [by apply IHh|apply call_fin_ok].
  1: apply call_fin_ok.
  all: repeat constructor; simpl; try tauto; by eexists.
Qed.

Lemma heap_grows_insert (hp : list Promise) (p : pid) (pr pr' : Promise) :
  hp !! p = Some pr ->
  (is_Some (then_ pr) -> is_Some (then_ pr')) ->
  (is_Some (catch_ pr) -> is_Some (catch_ pr')) ->
  (is_Some (finally_ pr) -> is_Some (finally_ pr')) ->
  heap_grows hp (<[p := pr']> hp).
Proof.
  intros Hp Ht Hc Hf. split; [by rewrite length_insert|].
  intros q sg. unfold slot_set. destruct (decide (q = p)) as [->|Hne].
  - rewrite Hp, list_lookup_insert_eq by (by eapply lookup_lt_Some).
    by destruct sg; auto.
  - by rewrite list_lookup_insert_ne.
Qed.

Lemma heap_grows_app (hp : list Promise) (pr : Promise) : heap_grows hp (hp ++ [pr]).
Proof.
  split; [rewrite length_app; lia|].
  intros q sg. unfold slot_set. destruct (hp !! q) as [x|] eqn:E; [|done].
  by rewrite (lookup_app_l_Some _ _ _ _ E).
Qed.

Lemma locked_then_shape h v agg body env env' calls :
  locked_then h v = Some (agg, body) -> body env = Some (env', calls) ->
  same_shape env env' = true.
Proof.
  destruct h; intros; simplify_eq/=;
    unfold All_Then, Race_Then, AllSettled_Then, Any_Then in *;
    repeat case_match; simplify_eq/=; rewrite ?length_insert; try done;
    apply Nat.eqb_refl.
Qed.

Lemma locked_catch_shape h e agg body env env' calls :
  locked_catch h e = Some (agg, body) -> body env = Some (env', calls) ->
  same_shape env env' = true.
Proof.
  destruct h; intros; simplify_eq/=;
    unfold All_Catch, Race_Catch, AllSettled_Catch, Any_Catch in *;
    repeat case_match; simplify_eq/=; rewrite ?length_insert; try done;
    apply Nat.eqb_refl.
Qed.

(** Variables about to be declared are not there yet. *)
Lemma made_once_head (s : state) (i : nat) (agg : pid) (env : closure) (k : list instr) :
  made_once s -> pool s !! i = Some (IMake agg env :: k) ->
  envs s !! agg = None /\ (agg < length (heap s))%nat
  /\ tally (makes agg) (concat (<[i := k]> (pool s))) = 0%nat.
Proof.
  intros Hm Hi. destruct (Hm agg) as [Hle Hout]. unfold pending in *.
  pose proof (tally_concat_insert (makes agg) _ _ _ k Hi) as Hk. simpl in Hk.
  rewrite Nat.eqb_refl in Hk.
  destruct (envs s !! agg); [lia|]. split; [done|]. split; [|lia].
  destruct (decide (agg < length (heap s))%nat); [done|].
  destruct Hout; lia.
Qed.

Lemma step_grows (i : nat) (s s' : state) :
  made_once s -> step i s = Some s' ->
  heap_grows (heap s) (heap s') /\ envs_grow (envs s) (envs s').
Proof.
  intros Hm (ins & k & Hlive & Hi & He)%step_inv.
  destruct ins as [[]| | | | | | | |? []| | | | | |].
  16: { destruct (made_once_head _ _ _ _ _ Hm Hi) as (Hn & _).
        unfold_ops; simplify_eq/=. split; [apply heap_grows_refl|].
        by apply envs_grow_declare. }
  all: unfold_ops; simpl in *; repeat case_match; simplify_eq/=.
  all: split;
    first [ apply heap_grows_refl | apply heap_grows_app
          | eapply heap_grows_insert; [eassumption|simpl; eauto..]
          | apply envs_grow_refl
          | eapply envs_grow_update; [eassumption|];
            first [ by eapply locked_then_shape | by eapply locked_catch_shape ]
          | idtac ].
Qed.

(** What the package starts is safe. *)

Lemma user_executor_safe hp (n : nat) m (acts : list action) (p : pid) :
  (p < n)%nat -> safe_thread hp n m (user_executor acts p).
Proof.
  intros Hp. unfold user_executor.
  induction acts as [|[] acts IH]; simpl; by repeat split.
Qed.

Lemma attach_safe hp (n : nat) m (promises : list pid) :
  Forall (fun p => (p < n)%nat) promises ->
  forall onThen onCatch,
    (forall idx, (idx < length promises)%nat ->
                 then_ok n m (onThen idx) /\ catch_ok n m (onCatch idx)) ->
    safe_thread hp n m (attach onThen onCatch promises).
Proof.
  induction 1 as [|p promises Hp _ IH]; intros onThen onCatch Hok; [done|].
  rewrite attach_cons.
  destruct (Hok 0%nat) as [Ht Hc]; [simpl; lia|].
  simpl. repeat split; try done.
  apply IH. intros idx Hidx. apply Hok. simpl. lia.
Qed.

Lemma All_safe hp (n : nat) m (promises : list pid) (agg : pid) :
  Forall (fun p => (p < n)%nat) promises -> (agg < n)%nat ->
  safe_thread hp n m (All promises agg).
Proof.
  intros Hp Hagg. unfold All. case_match; [done|].
  simpl. split; [done|]. apply attach_safe; [done|].
  intros idx Hidx. simpl. rewrite lookup_insert_eq. simpl.
  rewrite length_replicate. repeat split; try done. by apply Nat.ltb_lt.
Qed.

Lemma Race_safe hp (n : nat) m (promises : list pid) (agg : pid) :
  Forall (fun p => (p < n)%nat) promises -> (agg < n)%nat ->
  safe_thread hp n m (Race promises agg).
Proof.
  intros Hp Hagg. unfold Race. case_match; [done|].
  simpl. split; [done|]. apply attach_safe; [done|].
  intros idx Hidx. simpl. rewrite lookup_insert_eq. by simpl.
Qed.

Lemma AllSettled_safe hp (n : nat) m (promises : list pid) (agg : pid) :
  Forall (fun p => (p < n)%nat) promises -> (agg < n)%nat ->
  safe_thread hp n m (AllSettled promises agg).
Proof.
  intros Hp Hagg. unfold AllSettled. case_match; [done|].
  simpl. split; [done|]. apply attach_safe; [done|].
  intros idx Hidx. simpl. rewrite lookup_insert_eq. simpl.
  rewrite length_replicate. repeat split; try done; by apply Nat.ltb_lt.
Qed.

Lemma Any_safe hp (n : nat) m (promises : list pid) (agg : pid) :
  Forall (fun p => (p < n)%nat) promises -> (agg < n)%nat ->
  safe_thread hp n m (Any promises agg).
Proof.
  intros Hp Hagg. unfold Any. case_match; [done|].
  simpl. split; [done|]. apply attach_safe; [done|].
  intros idx Hidx. simpl. rewrite lookup_insert_eq. simpl.
  rewrite length_replicate. repeat split; try done; by apply Nat.ltb_lt.
Qed.

(** The call a region decides on is a call on its own aggregate. *)
Lemma locked_then_calls_ok hp n m h v agg body env env' calls :
  locked_then h v = Some (agg, body) -> body env = Some (env', calls) ->
  then_ok n m h ->
  Forall (fun ins => in_body ins = true /\ instr_ok hp n (<[agg := env']> m) ins) calls.
Proof.
  destruct h; intros; simplify_eq/=;
    unfold All_Then, Race_Then, AllSettled_Then, Any_Then in *;
    repeat case_match; simplify_eq/=; repeat constructor; simpl; tauto.
Qed.

Lemma locked_catch_calls_ok hp n m h e agg body env env' calls :
  locked_catch h e = Some (agg, body) -> body env = Some (env', calls) ->
  catch_ok n m h ->
  Forall (fun ins => in_body ins = true /\ instr_ok hp n (<[agg := env']> m) ins) calls.
Proof.
  destruct h; intros; simplify_eq/=;
    unfold All_Catch, Race_Catch, AllSettled_Catch, Any_Catch in *;
    repeat case_match; simplify_eq/=; repeat constructor; simpl; try tauto.
  all: rewrite lookup_insert_eq; tauto.
Qed.

(** One step of goroutine [i]: its rest [k'], the goroutines [extra] it
    starts, everybody else as before. *)
Lemma threads_safe_spawn (s : state) hp' m' (i : nat) (t k' : list instr)
    (extra : list (list instr)) :
  threads_safe s -> pool s !! i = Some t ->
  heap_grows (heap s) hp' -> envs_grow (envs s) m' ->
  safe_thread hp' (length hp') m' k' ->
  Forall (safe_thread hp' (length hp') m') extra ->
  Forall (safe_thread hp' (length hp') m') (<[i := k']> (pool s) ++ extra).
Proof.
  unfold threads_safe. intros Hs Hi Hh Hm Hk Hx.
  apply Forall_app. split; [|done].
  apply Forall_insert; [|done].
  eapply Forall_impl; [exact Hs|]. intros t0. simpl.
  apply safe_thread_mono; [done|apply Hh|done].
Qed.

Lemma threads_safe_next (s : state) hp' m' (i : nat) (t k' : list instr) :
  threads_safe s -> pool s !! i = Some t ->
  heap_grows (heap s) hp' -> envs_grow (envs s) m' ->
  safe_thread hp' (length hp') m' k' ->
  Forall (safe_thread hp' (length hp') m') (<[i := k']> (pool s)).
Proof.
  intros Hs Hi Hh Hm Hk.
  rewrite <- (app_nil_r (<[i := k']> (pool s))). by eapply threads_safe_spawn.
Qed.

Lemma safe_tail hp hp' (n n' : nat) m m' (ins : instr) (k : list instr) :
  safe_thread hp n m (ins :: k) ->
  heap_grows hp hp' ->
  ((if allocates ins then S n else n) <= n')%nat ->
  envs_grow (declares ins m) m' ->
  safe_thread hp' n' m' k.
Proof. intros [_ Hk] Hh Hn Hm. by eapply safe_thread_mono. Qed.

Ltac pool_here :=
  repeat match goal with
  | Hi : ?g !! ?i = Some _, Hl : <[?i := ?k]> ?g !! ?i = Some ?k0 |- _ =>
      rewrite list_lookup_insert_eq in Hl by (by eapply lookup_lt_Some);
      injection Hl as <-
  | Hi : ?g !! ?i = Some _, Hl : <[?i := ?k]> ?g !! ?i = None |- _ =>
      rewrite list_lookup_insert_eq in Hl by (by eapply lookup_lt_Some);
      discriminate Hl
  end.

Lemma step_threads_safe (i : nat) (s s' : state) :
  threads_safe s -> slots_safe s -> made_once s ->
  step i s = Some s' -> panicked s' = false -> threads_safe s'.
Proof.
  intros Hts Hss Hm Hstep Hlive'.
  destruct (step_grows _ _ _ Hm Hstep) as [Hhg Heg].
  apply step_inv in Hstep as (ins & k & Hlive & Hi & He).
  pose proof (Forall_lookup_1 _ _ _ _ Hts Hi) as Hsafe.
  pose proof Hsafe as [Hins Hk].
  destruct ins as [[]| | | | | | | |? []| | | | | |]; unfold_ops; simpl in *;
    repeat case_match; simplify_eq/=; pool_here.
  all: unfold threads_safe; simpl; rewrite ?list_insert_insert_eq.
  all: first [ eapply (threads_safe_spawn s _ _ i _ _ _ Hts Hi Hhg Heg)
             | eapply (threads_safe_next s _ _ i _ _ Hts Hi Hhg Heg) ].
  all: try (eapply safe_thread_mono; [exact Hhg| | |exact Hk];
              [ rewrite ?length_app, ?length_insert; simpl; lia
              | first [exact Heg | apply envs_grow_refl] ]).
  all: try (apply safe_thread_app;
              [|eapply safe_thread_mono; [exact Hhg| | |exact Hk]; [lia|exact Heg]]).
  all: try (constructor; [|done]).
  all: try destruct Hins as [Hins1 Hins2].
  all: try (first [apply All_safe | apply Race_safe | apply AllSettled_safe | apply Any_safe];
              [eapply Forall_impl; [exact Hins2|]; simpl; intros; rewrite length_app; lia
              |rewrite length_app; simpl; lia]).
  all: try (apply user_executor_safe; rewrite length_app; simpl; lia).
  all: try (simpl; split; [|done]; unfold slot_set;
            repeat match goal with Hx : _ = Some _ |- _ => rewrite Hx end; by eexists).
  all: try (eapply locked_then_calls_ok; eassumption).
  all: try (eapply locked_catch_calls_ok; eassumption).
  all: try apply call_fin_ok.
  all: match goal with
       | Hp : heap _ !! _ = Some _ |- _ =>
           pose proof (Forall_lookup_1 _ _ _ _ Hss Hp) as [Hst Hsc]
       end.
  all: repeat match goal with
       | Hx : then_ _ = Some _ |- _ => rewrite Hx in Hst; clear Hx
       | Hx : catch_ _ = Some _ |- _ => rewrite Hx in Hsc; clear Hx
       end.
  - by apply call_then_ok.
  - by apply call_catch_ok.
Qed.

Lemma observers_ok_mono (n n' : nat) (m m' : gmap pid closure) (pr : Promise) :
  (n <= n')%nat -> envs_grow m m' -> observers_ok n m pr -> observers_ok n' m' pr.
Proof.
  intros Hn Hm [Ht Hc]. split.
  - destruct (then_ pr); [|done]. by eapply then_ok_mono.
  - destruct (catch_ pr); [|done]. by eapply catch_ok_mono.
Qed.

Lemma step_slots_safe (i : nat) (s s' : state) :
  threads_safe s -> slots_safe s -> made_once s ->
  step i s = Some s' -> slots_safe s'.
Proof.
  intros Hts Hss Hm Hstep.
  destruct (step_grows _ _ _ Hm Hstep) as [[Hlen _] Heg].
  assert (Hold : Forall (observers_ok (length (heap s')) (envs s')) (heap s)).
  { eapply Forall_impl; [exact Hss|]. intros pr. by apply observers_ok_mono. }
  clear Hss Hlen Heg.
  apply step_inv in Hstep as (ins & k & Hlive & Hi & He).
  pose proof (Forall_lookup_1 _ _ _ _ Hts Hi) as [Hins Hk].
  unfold slots_safe.
  destruct ins as [[]| | | | | | | |? []| | | | | |]; unfold_ops; simpl in *;
    repeat case_match; simplify_eq/=; try done.
  all: try (apply Forall_app; split; [done|by repeat constructor]).
  all: apply Forall_insert; [done|].
  all: match goal with
       | Hp : heap _ !! _ = Some _ |- _ =>
           pose proof (Forall_lookup_1 _ _ _ _ Hold Hp) as [Hst Hsc]
       end.
  all: repeat match goal with
       | Hx : then_ _ = Some _ |- _ => rewrite Hx in Hst; clear Hx
       | Hx : catch_ _ = Some _ |- _ => rewrite Hx in Hsc; clear Hx
       end.
  all: split; simpl; try done.
  all: rewrite length_insert; apply Hins.
Qed.

(** Where variables are declared: at the head of a combinator's executor
    and nowhere else. *)

Lemma in_body_not_makes (agg : pid) (ins : instr) :
  in_body ins = true -> makes agg ins = false.
Proof. by destruct ins. Qed.

Lemma in_body_not_IMake (ins : instr) : in_body ins = true -> is_IMake ins = false.
Proof. by destruct ins. Qed.

Lemma attach_tally (f : instr -> bool) onThen onCatch (promises : list pid) :
  (forall p h, f (IRegThen p h) = false) -> (forall p h, f (IRegCatch p h) = false) ->
  tally f (attach onThen onCatch promises) = 0%nat.
Proof.
  intros Ht Hc. revert onThen onCatch.
  induction promises as [|p promises IH]; intros onThen onCatch; [done|].
  rewrite attach_cons. simpl. by rewrite Ht, Hc, IH.
Qed.

Lemma executor_makes (agg a : pid) (promises : list pid) :
  (tally (makes agg) (All promises a) <= if Nat.eqb a agg then 1 else 0)%nat
  /\ (tally (makes agg) (Race promises a) <= if Nat.eqb a agg then 1 else 0)%nat
  /\ (tally (makes agg) (AllSettled promises a) <= if Nat.eqb a agg then 1 else 0)%nat
  /\ (tally (makes agg) (Any promises a) <= if Nat.eqb a agg then 1 else 0)%nat.
Proof.
  unfold All, Race, AllSettled, Any.
  repeat split; case_match; simpl; rewrite ?attach_tally by done;
    destruct (Nat.eqb a agg); lia.
Qed.

Lemma step_made_once (i : nat) (s s' : state) :
  made_once s -> step i s = Some s' -> made_once s'.
Proof.
  intros Hm Hstep.
  apply step_inv in Hstep as (ins & k & Hlive & Hi & He).
  intros agg.
  pose proof (Hm agg) as [Hle Hout].
  pose proof (Hm (length (heap s))) as [_ Hnew].
  pose proof (tally_concat_insert (makes agg) _ _ _ k Hi) as Hk. simpl in Hk.
  unfold pending in *.
  destruct ins as [[]| | | | | | | |? []| | | | | |].
  16: { destruct (made_once_head _ _ _ _ _ Hm Hi) as (Hn & Hlt & Hz).
        unfold_ops; simplify_eq/=.
        destruct (Nat.eqb_spec agg0 agg) as [->|Hne].
        - rewrite lookup_insert_eq. split; [lia|]. intros ?. lia.
        - rewrite lookup_insert_ne by done. split; [lia|]. intros ?. split; [lia|].
          by apply Hout. }
  all: unfold_ops; simpl in *; repeat case_match; simplify_eq/=.
  all: rewrite ?length_app, ?length_insert, ?tally_app, ?concat_app, ?tally_app;
    simpl; rewrite ?app_nil_r, ?tally_app.
  all: name_pools; rewrite ?tally_app.
  all: zero_bodies (makes agg) (in_body_not_makes agg) (in_body_not_makes agg).
  all: simpl; intros.
  all: try match goal with
       | Hx : <[?a := _]> _ !! ?b = _ |- _ =>
           destruct (decide (b = a)) as [->|?];
             [rewrite lookup_insert_eq in Hx|rewrite lookup_insert_ne in Hx by done];
             simplify_eq
       end.
  all: try (split; [lia|intros ?; destruct Hout as [? ?]; [lia|]; split; [lia|done]]).
  all: try (split; [lia|intros ?; split; [lia|done]]).
  all: destruct (executor_makes agg (length (heap s)) promises) as (? & ? & ? & ?).
  all: destruct (Nat.eqb_spec (length (heap s)) agg) as [Heq|Hne];
    [rewrite <- Heq in *; destruct Hnew as [? ?]; [lia|]; simplify_eq|].
  all: try (split; [lia|intros ?; lia]).
  all: split; [lia|intros ?; destruct Hout as [? ?]; [lia|]; split; [lia|done]].
Qed.

(** ** The budget of settlement calls *)

Lemma live_at_insert (m : gmap pid closure) (a : pid) (env : closure) :
  live_at (<[a := env]> m) a = if unspent env then 1%nat else 0%nat.
Proof. unfold live_at. by rewrite lookup_insert_eq. Qed.

Lemma live_at_insert_ne (m : gmap pid closure) (a p : pid) (env : closure) :
  a <> p -> live_at (<[a := env]> m) p = live_at m p.
Proof. intros Hne. unfold live_at. by rewrite lookup_insert_ne. Qed.

Lemma live_below_insert (m : gmap pid closure) (a : pid) (env : closure) (n : nat) :
  (live_below (<[a := env]> m) n + (if (a <? n)%nat then live_at m a else 0)
   = live_below m n + (if (a <? n)%nat then live_at (<[a := env]> m) a else 0))%nat.
Proof.
  induction n as [|n IH]; simpl; [done|].
  destruct (decide (n = a)) as [->|Hne].
  - replace (a <? S a)%nat with true by (symmetry; apply Nat.ltb_lt; lia).
    replace (a <? a)%nat with false in IH by (symmetry; apply Nat.ltb_ge; lia).
    lia.
  - rewrite (live_at_insert_ne m a n) by done.
    destruct (Nat.ltb_spec a n), (Nat.ltb_spec a (S n)); lia.
Qed.

Lemma call_fin_no_call (h : fin_handler) : tally is_call (call_fin h) = 0%nat.
Proof. by destruct h. Qed.

Lemma call_then_no_call (h : then_handler) (v : value) :
  tally is_call (call_then h v) = 0%nat.
Proof.
  induction h; simpl; try done.
  - by rewrite tally_app, IHh, call_fin_no_call.
  - apply call_fin_no_call.
Qed.

Lemma call_catch_no_call (h : catch_handler) (e : error) :
  tally is_call (call_catch h e) = 0%nat.
Proof.
  induction h; simpl; try done.
  - by rewrite tally_app, IHh, call_fin_no_call.
  - apply call_fin_no_call.
Qed.

Lemma user_executor_calls (acts : list action) (p : pid) :
  tally is_call (user_executor acts p) = length acts.
Proof.
  unfold user_executor. induction acts as [|[] acts IH]; simpl; by rewrite ?IH.
Qed.

(** An executor of a combinator either settles at once or declares its
    variables. *)
Lemma executor_budget (promises : list pid) (a : pid) :
  (tally is_call (All promises a) + tally is_IMake (All promises a) = 1)%nat
  /\ (tally is_call (Race promises a) + tally is_IMake (Race promises a) = 1)%nat
  /\ (tally is_call (AllSettled promises a) + tally is_IMake (AllSettled promises a)
      = 1)%nat
  /\ (tally is_call (Any promises a) + tally is_IMake (Any promises a) = 1)%nat.
Proof.
  unfold All, Race, AllSettled, Any.
  repeat split; case_match; simpl; by rewrite ?attach_tally by done.
Qed.

Ltac bools_to_props :=
  repeat match goal with
  | Hx : (_ <? _) = true |- _ => apply Z.ltb_lt in Hx
  | Hx : (_ <? _) = false |- _ => apply Z.ltb_ge in Hx
  | Hx : (_ =? _) = true |- _ => apply Z.eqb_eq in Hx
  | Hx : (_ =? _) = false |- _ => apply Z.eqb_neq in Hx
  | Hx : (_ >? _) = true |- _ => rewrite Z.gtb_ltb in Hx
  | Hx : (_ >? _) = false |- _ => rewrite Z.gtb_ltb in Hx
  end.

(** A region makes a call only if its variables could still make one,
    and then they no longer can. *)
Lemma locked_then_budget h v agg body env env' calls :
  locked_then h v = Some (agg, body) -> body env = Some (env', calls) ->
  (tally is_call calls + (if unspent env' then 1 else 0)
   <= if unspent env then 1 else 0)%nat.
Proof.
  destruct h; intros; simplify_eq/=;
    unfold All_Then, Race_Then, AllSettled_Then, Any_Then, unspent in *;
    repeat case_match; simplify_eq/=; bools_to_props; try lia; congruence.
Qed.

Lemma locked_catch_budget h e agg body env env' calls :
  locked_catch h e = Some (agg, body) -> body env = Some (env', calls) ->
  (tally is_call calls + (if unspent env' then 1 else 0)
   <= if unspent env then 1 else 0)%nat.
Proof.
  destruct h; intros; simplify_eq/=;
    unfold All_Catch, Race_Catch, AllSettled_Catch, Any_Catch, unspent in *;
    repeat case_match; simplify_eq/=; bools_to_props; try lia; congruence.
Qed.

Lemma locked_then_scope n m h v agg body :
  then_ok n m h -> locked_then h v = Some (agg, body) -> (agg < n)%nat.
Proof. destruct h; simpl; intros; simplify_eq; tauto. Qed.

Lemma locked_catch_scope n m h e agg body :
  catch_ok n m h -> locked_catch h e = Some (agg, body) -> (agg < n)%nat.
Proof. destruct h; simpl; intros; simplify_eq; tauto. Qed.

Lemma step_within_budget (i : nat) (s s' : state) :
  threads_safe s -> made_once s -> within_budget s ->
  step i s = Some s' -> panicked s' = false -> within_budget s'.
Proof.
  intros Hts Hm [Hb Hst] Hstep Hlive'.
  apply step_inv in Hstep as (ins & k & Hlive & Hi & He).
  pose proof (Forall_lookup_1 _ _ _ _ Hts Hi) as [Hins _].
  pose proof (Hm (length (heap s))) as [_ Hnew].
  destruct Hnew as [_ Hnew]; [lia|].
  pose proof (tally_concat_insert is_call _ _ _ k Hi) as Hk1.
  pose proof (tally_concat_insert is_IMake _ _ _ k Hi) as Hk2.
  pose proof (tally_concat_insert is_IObserve _ _ _ k Hi) as Hk3.
  simpl in Hk1, Hk2, Hk3.
  unfold within_budget, started, pending in *.
  destruct ins as [[]| | | | | | | |? []| | | | | |].
  16: { destruct (made_once_head _ _ _ _ _ Hm Hi) as (Hn & Hlt & _).
        pose proof (live_below_insert (envs s) agg env (length (heap s))) as Hl.
        apply Nat.ltb_lt in Hlt. rewrite Hlt, live_at_insert in Hl.
        unfold live_at in Hl. rewrite Hn in Hl. simpl in Hl.
        unfold_ops; simplify_eq/=. split; [|lia].
        destruct (unspent env); lia. }
  all: unfold_ops; simpl in *; repeat case_match; simplify_eq/=.
  all: rewrite ?length_app, ?length_insert, ?tally_app, ?concat_app, ?tally_app;
    simpl; rewrite ?app_nil_r, ?tally_app.
  all: name_pools; rewrite ?tally_app.
  all: zero_bodies is_IMake in_body_not_IMake in_body_not_IMake.
  all: zero_bodies is_IObserve in_body_not_IObserve in_executor_not_IObserve.
  all: rewrite ?call_then_no_call, ?call_catch_no_call, ?call_fin_no_call,
         ?user_executor_calls.
  all: simpl; intros.
  all: try (split; lia).
  all: try (rewrite Nat.add_1_r; simpl; unfold live_at; rewrite Hnew; simpl;
            destruct Hins as [Hins%Nat.leb_le _]; split; lia).
  all: try (destruct (executor_budget promises (length (heap s))) as (? & ? & ? & ?);
            rewrite Nat.add_1_r; simpl; unfold live_at; rewrite Hnew; simpl;
            split; lia).
  all: destruct Hins as [Hins _].
  all: match goal with
       | Hh : locked_then _ _ = Some (?a, ?o), Hx : ?o ?c = Some (?c0, _),
         Hv : envs _ !! ?a = Some ?c |- _ =>
           pose proof (locked_then_budget _ _ _ _ _ _ _ Hh Hx);
           pose proof (locked_then_scope _ _ _ _ _ _ Hins Hh) as Hsc;
           pose proof (live_below_insert (envs s) a c0 (length (heap s))) as Hl;
           apply Nat.ltb_lt in Hsc; rewrite Hsc, live_at_insert in Hl;
           unfold live_at in Hl; rewrite Hv in Hl; simpl in Hl;
           destruct (unspent c), (unspent c0); split; lia
       | Hh : locked_catch _ _ = Some (?a, ?o), Hx : ?o ?c = Some (?c0, _),
         Hv : envs _ !! ?a = Some ?c |- _ =>
           pose proof (locked_catch_budget _ _ _ _ _ _ _ Hh Hx);
           pose proof (locked_catch_scope _ _ _ _ _ _ Hins Hh) as Hsc;
           pose proof (live_below_insert (envs s) a c0 (length (heap s))) as Hl;
           apply Nat.ltb_lt in Hsc; rewrite Hsc, live_at_insert in Hl;
           unfold live_at in Hl; rewrite Hv in Hl; simpl in Hl;
           destruct (unspent c), (unspent c0); split; lia
       end.
Qed.

(** A closure whose variables are there does not index out of range. *)
Lemma locked_then_runs n m h v agg body env :
  then_ok n m h -> locked_then h v = Some (agg, body) -> m !! agg = Some env ->
  is_Some (body env).
Proof.
  destruct h; simpl; intros Hok ? He; simplify_eq; destruct Hok as [_ Hf];
    rewrite He in Hf;
    destruct env; simplify_eq/=;
    unfold All_Then, Race_Then, AllSettled_Then, Any_Then;
    rewrite ?Hf; repeat case_match; by eexists.
Qed.

Lemma locked_catch_runs n m h e agg body env :
  catch_ok n m h -> locked_catch h e = Some (agg, body) -> m !! agg = Some env ->
  is_Some (body env).
Proof.
  destruct h; simpl; intros Hok ? He; simplify_eq; destruct Hok as [_ Hf];
    rewrite He in Hf;
    destruct env; simplify_eq/=;
    unfold All_Catch, Race_Catch, AllSettled_Catch, Any_Catch;
    rewrite ?Hf; repeat case_match; by eexists.
Qed.

Lemma locked_then_declared n m h v agg body :
  then_ok n m h -> locked_then h v = Some (agg, body) -> is_Some (m !! agg).
Proof.
  destruct h; simpl; intros Hok ?; simplify_eq; destruct Hok as [_ Hf];
    by destruct (m !! agg).
Qed.

Lemma locked_catch_declared n m h e agg body :
  catch_ok n m h -> locked_catch h e = Some (agg, body) -> is_Some (m !! agg).
Proof.
  destruct h; simpl; intros Hok ?; simplify_eq; destruct Hok as [_ Hf];
    by destruct (m !! agg).
Qed.

Lemma step_no_panic (i : nat) (s s' : state) :
  contract_kept s -> step i s = Some s' -> panicked s' = false.
Proof.
  intros (_ & Hts & Hss & Hm & [Hb Hst] & [_ Hwg]) Hstep.
  apply step_inv in Hstep as (ins & k & Hlive & Hi & He).
  specialize (Hwg Hlive).
  pose proof (Forall_lookup_1 _ _ _ _ Hts Hi) as [Hins _].
  pose proof (tally_concat_insert is_IDone _ _ _ k Hi) as Hk1. simpl in Hk1.
  unfold finished, started, pending in *.
  destruct ins as [[]| | | | | | | |? []| | | | | |]; unfold_ops; simpl in *;
    repeat case_match; simplify_eq/=; try done.
  all: exfalso.
  all: try (bools_to_props; lia).
  all: try (unfold slot_set in Hins;
            repeat match goal with
                   | Hx : _ = Some _ |- _ => rewrite Hx in Hins
                   | Hx : _ = None |- _ => rewrite Hx in Hins
                   end;
            first [by destruct Hins|by destruct Hins as [? ?]]).
  all: try match goal with
       | Hn : heap _ !! _ = None |- _ => apply lookup_ge_None in Hn
       end.
  all: try lia.
  all: try (destruct Hins as [? Hins]; try apply Forall_inv in Hins; lia).
  all: destruct Hins as [Hins _].
  all: match goal with
       | Hh : locked_then _ _ = Some _, Hv : envs _ !! _ = Some _, Hx : _ = None |- _ =>
           destruct (locked_then_runs _ _ _ _ _ _ _ Hins Hh Hv); congruence
       | Hh : locked_catch _ _ = Some _, Hv : envs _ !! _ = Some _, Hx : _ = None |- _ =>
           destruct (locked_catch_runs _ _ _ _ _ _ _ Hins Hh Hv); congruence
       | Hh : locked_then _ _ = Some _ |- _ =>
           destruct (locked_then_declared _ _ _ _ _ _ Hins Hh); congruence
       | Hh : locked_catch _ _ = Some _ |- _ =>
           destruct (locked_catch_declared _ _ _ _ _ _ Hins Hh); congruence
       end.
Qed.

Lemma step_contract_kept (i : nat) (s s' : state) :
  contract_kept s -> step i s = Some s' -> contract_kept s'.
Proof.
  intros Hs Hstep. pose proof (step_no_panic _ _ _ Hs Hstep) as Hlive'.
  destruct Hs as (_ & Hts & Hss & Hm & Hb & Hwg).
  split; [done|].
  split; [by eapply step_threads_safe|].
  split; [by eapply step_slots_safe|].
  split; [by eapply step_made_once|].
  split; [by eapply step_within_budget|].
  by eapply step_wg_accounted.
Qed.

Lemma main_pending (f : instr -> bool) (main : list api) :
  (forall op, f (ICall op) = false) -> pending f (start main) = 0%nat.
Proof.
  intros Hf. unfold pending.
  apply (tally_zero f (fun ins => exists op, ins = ICall op)); [|apply main_calls].
  by intros ? [op ->].
Qed.

Lemma main_safe hp m (main : list api) :
  forall n,
    forallb abides main = true -> allocated n main = true ->
    safe_thread hp n m (map ICall main).
Proof.
  induction main as [|op main IH]; intros n; simpl; [done|].
  intros [Ha Hm]%andb_true_iff [Hu Hn]%andb_true_iff.
  split.
  - split; [done|]. apply Forall_forall. intros p Hp%list_elem_of_In.
    rewrite forallb_forall in Hu. by apply Nat.ltb_lt, Hu.
  - by apply IH.
Qed.

Lemma start_contract_kept (main : list api) :
  well_behaved main = true -> contract_kept (start main).
Proof.
  intros [Ha Hn]%andb_true_iff.
  split; [done|].
  split. { constructor; [|done]. by apply main_safe. }
  split; [constructor|].
  split.
  { intros agg. rewrite (main_pending (makes agg)) by done. simpl.
    rewrite lookup_empty. split; [lia|done]. }
  split.
  { unfold within_budget, started.
    rewrite (main_pending is_call), (main_pending is_IMake),
      (main_pending is_IObserve) by done.
    simpl. lia. }
  unfold wg_accounted, finished, started.
  rewrite (main_pending is_IObserve), (main_pending is_IDone) by done.
  simpl. split; [lia|]. intros _. lia.
Qed.


(** ** Every promise is settled at most once *)

Lemma call_fin_calls_on (p : pid) (h : fin_handler) :
  tally (calls_on p) (call_fin h) = 0%nat.
Proof. by destruct h. Qed.

Lemma call_then_calls_on (p : pid) (h : then_handler) (v : value) :
  tally (calls_on p) (call_then h v) = 0%nat.
Proof.
  induction h; simpl; try done.
  - by rewrite tally_app, IHh, call_fin_calls_on.
  - apply call_fin_calls_on.
Qed.

Lemma call_catch_calls_on (p : pid) (h : catch_handler) (e : error) :
  tally (calls_on p) (call_catch h e) = 0%nat.
Proof.
  induction h; simpl; try done.
  - by rewrite tally_app, IHh, call_fin_calls_on.
  - apply call_fin_calls_on.
Qed.

Lemma user_executor_calls_on (p : pid) (acts : list action) (a : pid) :
  tally (calls_on p) (user_executor acts a)
  = if Nat.eqb a p then length acts else 0%nat.
Proof.
  unfold user_executor.
  induction acts as [|[] acts IH]; simpl; rewrite ?IH; by destruct (Nat.eqb a p).
Qed.

Lemma executor_calls_on (p : pid) (promises : list pid) (a : pid) :
  (tally (calls_on p) (All promises a) + tally (makes p) (All promises a)
   = if Nat.eqb a p then 1 else 0)%nat
  /\ (tally (calls_on p) (Race promises a) + tally (makes p) (Race promises a)
      = if Nat.eqb a p then 1 else 0)%nat
  /\ (tally (calls_on p) (AllSettled promises a)
      + tally (makes p) (AllSettled promises a)
      = if Nat.eqb a p then 1 else 0)%nat
  /\ (tally (calls_on p) (Any promises a) + tally (makes p) (Any promises a)
      = if Nat.eqb a p then 1 else 0)%nat.
Proof.
  unfold All, Race, AllSettled, Any.
  repeat split; case_match; simpl; rewrite ?attach_tally by done;
    destruct (Nat.eqb a p); lia.
Qed.

(** The call a region decides on goes to its own aggregate. *)
Lemma locked_then_calls_on p h v agg body env env' calls :
  locked_then h v = Some (agg, body) -> body env = Some (env', calls) ->
  tally (calls_on p) calls = if Nat.eqb agg p then tally is_call calls else 0%nat.
Proof.
  destruct h; intros; simplify_eq/=;
    unfold All_Then, Race_Then, AllSettled_Then, Any_Then in *;
    repeat case_match; simplify_eq/=; try done;
    by match goal with Hx : Nat.eqb _ _ = _ |- _ => rewrite Hx end.
Qed.

Lemma locked_catch_calls_on p h e agg body env env' calls :
  locked_catch h e = Some (agg, body) -> body env = Some (env', calls) ->
  tally (calls_on p) calls = if Nat.eqb agg p then tally is_call calls else 0%nat.
Proof.
  destruct h; intros; simplify_eq/=;
    unfold All_Catch, Race_Catch, AllSettled_Catch, Any_Catch in *;
    repeat case_match; simplify_eq/=; try done;
    by match goal with Hx : Nat.eqb _ _ = _ |- _ => rewrite Hx end.
Qed.

Ltac split_eqb :=
  repeat match goal with
  | |- context [Nat.eqb ?a ?b] => destruct (Nat.eqb_spec a b)
  | Hx : context [Nat.eqb ?a ?b] |- _ => destruct (Nat.eqb_spec a b)
  end.

Lemma step_settled_once (p : pid) (i : nat) (s s' : state) :
  threads_safe s -> made_once s -> settled_once p s ->
  step i s = Some s' -> panicked s' = false -> settled_once p s'.
Proof.
  intros Hts Hm [Hb Hout] Hstep Hlive'.
  apply step_inv in Hstep as (ins & k & Hlive & Hi & He).
  pose proof (Forall_lookup_1 _ _ _ _ Hts Hi) as [Hins _].
  pose proof (Hm p) as [_ Hfresh].
  pose proof (tally_concat_insert (calls_on p) _ _ _ k Hi) as Hk1.
  pose proof (tally_concat_insert (makes p) _ _ _ k Hi) as Hk2.
  simpl in Hk1, Hk2.
  unfold settled_once, pending in *.
  destruct ins as [[]| | | | | | | |? []| | | | | |].
  16: { destruct (made_once_head _ _ _ _ _ Hm Hi) as (Hn & Hlt & _).
        unfold_ops; simplify_eq/=.
        destruct (Nat.eqb_spec agg p) as [->|Hne].
        - rewrite live_at_insert. unfold live_at in Hb. rewrite Hn in Hb. simpl in Hb.
          split; [destruct (unspent env); lia|]. intros ?. lia.
        - rewrite live_at_insert_ne by done. split; [lia|]. intros ?.
          destruct Hout; [done|]. lia. }
  all: unfold_ops; simpl in Hins, He; repeat case_match; simplify_eq/=.
  all: rewrite ?length_app, ?length_insert, ?tally_app, ?concat_app, ?tally_app;
    simpl; rewrite ?app_nil_r, ?tally_app.
  all: name_pools; rewrite ?tally_app.
  all: zero_bodies (makes p) (in_body_not_makes p) (in_body_not_makes p).
  all: rewrite ?call_then_calls_on, ?call_catch_calls_on, ?call_fin_calls_on,
         ?user_executor_calls_on.
  all: simpl; intros.
  all: assert (Hl0 : (length (heap s) <= p)%nat -> live_at (envs s) p = 0%nat)
    by (intros Hge; destruct (Hfresh Hge) as [_ Hx]; unfold live_at; by rewrite Hx).
  all: destruct (Nat.le_gt_cases (length (heap s)) p) as [Hge|Hlt];
    [destruct (Hout Hge), (Hfresh Hge); specialize (Hl0 Hge)|];
    clear Hout Hfresh.
  all: try match goal with
       | Hx : (_ <=? _)%nat = true /\ _ |- _ => destruct Hx as [Hx%Nat.leb_le _]
       end.
  all: try (split_eqb; try done; split; lia).
  all: try (destruct (executor_calls_on p promises (length (heap s))) as (? & ? & ? & ?);
            split_eqb; try done; split; lia).
  all: destruct Hins as [Hins _].
  all: match goal with
       | Hh : locked_then _ _ = Some (?a, ?o), Hx : ?o ?c = Some (?c0, _),
         Hv : envs _ !! ?a = Some ?c |- _ =>
           pose proof (locked_then_budget _ _ _ _ _ _ _ Hh Hx);
           pose proof (locked_then_scope _ _ _ _ _ _ Hins Hh);
           pose proof (locked_then_calls_on p _ _ _ _ _ _ _ Hh Hx);
           destruct (Nat.eqb_spec a p) as [->|Hne];
           [rewrite live_at_insert; unfold live_at in Hb; rewrite Hv in Hb; simpl in Hb
           |rewrite live_at_insert_ne by done]
       | Hh : locked_catch _ _ = Some (?a, ?o), Hx : ?o ?c = Some (?c0, _),
         Hv : envs _ !! ?a = Some ?c |- _ =>
           pose proof (locked_catch_budget _ _ _ _ _ _ _ Hh Hx);
           pose proof (locked_catch_scope _ _ _ _ _ _ Hins Hh);
           pose proof (locked_catch_calls_on p _ _ _ _ _ _ _ Hh Hx);
           destruct (Nat.eqb_spec a p) as [->|Hne];
           [rewrite live_at_insert; unfold live_at in Hb; rewrite Hv in Hb; simpl in Hb
           |rewrite live_at_insert_ne by done]
       end.
  all: try (split; lia).
  all: destruct (unspent _), (unspent _); split; lia.
Qed.

Lemma settles_resolve_reject (p : pid) (tr : list event) :
  (tally (is_EResolve p) tr + tally (is_EReject p) tr <= tally (settles p) tr)%nat.
Proof.
  induction tr as [|ev tr IH]; simpl; [done|].
  destruct ev; simpl; try lia; destruct (Nat.eqb _ _); lia.
Qed.

(** X10.  In a program that keeps the contract, on every schedule, every
    promise is settled at most once: the calls of [resolve], [reject]
    and [finally] on it number at most one, whether it is a promise of
    the caller, settled by its executor, or the aggregate of a
    combinator, settled by the closures the combinator attached to its
    inputs.  So, for each promise, at most one of its two observers is
    ever invoked, and at most once. *)
Theorem promise_settles_at_most_once (main : list api) (sched : list nat) (p : pid) :
  well_behaved main = true ->
  let s := run sched (start main) in
  (tally (settles p) (trace s) <= 1)%nat
  /\ (tally (is_EThen p) (trace s) + tally (is_ECatch p) (trace s) <= 1)%nat.
Proof.
  intros Hmain s.
  assert (Hs : contract_kept s /\ settled_once p s).
  { apply (run_invariant (fun s => contract_kept s /\ settled_once p s)).
    - intros i s0 s1 [Hk Hp] Hstep.
      pose proof (step_contract_kept _ _ _ Hk Hstep) as Hk'.
      split; [done|].
      destruct Hk as (_ & Hts & _ & Hm & _). destruct Hk' as (Hlive' & _).
      by eapply step_settled_once.
    - split; [by apply start_contract_kept|].
      unfold settled_once.
      rewrite (main_pending (calls_on p)), (main_pending (makes p)) by done.
      simpl. split; [unfold live_at; rewrite lookup_empty; simpl; lia|done]. }
  destruct Hs as [_ [Hp _]].
  assert (Ht : then_owed p s).
  { apply run_invariant; [apply step_then_owed|]. unfold then_owed, pending.
    by rewrite (no_observe_then p _ (main_no_observe main)). }
  assert (Hc : catch_owed p s).
  { apply run_invariant; [apply step_catch_owed|]. unfold catch_owed, pending.
    by rewrite (no_observe_catch p _ (main_no_observe main)). }
  pose proof (settles_resolve_reject p (trace s)).
  unfold then_owed, catch_owed in *. split; lia.
Qed.

(** ** Settlement calls nobody hears *)

(** Observer goroutines are started by settlement calls only, one per
    call at most. *)
Lemma step_answers (i : nat) (s s' : state) :
  step i s = Some s' ->
  (started s' + tally is_call_event (trace s)
   <= started s + tally is_call_event (trace s'))%nat.
Proof.
  intros (ins & k & Hlive & Hi & He)%step_inv.
  pose proof (tally_concat_insert is_IObserve _ _ _ k Hi) as Hk. simpl in Hk.
  unfold started, pending.
  destruct ins as [[]| | | | | | | |? []| | | | | |]; unfold_ops; simpl in *;
    repeat case_match; simplify_eq/=.
  all: rewrite ?tally_app, ?concat_app, ?tally_app; simpl; rewrite ?app_nil_r, ?tally_app.
  all: name_pools; rewrite ?tally_app.
  all: zero_bodies is_IObserve in_body_not_IObserve in_executor_not_IObserve.
  all: simpl; intros; lia.
Qed.

(** [WaitForPromises] is the only statement that records a return, and
    it does not while the counter is not zero. *)
Lemma step_not_returned (i : nat) (s s' : state) :
  wg s <> 0 -> step i s = Some s' ->
  tally is_EReturned (trace s') = tally is_EReturned (trace s).
Proof.
  intros Hwg (ins & k & Hlive & Hi & He)%step_inv.
  destruct ins as [[]| | | | | | | |? []| | | | | |]; unfold_ops; simpl in *;
    repeat case_match; simplify_eq/=.
  all: rewrite ?tally_app; simpl; try lia.
  all: match goal with Hx : (_ =? 0) = true |- _ => apply Z.eqb_eq in Hx end; done.
Qed.

(** While a settlement call is unanswered, fewer observer goroutines have
    finished than promises were created. *)
Lemma unanswered_wg (s : state) :
  contract_kept s -> call_unanswered s -> 1 <= wg s.
Proof.
  intros (Hlive & _ & _ & _ & [Hb _] & [_ Hwg]) Hu.
  specialize (Hwg Hlive). unfold call_unanswered, finished in *. lia.
Qed.

Lemma step_unanswered (N : nat) (i : nat) (s s' : state) :
  contract_kept s /\ call_unanswered s /\ tally is_EReturned (trace s) = N ->
  step i s = Some s' ->
  contract_kept s' /\ call_unanswered s' /\ tally is_EReturned (trace s') = N.
Proof.
  intros (Hs & Hu & Hr) Hstep.
  pose proof (unanswered_wg s Hs Hu) as Hwg.
  split; [by eapply step_contract_kept|]. split.
  - pose proof (step_answers _ _ _ Hstep). unfold call_unanswered in *. lia.
  - rewrite (step_not_returned i s s'); [done|lia|done].
Qed.

(** The call itself: it records itself and nothing else happens. *)
Lemma step_unheard (i : nat) (s : state) (ins : instr) (k : list instr) :
  contract_kept s -> pool s !! i = Some (ins :: k) -> unheard (heap s) ins ->
  exists ev,
    is_call_event ev = true
    /\ step i s = Some (emit ev (with_pool (<[i := k]> (pool s)) s)).
Proof.
  intros (Hlive & Hts & _) Hi Hu.
  pose proof (Forall_lookup_1 _ _ _ _ Hts Hi) as [Hins _].
  unfold step. rewrite Hlive, Hi.
  destruct ins; simpl in Hu; try done.
  all: destruct (heap s !! _) as [pr|] eqn:Hp; [|done]; simpl in Hu;
    injection Hu as Hn.
  - exists (EResolve p v). split; [done|]. simpl. unfold resolve. simpl. rewrite Hp. simpl.
    by rewrite Hn.
  - exists (EReject p e). split; [done|]. simpl. unfold reject. simpl. rewrite Hp. simpl.
    by rewrite Hn.
  - destruct Hins as [_ Hm]. destruct (envs s !! agg) as [[]|] eqn:Hm'; try done.
    eexists (EReject agg _). split; [done|]. simpl. unfold reject_errors. simpl. rewrite Hm'.
    unfold reject. simpl. rewrite Hp. simpl. by rewrite Hn.
  - exists (EFinally p). split; [done|]. simpl. unfold finally. simpl. rewrite Hp. simpl.
    by rewrite Hn.
Qed.

Lemma emit_unanswered (i : nat) (s : state) (ins : instr) (k : list instr) (ev : event) :
  contract_kept s -> pool s !! i = Some (ins :: k) -> unheard (heap s) ins ->
  is_call_event ev = true ->
  call_unanswered (emit ev (with_pool (<[i := k]> (pool s)) s))
  /\ tally is_EReturned (trace (emit ev (with_pool (<[i := k]> (pool s)) s)))
     = tally is_EReturned (trace s).
Proof.
  intros (_ & _ & _ & _ & [_ Hst] & _) Hi Hu Hev.
  pose proof (tally_concat_insert is_IObserve _ _ _ k Hi) as Hk. simpl in Hk.
  unfold call_unanswered, started, pending in *. simpl. rewrite !tally_app. simpl.
  rewrite Hev. destruct ins; try done; destruct ev; try done; simpl in *; split; lia.
Qed.

(** C4 (amended).  A call of [resolve], [reject] or [finally] on a
    promise whose field the call reads ([then], [catch], [finally]) is
    nil only records itself: no goroutine is started, so no handler runs
    and the WaitGroup counter is not decremented for that settlement.  In
    a program that keeps the executor contract and only uses promises it
    has created, nothing makes up for it: once such a call has been made
    the counter stays above zero and [WaitForPromises] never returns
    from then on, whatever is scheduled.  The field is what counts, not
    whether [Catch] was called: [Finally] too installs a
    failure-observer.  When the executor of a promise rejects and the
    caller has called nothing but [Then] on it before it waits, the
    counter stays at 1 and [WaitForPromises] never returns. *)
Theorem unobserved_settlement_is_never_released (main : list api) (sched : list nat)
    (i : nat) (ins : instr) (k : list instr) :
  well_behaved main = true ->
  let s := run sched (start main) in
  pool s !! i = Some (ins :: k) ->
  unheard (heap s) ins ->
  (exists ev,
      is_call_event ev = true
      /\ step i s = Some (emit ev (with_pool (<[i := k]> (pool s)) s)))
  /\ (forall sched',
        let s' := run (i :: sched') s in
        1 <= wg s' /\ WaitForPromises s' = None
        /\ tally is_EReturned (trace s') = tally is_EReturned (trace s))
  /\ (forall s0 p pr,
        heap s0 !! p = Some pr ->
        (forall v, then_ pr = None -> resolve p v s0 = emit (EResolve p v) s0)
        /\ (forall e, catch_ pr = None -> reject p e s0 = emit (EReject p e) s0))
  /\ (forall e hs rest sched0,
        let s' := run sched0 (start (reject_uncaught e hs rest)) in
        tally is_EReturned (trace s') = 0%nat /\ (heap s' = [] \/ wg s' = 1)).
Proof.
  intros Hmain s Hi Hu.
  assert (Hs : contract_kept s).
  { apply run_invariant; [apply step_contract_kept|]. by apply start_contract_kept. }
  destruct (step_unheard i s ins k Hs Hi Hu) as (ev & Hev & Hstep).
  split; [by exists ev|]. split; [|split].
  - intros sched' s'. subst s'. simpl. rewrite Hstep. simpl.
    destruct (emit_unanswered i s ins k ev Hs Hi Hu Hev) as [Hun Hret].
    assert (Hinv : contract_kept (run sched' (emit ev (with_pool (<[i := k]> (pool s)) s)))
                   /\ call_unanswered
                        (run sched' (emit ev (with_pool (<[i := k]> (pool s)) s)))
                   /\ tally is_EReturned
                        (trace (run sched' (emit ev (with_pool (<[i := k]> (pool s)) s))))
                      = tally is_EReturned (trace s)).
    { apply (run_invariant _ (step_unanswered (tally is_EReturned (trace s)))).
      split; [|done]. by eapply step_contract_kept. }
    destruct Hinv as (Hk & Hc & Hr).
    pose proof (unanswered_wg _ Hk Hc) as Hwg.
    split; [done|]. split; [|done].
    unfold WaitForPromises. destruct (Z.eqb_spec (wg (run sched'
      (emit ev (with_pool (<[i := k]> (pool s)) s)))) 0); [lia|done].
  - intros s0 p pr Hp. split.
    + intros v Hn. unfold resolve. simpl. by rewrite Hp, Hn.
    + intros e Hn. unfold reject. simpl. by rewrite Hp, Hn.
  - intros e hs rest sched0 s'.
    assert (Hinv : tally is_EReturned (trace s') = 0%nat
                   /\ (s' = start (reject_uncaught e hs rest) \/ stuck_waiting e rest s')).
    { apply (run_invariant (fun s => tally is_EReturned (trace s) = 0%nat
               /\ (s = start (reject_uncaught e hs rest) \/ stuck_waiting e rest s))).
      - intros j s0 s1 [Ht [-> | Hw]] Hstep'.
        + destruct j as [|j]; [|done]. simpl in Hstep'. injection Hstep' as <-.
          split; [done|]. right. unfold stuck_waiting. simpl.
          repeat split; eauto 10.
        + destruct (step_stuck_waiting e rest j s0 s1 (conj Ht Hw) Hstep'). auto.
      - split; [done|]. by left. }
    destruct Hinv as [Ht [-> | (Hw & _)]]; auto.
Qed.
End Machine.

Arguments value : clear implicits.
Arguments PromiseResult : clear implicits.
Arguments closure : clear implicits.
Arguments signal : clear implicits.
Arguments action : clear implicits.
Arguments api : clear implicits.
Arguments instr : clear implicits.
Arguments event : clear implicits.
Arguments state : clear implicits.

(** ** Runs at the element type [int] *)

(** C1 (as stated) fails.  The executor calls [resolve(1)] and then
    [reject("e")] on a promise that has both observers registered: the
    success-observer and the failure-observer are both invoked. *)
Lemma resolve_then_reject_invokes_both :
  trace (run [0; 0; 0; 1; 1; 2; 3; 2; 3]%nat
           (start [CNewPromise [CallResolve 1; CallReject (Some "e"%string)];
                   CThen 0 7; CCatch 0 8]))
  = [EResolve 0 (VElem 1); EReject 0 (Some "e"%string);
     EThen 0 (HThen 7) (VElem 1); ECatch 0 (HCatch 8) (Some "e"%string);
     EUserThen 7 (VElem 1); EUserCatch 8 (Some "e"%string)].
Proof. vm_compute. reflexivity. Qed.

(** In that run each of the two observer goroutines then calls
    [wg.Done()], against the single [wg.Add(1)] of [NewPromise]: the
    second call drives the counter below zero and the process panics. *)
Example double_settlement_panics :
  let s := run [0; 0; 0; 1; 1; 2; 3; 2; 3; 2; 3]%nat
             (start [CNewPromise [CallResolve 1; CallReject (Some "e"%string)];
                     CThen 0 7; CCatch 0 8]) in
  wg s = 0 /\ panicked s = true.
Proof. vm_compute. split; reflexivity. Qed.

(** C1 (amended) at the same program, after [resolve(1)] has been called:
    the call of [reject] still starts the goroutine of the
    failure-observer. *)
Lemma observer_invoked_witness :
  let main := [CNewPromise [CallResolve 1; CallReject (Some "e"%string)];
               CThen 0 7; CCatch 0 8] in
  let s := run [0; 0; 0; 1]%nat (start main) in
  let pr := {| then_ := Some (HThen 7); catch_ := Some (HCatch 8); finally_ := None |} in
  trace s = [EResolve 0 (VElem 1)]
  /\ heap s !! 0%nat = Some pr
  /\ reject 0 (Some "e"%string) s
     = spawn [IObserve 0 (Rejected (Some "e"%string)); IDone]
         (emit (EReject 0 (Some "e"%string)) s).
Proof.
  intros main s pr. split; [reflexivity|].
  assert (Hp : heap s !! 0%nat = Some pr) by reflexivity.
  split; [exact Hp|].
  destruct (observer_invoked_once_per_call main [0; 0; 0; 1]%nat 0%nat)
    as (_ & _ & Hcalls).
  destruct (Hcalls pr Hp) as [_ Hreject].
  apply (Hreject (HCatch 8)). reflexivity.
Defined.

(** C8 (as stated) fails.  The caller calls [Finally(f)], the executor
    calls [resolve], the goroutine it starts reads the [then] field and
    finds the closure of [Finally]; then the caller calls [Then(h)]; and
    then [f] runs, on the success path, and [h] never does. *)
Lemma Finally_handler_runs_on_success_path :
  let main := Finally_before_Then 5 1 2 in
  let s := run [0; 0; 1; 2; 0]%nat (start main) in
  trace s = [EResolve 0 (VElem 5); EThen 0 (HFinallyOnlyThen (HFinally 1)) (VElem 5)]
  /\ pool s !! 0%nat = Some []
  /\ then_ <$> heap s !! 0%nat = Some (Some (HThen 2))
  /\ trace (run [2; 2]%nat s)
     = [EResolve 0 (VElem 5); EThen 0 (HFinallyOnlyThen (HFinally 1)) (VElem 5);
        EUserFinally 1]
  /\ forall sched, trace (run ([2; 2]%nat ++ sched) s) = trace (run [2; 2]%nat s).
Proof.
  intros main s. repeat split; try reflexivity.
  intros sched. rewrite run_app. rewrite run_finished; [reflexivity|].
  vm_compute. repeat constructor.
Qed.

(** C8 (amended) at a promise of [int] that already has a
    success-observer. *)
Lemma Then_replaces_witness :
  let s := run [0; 0]%nat (start [CNewPromise [CallResolve 5]; CThen 0 1]) in
  heap s !! 0%nat = Some {| then_ := Some (HThen 1); catch_ := None; finally_ := None |}
  /\ fst (Then_returning 0 (HThen 2) s) = 0%nat
  /\ heap (Then 0 (HThen 2) s) !! 0%nat
     = Some {| then_ := Some (HThen 2); catch_ := None; finally_ := None |}.
Proof.
  intros s. split; [reflexivity|].
  destruct (Then_replaces_success_observer s 0%nat
              {| then_ := Some (HThen 1); catch_ := None; finally_ := None |} eq_refl)
    as (Hthen & _).
  destruct (Hthen (HThen 2)) as (Hres & _ & Hfield & _).
  split; [exact Hres|exact Hfield].
Defined.



(** The run of [All] over [ok(1), fail("e1"), ok(2)]: the aggregate
    rejects with "e1" and does not resolve. *)
Example All_run_rejects_with_first_error :
  trace (run ([0; 0; 0; 0; 0; 0] ++ [4; 4; 4; 4; 4; 4; 4] ++ [1; 2; 3]
              ++ [5; 6; 7; 5; 6; 7; 5; 6; 7; 5; 6; 7; 8; 8; 8])%nat
           (start [CNewPromise [CallResolve 1];
                   CNewPromise [CallReject (Some "e1"%string)];
                   CNewPromise [CallResolve 2];
                   CAll [0; 1; 2]%nat; CThen 3 100; CCatch 3 101]))
  = [EResolve 0 (VElem 1); EReject 1 (Some "e1"%string); EResolve 2 (VElem 2);
     EThen 0 (HAllThen 3 0) (VElem 1);
     ECatch 1 (HAllCatch 3) (Some "e1"%string);
     EThen 2 (HAllThen 3 2) (VElem 2);
     EReject 3 (Some "e1"%string);
     ECatch 3 (HCatch 101) (Some "e1"%string);
     EUserCatch 101 (Some "e1"%string)].
Proof. vm_compute. reflexivity. Qed.

(** C5 (as stated) fails.  The executor of the first input calls
    [reject] twice, the second input never settles: the closure of [Any]
    counts the first input twice, and [Any] rejects although not every
    input has rejected. *)
Lemma Any_rejects_before_every_input_has :
  trace (run ([0; 0; 0; 0] ++ [3; 3; 3; 3; 3] ++ [1; 1] ++ [4; 4; 4; 5; 5; 5; 5]
              ++ [6; 6; 6])%nat
           (start [CNewPromise [CallReject (Some "e1"%string);
                                CallReject (Some "again"%string)];
                   CNewPromise [];
                   CAny [0; 1]%nat; CCatch 2 100]))
  = [EReject 0 (Some "e1"%string); EReject 0 (Some "again"%string);
     ECatch 0 (HAnyCatch 2 0) (Some "e1"%string);
     ECatch 0 (HAnyCatch 2 0) (Some "again"%string);
     EReject 2 (Some "all promises rejected: [again <nil>]"%string);
     ECatch 2 (HCatch 100) (Some "all promises rejected: [again <nil>]"%string);
     EUserCatch 100 (Some "all promises rejected: [again <nil>]"%string)].
Proof. vm_compute. reflexivity. Qed.

(** C5 (amended) at two inputs that both fail, the second one first. *)
Lemma Any_settles_witness :
  let ds := [Fail 1 (Some "e2"%string); Fail 0 (Some "e1"%string)] in
  [4; 5]%nat <> []
  /\ delivered_once (T := Z) 2 ds
  /\ exists remaining errors,
       feed (T := Z) (Any_region 9) ds (Any_env 2)
       = Some (AnyEnv remaining errors, [IRejectErrors 9])
       /\ errors = [Some "e1"%string; Some "e2"%string]
       /\ forall s : state Z,
            envs s !! 9%nat = Some (AnyEnv remaining errors) ->
            reject_errors 9 s
            = reject 9 (Some "all promises rejected: [e1 e2]"%string) s.
Proof.
  intros ds.
  assert (Hne : [4; 5]%nat <> []) by discriminate.
  assert (Hwf : delivered_once (T := Z) 2 ds).
  { split; [repeat constructor|]. apply NoDup_ListNoDup.
    repeat constructor; simpl; intuition discriminate. }
  split; [exact Hne|]. split; [exact Hwf|].
  destruct (Any_settles_as_delivered 9%nat [4; 5]%nat ds Hne Hwf)
    as (_ & remaining & errors & calls & Hfeed & _ & Hlen & Hiff & Hn & Herr & Hmsg).
  assert (Hall : every_input_fails (T := Z) 2 ds).
  { intros [|[|i]] Hi; [exists (Some "e1"%string)|exists (Some "e2"%string)|lia];
      repeat constructor. }
  apply Hiff in Hall.
  destruct calls as [|c [|c' calls]]; [by apply elem_of_nil in Hall| |simpl in Hlen; lia].
  apply list_elem_of_singleton in Hall. subst c.
  assert (He : errors = [Some "e1"%string; Some "e2"%string]).
  { pose proof (Herr 0%nat (Some "e1"%string)) as H0.
    pose proof (Herr 1%nat (Some "e2"%string)) as H1.
    destruct errors as [|x [|y [|z errors]]]; try discriminate Hn.
    simpl in H0, H1.
    assert (Some x = Some (Some "e1"%string)) as [= ->] by (apply H0; repeat constructor).
    assert (Some y = Some (Some "e2"%string)) as [= ->] by (apply H1; repeat constructor).
    reflexivity. }
  exists remaining, errors. split; [exact Hfeed|]. split; [exact He|].
  intros s Hs. destruct (Hmsg s Hs) as (msg & -> & -> & _). by rewrite He.
Defined.

(** The runs of [Any] over [fail("e1"), fail("e2")] and over
    [fail("e1"), ok(5)]. *)
Example Any_run_rejects_with_all_errors :
  trace (run ([0; 0; 0; 0] ++ [3; 3; 3; 3; 3] ++ [2; 1] ++ [4; 4; 5; 5]
              ++ [5; 4; 4; 5] ++ [6; 6; 6])%nat
           (start [CNewPromise [CallReject (Some "e1"%string)];
                   CNewPromise [CallReject (Some "e2"%string)];
                   CAny [0; 1]%nat; CCatch 2 100]))
  = [EReject 1 (Some "e2"%string); EReject 0 (Some "e1"%string);
     ECatch 1 (HAnyCatch 2 1) (Some "e2"%string);
     ECatch 0 (HAnyCatch 2 0) (Some "e1"%string);
     EReject 2 (Some "all promises rejected: [e1 e2]"%string);
     ECatch 2 (HCatch 100) (Some "all promises rejected: [e1 e2]"%string);
     EUserCatch 100 (Some "all promises rejected: [e1 e2]"%string)].
Proof. vm_compute. reflexivity. Qed.

Example Any_run_resolves_with_first_value :
  trace (run ([0; 0; 0; 0] ++ [3; 3; 3; 3; 3] ++ [2; 1] ++ [4; 4; 5; 5]
              ++ [5; 4; 4; 5] ++ [6; 6; 6])%nat
           (start [CNewPromise [CallReject (Some "e1"%string)];
                   CNewPromise [CallResolve 5];
                   CAny [0; 1]%nat; CThen 2 100]))
  = [EResolve 1 (VElem 5); EReject 0 (Some "e1"%string);
     EThen 1 (HAnyThen 2) (VElem 5);
     ECatch 0 (HAnyCatch 2 0) (Some "e1"%string);
     EResolve 2 (VElem 5); EThen 2 (HThen 100) (VElem 5);
     EUserThen 100 (VElem 5)].
Proof. vm_compute. reflexivity. Qed.



(** The run of [AllSettled] over [ok(1), fail("e1")], the failure
    arriving first. *)
Example AllSettled_run_fills_every_slot :
  let s := run ([0; 0; 0; 0] ++ [3; 3; 3; 3; 3] ++ [2; 1] ++ [4; 4; 5; 5]
                ++ [5; 4; 4; 5] ++ [6; 6; 6])%nat
             (start [CNewPromise [CallResolve 1];
                     CNewPromise [CallReject (Some "e1"%string)];
                     CAllSettled [0; 1]%nat; CThen 2 100]) in
  trace s
  = [EReject 1 (Some "e1"%string); EResolve 0 (VElem 1);
     ECatch 1 (HAllSettledCatch 2 1) (Some "e1"%string);
     EThen 0 (HAllSettledThen 2 0) (VElem 1);
     EResolve 2 (VResults 2); EThen 2 (HThen 100) (VResults 2);
     EUserThen 100 (VResults 2)]
  /\ envs s !! 2%nat
     = Some (AllSettledEnv
               [{| Value := VElem 1; Error := None; Fulfilled := true |};
                {| Value := VElem 0; Error := Some "e1"%string; Fulfilled := false |}]
               0).
Proof. vm_compute. split; reflexivity. Qed.

(** C10 at a promise of [int] that had both observers attached before it
    was handed to [All]: once [All] has attached, the promise resolves,
    and the observer invoked is the closure of [All]. *)
Lemma combinator_replaces_witness :
  let s := run [0; 0; 0; 0; 2; 2; 2]%nat
             (start [CNewPromise [CallResolve 1]; CThen 0 7; CCatch 0 8; CAll [0]%nat]) in
  let pr := {| then_ := Some (HAllThen 1 0); catch_ := Some (HAllCatch 1);
               finally_ := None |} in
  [0]%nat !! 0%nat = Some 0%nat
  /\ heap s !! 0%nat = Some pr
  /\ pending (touches 0) s = 0%nat
  /\ slots_frozen 0 pr (trace s) (run [1; 3; 3; 3; 3; 3; 3]%nat s).
Proof.
  intros s pr.
  assert (Hidx : [0]%nat !! 0%nat = Some 0%nat) by reflexivity.
  assert (Hp : heap s !! 0%nat = Some pr) by reflexivity.
  assert (Hq : pending (touches 0) s = 0%nat) by reflexivity.
  split; [exact Hidx|]. split; [exact Hp|]. split; [exact Hq|].
  destruct (combinator_replaces_observers s [0]%nat 1%nat 0%nat 0%nat pr Hidx Hp)
    as (_ & _ & _ & _ & _ & _ & Hfrozen).
  apply (Hfrozen Hq).
Defined.

Example combinator_replaces_run :
  trace (run ([0; 0; 0; 0; 2; 2; 2] ++ [1; 3; 3; 3; 3; 3; 3])%nat
           (start [CNewPromise [CallResolve 1]; CThen 0 7; CCatch 0 8; CAll [0]%nat]))
  = [EResolve 0 (VElem 1); EThen 0 (HAllThen 1 0) (VElem 1); EResolve 1 (VResults 1)].
Proof. vm_compute. reflexivity. Qed.

(** ** Further runs at the element type [int] *)

(** X1 at two inputs, the second one failing first. *)
Lemma Race_first_delivery_witness :
  [4; 5]%nat <> []
  /\ feed (Race_region 9)
       [Fail 1 (Some "e"%string); Fulfil 0 (VElem 1); Fail 1 (Some "late"%string)]
       Race_env
     = Some (RaceEnv true, [IReject 9 (Some "e"%string)]).
Proof.
  assert (Hne : [4; 5]%nat <> []) by discriminate.
  split; [exact Hne|].
  apply (Race_first_delivery_wins 9%nat [4; 5]%nat (Fail 1 (Some "e"%string))
           [Fulfil 0 (VElem 1); Fail 1 (Some "late"%string)] Hne).
Defined.

(** X2 at two inputs, the first of which fulfils twice. *)
Lemma aggregate_settles_witness :
  let ds := [Fulfil 0 (VElem 1); Fulfil 0 (VElem 2); Fail 1 (Some "e"%string);
             Fulfil 1 (VElem 3)] in
  Forall (fun d => (delivery_idx d < 2)%nat) ds
  /\ exists env calls,
       feed (All_region 9) ds (All_env 2) = Some (env, calls)
       /\ (length calls <= 1)%nat.
Proof.
  intros ds.
  assert (Hr : Forall (fun d => (delivery_idx d < 2)%nat) ds) by (repeat constructor).
  split; [exact Hr|].
  apply (aggregate_settles_at_most_once 9%nat 2%nat ds Hr).
Defined.

(** X3 at a promise of [int] that has a failure-observer. *)
Lemma registrations_compose_witness :
  let s := run [0; 0]%nat (start [CNewPromise [CallResolve 5]; CCatch 0 1]) in
  let pr := {| then_ := None; catch_ := Some (HCatch 1); finally_ := None |} in
  heap s !! 0%nat = Some pr
  /\ Catch 0 (HCatch 3) (Catch 0 (HCatch 2) s) = Catch 0 (HCatch 3) s
  /\ Then 0 (HThen 4) (Catch 0 (HCatch 2) s) = Catch 0 (HCatch 2) (Then 0 (HThen 4) s).
Proof.
  intros s pr.
  assert (Hp : heap s !! 0%nat = Some pr) by reflexivity.
  split; [exact Hp|].
  destruct (registrations_compose s 0%nat pr Hp) as (_ & Hcc & Htc & _).
  split; [apply Hcc|apply Htc].
Defined.

(** X4 at a promise of [int]: [Then(7)], [resolve(5)], [Then(8)], and only
    then the goroutine of the settlement runs. *)
Lemma observer_is_read_witness :
  let s := run [0; 0]%nat (start [CNewPromise []; CThen 0 7]) in
  let pr := {| then_ := Some (HThen 7); catch_ := None; finally_ := None |} in
  panicked s = false
  /\ heap s !! 0%nat = Some pr
  /\ exists s3,
       step 2 (Then 0 (HThen 8) (resolve 0 (VElem 5) s)) = Some s3
       /\ trace s3 = [EResolve 0 (VElem 5); EThen 0 (HThen 8) (VElem 5)]
       /\ pool s3 !! 2%nat = Some [IUserThen 8 (VElem 5); IDone].
Proof.
  intros s pr.
  assert (Hlive : panicked s = false) by reflexivity.
  assert (Hp : heap s !! 0%nat = Some pr) by reflexivity.
  split; [exact Hlive|]. split; [exact Hp|].
  destruct (observer_is_read_when_it_runs s 0%nat pr Hlive Hp) as [Hthen _].
  apply (Hthen (HThen 7) (HThen 8) (VElem 5)). reflexivity.
Defined.

(** X5 at a run in which the observer goroutine of the only promise has
    finished. *)
Lemma WaitGroup_counts_witness :
  let s := run [0; 0; 1; 2; 2; 2]%nat (start [CNewPromise [CallResolve 1]; CThen 0 7]) in
  panicked s = false
  /\ wg s = 0 /\ finished s = 1 /\ is_Some (WaitForPromises s).
Proof.
  intros s.
  assert (Hlive : panicked s = false) by reflexivity.
  split; [exact Hlive|].
  destruct (WaitGroup_counts_unfinished [CNewPromise [CallResolve 1]; CThen 0 7]
              [0; 0; 1; 2; 2; 2]%nat) as (_ & Hacc).
  destruct (Hacc Hlive) as (Hwg & Hwait).
  assert (Hfin : finished s = 1) by reflexivity.
  split; [|split; [exact Hfin|]].
  - fold s in Hwg. rewrite Hwg, Hfin. reflexivity.
  - apply Hwait. exact Hfin.
Defined.

(** X6 at a promise of [int] that has a success-observer only. *)
Lemma Finally_runs_after_witness :
  let s := run [0; 0]%nat (start [CNewPromise [CallResolve 5]; CThen 0 1]) in
  let pr := {| then_ := Some (HThen 1); catch_ := None; finally_ := None |} in
  heap s !! 0%nat = Some pr
  /\ exists t c,
       heap (Finally 0 (HFinally 2) s) !! 0%nat
       = Some {| then_ := Some t; catch_ := Some c; finally_ := None |}
       /\ (forall v : value Z, call_then t v = [IUserThen 1 v; IUserFinally 2])
       /\ (forall e, call_catch (T := Z) c e = [IUserFinally 2]).
Proof.
  intros s pr.
  assert (Hp : heap s !! 0%nat = Some pr) by reflexivity.
  split; [exact Hp|].
  destruct (Finally_runs_after_the_observer s 0%nat pr 2%nat Hp)
    as ((t & c & Hh & Ht & Hc) & _).
  exists t, c. split; [exact Hh|]. split; [exact Ht|exact Hc].
Defined.

(** X8 at [All] of the same promise twice, its executor about to enter
    the loop: afterwards the promise holds the closures of index 1. *)
Lemma attach_last_registration_witness :
  let s := run [0; 0; 2]%nat (start [CNewPromise []; CAll [0; 0]%nat]) in
  let s' := run (replicate 4 2%nat) s in
  panicked s = false
  /\ pool s !! 2%nat = Some (attach (HAllThen 1) (fun _ => HAllCatch 1) [0; 0]%nat ++ [])
  /\ Forall (fun p => (p < length (heap s))%nat) [0; 0]%nat
  /\ exists pr, heap s' !! 0%nat = Some pr
                /\ then_ pr = Some (HAllThen 1 1) /\ catch_ pr = Some (HAllCatch 1).
Proof.
  intros s s'.
  assert (Hlive : panicked s = false) by reflexivity.
  assert (Hi : pool s !! 2%nat
               = Some (attach (HAllThen 1) (fun _ => HAllCatch 1) [0; 0]%nat ++ []))
    by reflexivity.
  assert (Hr : Forall (fun p => (p < length (heap s))%nat) [0; 0]%nat).
  { repeat constructor. }
  split; [exact Hlive|]. split; [exact Hi|]. split; [exact Hr|].
  destruct (attach_last_registration_wins s 2%nat (HAllThen 1) (fun _ => HAllCatch 1)
              [0; 0]%nat [] Hlive Hi Hr) as (_ & _ & _ & _ & Hlast & _).
  apply (Hlast 1%nat 0%nat eq_refl).
  intros [|[|j]] Hj; [lia|lia|discriminate].
Defined.

(** The run of [All] over the same promise twice: the promise fulfils
    after [All] has attached, its fulfilment reaches the closure of
    index 1 only, and the aggregate never resolves. *)
Example All_of_a_promise_twice_hangs :
  let s := run ([0; 0; 0] ++ [2; 2; 2; 2; 2] ++ [1; 3; 3; 3])%nat
             (start [CNewPromise [CallResolve 7]; CAll [0; 0]%nat; CThen 1 9]) in
  trace s = [EResolve 0 (VElem 7); EThen 0 (HAllThen 1 1) (VElem 7)]
  /\ envs s !! 1%nat = Some (AllEnv [VElem 0; VElem 7] 1)
  /\ forall sched, run sched s = s.
Proof.
  split; [vm_compute; reflexivity|]. split; [vm_compute; reflexivity|].
  intros sched. apply run_finished. vm_compute. repeat constructor.
Qed.


(** X10 at [Race] over a promise that fulfils and one that fails: the
    aggregate, promise 2, is settled at most once. *)
Lemma promise_settles_witness :
  let main := [CNewPromise [CallResolve 1]; CNewPromise [CallReject (Some "e"%string)];
               CRace [0; 1]%nat; CThen 2 7; CCatch 2 8] in
  let sched := ([0; 0; 0; 0; 0] ++ [3; 3; 3; 3; 3]
                ++ [1; 2; 4; 5; 4; 5; 4; 5; 6; 6; 6])%nat in
  well_behaved main = true
  /\ (let s := run sched (start main) in
      (tally (settles 2) (trace s) <= 1)%nat
      /\ (tally (is_EThen 2) (trace s) + tally (is_ECatch 2) (trace s) <= 1)%nat).
Proof.
  intros main sched.
  assert (Hmain : well_behaved main = true) by reflexivity.
  split; [exact Hmain|].
  exact (promise_settles_at_most_once main sched 2%nat Hmain).
Defined.

(** The run of that program: the fulfilment of promise 0 wins the race,
    the failure of promise 1 finds the flag set, and the aggregate's
    success-observer runs once. *)
Example Race_run_settles_once :
  let main := [CNewPromise [CallResolve 1]; CNewPromise [CallReject (Some "e"%string)];
               CRace [0; 1]%nat; CThen 2 7; CCatch 2 8] in
  let s := run ([0; 0; 0; 0; 0] ++ [3; 3; 3; 3; 3] ++ [1; 2; 4; 5; 4; 5; 4; 5; 6; 6; 6; 4])%nat
             (start main) in
  trace s
  = [EResolve 0 (VElem 1); EReject 1 (Some "e"%string);
     EThen 0 (HRaceThen 2) (VElem 1); ECatch 1 (HRaceCatch 2) (Some "e"%string);
     EResolve 2 (VElem 1); EThen 2 (HThen 7) (VElem 1); EUserThen 7 (VElem 1)]
  /\ wg s = 0 /\ panicked s = false.
Proof. vm_compute. by repeat split. Qed.

(** ** Further runs at the element type [int] *)

(** C4 (as stated) fails.  The executor rejects and the caller never
    calls [Catch]; but it has called [Finally], which installed a
    failure-observer of its own: the rejection is observed, the counter
    comes down to zero and [WaitForPromises] returns. *)
Lemma reject_without_Catch_is_released :
  let s := run [0; 0; 1; 2; 2; 2; 0]%nat
             (start [CNewPromise [CallReject (Some "boom"%string)];
                     CFinally 0 5; CWaitForPromises]) in
  trace s
  = [EReject 0 (Some "boom"%string);
     ECatch 0 (HFinallyOnlyCatch (HFinally 5)) (Some "boom"%string);
     EUserFinally 5; EReturned]
  /\ wg s = 0.
Proof. vm_compute. split; reflexivity. Qed.

(** C4 (amended) at a promise of [int] whose executor rejects with "boom"
    after the caller has attached a success-observer, and before the
    caller waits. *)
Lemma unobserved_settlement_witness :
  let main := reject_uncaught (Some "boom"%string) [7%nat] [] in
  let s := run [0; 0]%nat (start main) in
  well_behaved main = true
  /\ pool s !! 1%nat = Some [IReject 0 (Some "boom"%string)]
  /\ unheard (T := Z) (heap s) (IReject 0 (Some "boom"%string))
  /\ step 1 s
     = Some (emit (EReject 0 (Some "boom"%string)) (with_pool (<[1%nat := []]> (pool s)) s))
  /\ forall sched',
       let s' := run (1%nat :: sched') s in
       1 <= wg s' /\ WaitForPromises s' = None
       /\ tally is_EReturned (trace s') = 0%nat.
Proof.
  intros main s.
  assert (Hmain : well_behaved main = true) by reflexivity.
  assert (Hi : pool s !! 1%nat = Some [IReject 0 (Some "boom"%string)]) by reflexivity.
  assert (Hu : unheard (T := Z) (heap s) (IReject 0 (Some "boom"%string))) by reflexivity.
  split; [exact Hmain|]. split; [exact Hi|]. split; [exact Hu|].
  split; [reflexivity|].
  exact (proj1 (proj2 (unobserved_settlement_is_never_released main [0; 0]%nat 1%nat
                         (IReject 0 (Some "boom"%string)) [] Hmain Hi Hu))).
Defined.

(** Without the executor contract the lost settlement can be made up
    for: the first promise rejects with no failure-observer, the
    executor of the second one calls [resolve] twice, its two observer
    goroutines both call [wg.Done()], and [WaitForPromises] returns. *)
Example double_settlement_releases_the_tracker :
  let s := run [0; 0; 0; 1; 2; 2; 3; 3; 3; 4; 4; 4; 0]%nat
             (start [CNewPromise [CallReject (Some "e"%string)];
                     CNewPromise [CallResolve 1; CallResolve 2];
                     CThen 1 7; CWaitForPromises]) in
  trace s
  = [EReject 0 (Some "e"%string); EResolve 1 (VElem 1); EResolve 1 (VElem 2);
     EThen 1 (HThen 7) (VElem 1); EUserThen 7 (VElem 1);
     EThen 1 (HThen 7) (VElem 2); EUserThen 7 (VElem 2); EReturned]
  /\ wg s = 0 /\ panicked s = false.
Proof. vm_compute. repeat split; reflexivity. Qed.

(** A settlement that precedes the attachment is not always lost.  The
    input has an observer of its own when its executor calls [resolve],
    so a goroutine is started; [AllSettled] attaches before that
    goroutine reads the field, the goroutine finds the closure of
    [AllSettled] there, and the aggregate resolves. *)
Example settlement_before_attachment_can_be_heard :
  let s := run [0; 0; 1; 0; 0; 3; 3; 3; 2; 2; 2; 2; 4; 4; 4]%nat
             (start [CNewPromise [CallResolve 7]; CThen 0 9;
                     CAllSettled [0]%nat; CThen 1 50]) in
  trace s
  = [EResolve 0 (VElem 7); EThen 0 (HAllSettledThen 1 0) (VElem 7);
     EResolve 1 (VResults 1); EThen 1 (HThen 50) (VResults 1);
     EUserThen 50 (VResults 1)]
  /\ envs s !! 1%nat
     = Some (AllSettledEnv [{| Value := VElem 7; Error := None; Fulfilled := true |}] 0).
Proof. vm_compute. split; reflexivity. Qed.
